(** * Chest hunt solver: a shallow embedding of [idle_slayer_chest_hunt.py]

    The development follows the Python module top to bottom: the constants,
    the chest kinds [CHType], the state class [CH] with its constructor,
    [copy], [stop], [value], [next] and [chance], the accumulator [CHValue],
    and the memoised recursion [calculate_value].

    Numbers.  [Decimal] values (the [chests] and [mimics] attributes and the
    three fields of a [CHValue]) are modelled by rationals [Q], compared by
    value ([Qeq]) as Python's [Decimal.__eq__] and [__hash__] do.  Python
    [int] attributes are [Z].  The one binary floating point number of the
    program, the literal [ARMORY_RATE = 0.005], and the one floating point
    operation, [1 - armory], are modelled by [binary64], rounding to nearest
    (ties to even) on 53 bits.  A division whose divisor is zero raises, as
    it does in Python.

    The arithmetic of decimals is given twice.  In the first embedding
    ([CHValue], [CH], [calculate_value]) the operations [+ - * /] are the
    exact operations on [Q]: the program where no result needs more than the
    28 significant digits of the decimal context, and the program the
    specification describes.  On it the control flow of the solver, its
    cache and its callers are studied.  In the second ([Dec], [Ctx]) every
    operation on a decimal rounds its result to the context, as Python
    does: the chances, the termination and the bounds of the values are
    proved of this one, and it is where the two part that the claims of the
    specification on the numbers fail.  The special values (NaN,
    infinities) and the signal [Overflow] are outside both.

    Effects.  [CH.solved], the class-level dictionary, is threaded through
    [calculate_value] as part of a [store].  The store also carries a ghost
    [trace] of what the solver does (calls, returns, invocations of [next],
    evaluations of [chance]); the trace has no influence on the results and
    serves to state what the solver visits and how often.

    Beyond the module's functions, three further views of the solver serve
    the properties proved about it.  A rule ([activation_by]) says what a
    returning call has done in terms of the calls it made, for inductions on
    returning runs.  The recursion without the cache ([uncached]) is
    [calculate_value] with [stop] and [value] at their [# return default]
    variants: what the cache is to be transparent for.  And since a
    [CHValue] is a mutable object to whose [loot] the callers assign, the
    solver is given once more on a memory of objects, [CH.solved] holding
    references ([calculate_value_obj]); on it stand [make_csv] (the values
    of its rows; the file and the header row are left out) and the script
    under [__main__] (the values it prints).  [format] is the rounding to
    significant digits of the displayed numbers, with the bounds of the
    context on digits and exponents. *)

From Stdlib Require Import ZArith QArith Qround Qpower Qabs Bool List Lia Lqa
  Setoid Morphisms.
Import ListNotations.

Local Open Scope Q_scope.

(** ** Comparisons of numbers, as booleans *)

(** [x > y] on decimals. *)
Definition Qgtb (x y : Q) : bool := negb (Qle_bool x y).

(** ** Binary floating point: the literal [0.005] and [1 - armory]

    [binary64 x] is the double nearest to the rational [x], ties to even, for
    [x] in the range of normal doubles.  [scale2 x e] is [x * 2^(-e)]. *)

Definition scale2 (x : Q) (e : Z) : Q :=
  if (0 <=? e)%Z then x / inject_Z (2 ^ e) else x * inject_Z (2 ^ (- e)).

(** Round a non-negative rational to the nearest integer, ties to even. *)
Definition round_half_even (x : Q) : Z :=
  let f := Qfloor x in
  let r := x - inject_Z f in
  match Qcompare r (1 # 2) with
  | Lt => f
  | Gt => (f + 1)%Z
  | Eq => if Z.even f then f else (f + 1)%Z
  end.

(** The exponent [e] of the unit in the last place of a positive [x]:
    [2^52 <= x * 2^(-e) < 2^53]. *)
Definition ulp_exponent (x : Q) : Z :=
  let e0 := (Z.log2 (Qnum x) - Z.log2 (Zpos (Qden x)) - 52)%Z in
  if Qle_bool (inject_Z (2 ^ 52)) (scale2 x e0) then e0 else (e0 - 1)%Z.

Definition binary64_pos (x : Q) : Q :=
  let e := ulp_exponent x in
  Qred (scale2 (inject_Z (round_half_even (scale2 x e))) (- e)).

Definition binary64 (x : Q) : Q :=
  match Qnum x with
  | Z0 => 0
  | Zpos _ => binary64_pos x
  | Zneg _ => - binary64_pos (- x)
  end.

(** ** Constants *)

(** [ARMORY_RATE = 0.005]: a float literal. *)
Definition ARMORY_RATE : Q := binary64 (5 # 1000).

(** ** Exceptions of the decimal module

    With the default context, dividing by zero raises [DivisionByZero], and
    [0 / 0] raises [InvalidOperation]. *)

Inductive exn : Type := DivisionByZero | InvalidOperation.

(** [x / y] on decimals, in exact arithmetic ([Dec.div] is the division of
    the decimal context). *)
Definition decimal_div (x y : Q) : exn + Q :=
  if Qeq_bool y 0 then
    inl (if Qeq_bool x 0 then InvalidOperation else DivisionByZero)
  else inr (x / y).

(** ** Chest kinds *)

Inductive CHType : Type := LOOT | MIMIC | SAVER | DOUBLER.

(** ** Storage for chest hunt values: class [CHValue] *)

Module CHValue.

Record t : Type := mk { loot : Q; perfect : Q; armory : Q }.

(** [__add__], in exact arithmetic ([Ctx.add] is the one of the decimal
    context). *)
Definition add (a b : t) : t :=
  mk (loot a + loot b) (perfect a + perfect b) (armory a + armory b).

(** [__mul__] and [__rmul__]: scaling by a decimal, in exact arithmetic
    ([Ctx.mul] is the one of the decimal context). *)
Definition mul (a : t) (other : Q) : t :=
  mk (loot a * other) (perfect a * other) (armory a * other).

End CHValue.

(** ** Chest hunt state: class [CH] *)

Module CH.

Record t : Type := mk {
  chests : Q;      (* number of chests *)
  mimics : Q;      (* number of mimics *)
  savers : Z;      (* savers left to grab *)
  saves : Z;       (* saves left *)
  ad : bool;       (* uses ad *)
  csaves : Z;      (* crystal saves left *)
  doublers : Z;    (* doublers left to grab *)
  doubles : Z;     (* doubles left *)
  dd : bool;       (* uses x2 x2 *)
  perfect : bool;  (* want perfect hunt *)
  armory : bool;   (* has armory chests *)
  chase : bool     (* chase x2 saver *)
}.

(** [__init__]: two doublers mean x2 x2, which overrides [dd] and
    [perfect]; [chase] starts as [perfect]. *)
Definition init (chests mimics : Q) (savers saves : Z) (ad : bool)
    (csaves doublers doubles : Z) (dd perfect armory : bool) : t :=
  let dd' := if (doublers >? 1)%Z then true else dd in
  let perfect' := if (doublers >? 1)%Z then false else perfect in
  mk chests mimics savers saves ad csaves doublers doubles dd' perfect'
     armory perfect'.

(** [__eq__] (and [__hash__], which hashes the same tuple): all twelve
    attributes, decimals by value. *)
Definition eqb (a b : t) : bool :=
  Qeq_bool (chests a) (chests b) && Qeq_bool (mimics a) (mimics b)
  && (savers a =? savers b)%Z && (saves a =? saves b)%Z
  && Bool.eqb (ad a) (ad b) && (csaves a =? csaves b)%Z
  && (doublers a =? doublers b)%Z && (doubles a =? doubles b)%Z
  && Bool.eqb (dd a) (dd b) && Bool.eqb (perfect a) (perfect b)
  && Bool.eqb (chase a) (chase b) && Bool.eqb (armory a) (armory b).

(** [copy]: goes through the constructor, then restores [chase]. *)
Definition copy (self : t) : t :=
  let ch := init (chests self) (mimics self) (savers self) (saves self)
              (ad self) (csaves self) (doublers self) (doubles self)
              (dd self) (perfect self) (armory self) in
  mk (chests ch) (mimics ch) (savers ch) (saves ch) (ad ch) (csaves ch)
     (doublers ch) (doubles ch) (dd ch) (perfect ch) (armory ch)
     (chase self).

(** The dictionary [CH.solved], keyed by [__eq__]: the first binding of a
    key is the current one. *)
Definition dict : Type := list (t * CHValue.t).

Fixpoint get (d : dict) (k : t) : option CHValue.t :=
  match d with
  | [] => None
  | (k', v) :: d' => if eqb k' k then Some v else get d' k
  end.

Definition mem (d : dict) (k : t) : bool :=
  match get d k with Some _ => true | None => false end.

(** [CH.solved[k] = v] *)
Definition set (d : dict) (k : t) (v : CHValue.t) : dict := (k, v) :: d.

(** [1 if self.doublers > 0 else 0] *)
Definition doublers01 (self : t) : Z :=
  if (doublers self >? 0)%Z then 1%Z else 0%Z.

(** The part of [stop] that does not look at the cache, with an exact sum
    ([Ctx.stop_default] has the sum of the decimal context). *)
Definition stop_default (self : t) : bool :=
  let nonloot :=
    mimics self + inject_Z (savers self) + inject_Z (doublers01 self) in
  Qle_bool (chests self) nonloot || Qle_bool (chests self) 0.

(** [stop]: the value is known, or the hunt is over. *)
Definition stop (solved : dict) (self : t) : bool :=
  mem solved self || stop_default self.

(** The default of [value]: [CHValue(perfect=int(perfect))]. *)
Definition value_default (self : t) : CHValue.t :=
  let perfect :=
    Qle_bool (chests self) (mimics self) && Qle_bool 0 (chests self) in
  CHValue.mk 0 (if perfect then 1 else 0) 0.

(** [value]: [CH.solved.get(self, default)]. *)
Definition value (solved : dict) (self : t) : CHValue.t :=
  match get solved self with
  | Some v => v
  | None => value_default self
  end.

(** [next]: the state after opening a chest of kind [type], the chest and
    the mimic subtracted exactly ([Ctx.next] subtracts in the decimal
    context). *)
Definition next (self : t) (type : CHType) : t :=
  let ch := copy self in
  let chests' := chests ch - 1 in
  let csaves' :=
    if (csaves self >? 0)%Z then (csaves ch - 1)%Z else csaves ch in
  match type with
  | LOOT =>
      (* double loot *)
      let doubles' :=
        if (doubles self >? 0)%Z then (doubles ch - 1)%Z else doubles ch in
      mk chests' (mimics ch) (savers ch) (saves ch) (ad ch) csaves'
         (doublers ch) doubles' (dd ch) (perfect ch) (armory ch) (chase ch)
  | MIMIC =>
      (* kill mimic *)
      let saves' :=
        if (csaves self <=? 0)%Z then (saves ch - 1)%Z else saves ch in
      mk chests' (mimics ch - 1) (savers ch) saves' (ad ch) csaves'
         (doublers ch) (doubles ch) (dd ch) (perfect ch) (armory ch)
         (chase ch)
  | SAVER =>
      (* remove saver chest and gain saves; double saver when not x2 x2 *)
      let doubled := negb (dd self) && (doubles self >? 0)%Z in
      let saves' :=
        if doubled then (saves ch + 1 + 1)%Z else (saves ch + 1)%Z in
      let doubles' := if doubled then (doubles ch - 1)%Z else doubles ch in
      mk chests' (mimics ch) (savers ch - 1) saves' (ad ch) csaves'
         (doublers ch) doubles' (dd ch) (perfect ch) (armory ch) (chase ch)
  | DOUBLER =>
      (* remove double chest and gain doubles; first chest x2 swaps the
         method, ignored when x2 x2 *)
      let chase' :=
        if (csaves self >? 1)%Z && ad self && negb (dd self)
        then negb (perfect self) else chase ch in
      mk chests' (mimics ch) (savers ch) (saves ch) (ad ch) csaves'
         (doublers ch - 1) (doubles ch + 1) (dd ch) (perfect ch)
         (armory ch) chase'
  end.

(** AD allows us to avoid savers: the divisor of [_chance_doubler],
    [_chance_mimic] and [_chance_loot], an exact difference
    ([Ctx.live_chests] is the one of the decimal context). *)
Definition live_chests (self : t) : Q :=
  chests self - inject_Z (if ad self then savers self else 0%Z).

Definition _chance_doubler (self : t) : exn + Q :=
  let chests := live_chests self in
  let doublers := doublers01 self in
  decimal_div (inject_Z doublers) chests.

Definition _chance_mimic (self : t) : exn + Q :=
  let chests := live_chests self in
  decimal_div (mimics self) chests.

Definition _chance_loot (self : t) : exn + Q :=
  let savers := if ad self then 0%Z else savers self in
  let chests := live_chests self in
  let doublers := doublers01 self in
  decimal_div
    (chests - mimics self - inject_Z savers - inject_Z doublers) chests.

(** [chance]: the chance of opening a chest of kind [type]. *)
Definition chance (self : t) (type : CHType) : exn + Q :=
  match type with
  | LOOT => _chance_loot self
  | MIMIC => _chance_mimic self
  | SAVER => decimal_div (inject_Z (savers self)) (chests self)
  | DOUBLER => _chance_doubler self
  end.

End CH.

(** ** The solver: [calculate_value]

    A run either returns, raises, or exhausts its fuel; the fuel bounds the
    depth of the recursion and stands for Python's call stack. *)

Inductive result (A : Type) : Type :=
| Ok (a : A)
| Raise (e : exn)
| OutOfFuel.

Arguments Ok {A} a.
Arguments Raise {A} e.
Arguments OutOfFuel {A}.

(** What the solver does, in the order it does it (ghost state). *)
Inductive event : Type :=
| Call (ch : CH.t)                      (* [calculate_value(ch)] entered *)
| Return (ch : CH.t) (v : CHValue.t)    (* [calculate_value(ch)] returned [v] *)
| Next (ch : CH.t) (type : CHType)      (* [ch.next(type)] invoked *)
| Chance (ch : CH.t) (type : CHType).   (* [ch.chance(type)] evaluated *)

(** The store: the dictionary [CH.solved] and the trace, latest event first. *)
Record store : Type := mkStore { solved : CH.dict; trace : list event }.

Definition empty_store : store := mkStore [] [].

Definition M (A : Type) : Type := store -> result (A * store).

Definition ret {A} (a : A) : M A := fun st => Ok (a, st).

Definition bind {A B} (m : M A) (f : A -> M B) : M B :=
  fun st =>
    match m st with
    | Ok (a, st') => f a st'
    | Raise e => Raise e
    | OutOfFuel => OutOfFuel
    end.

Notation "x <- m ;; k" := (bind m (fun x => k))
  (at level 61, m at next level, right associativity).
Notation "m ;; k" := (bind m (fun _ => k))
  (at level 61, right associativity).

Definition out_of_fuel {A} : M A := fun _ => OutOfFuel.

Definition lift {A} (r : exn + A) : M A :=
  fun st => match r with inl e => Raise e | inr a => Ok (a, st) end.

Definition log (e : event) : M unit :=
  fun st => Ok (tt, mkStore (solved st) (e :: trace st)).

Definition get_solved : M CH.dict := fun st => Ok (solved st, st).

(** [CH.solved[ch] = value] *)
Definition set_solved (ch : CH.t) (value : CHValue.t) : M unit :=
  fun st => Ok (tt, mkStore (CH.set (solved st) ch value) (trace st)).

(** [ch.next(type)] and [ch.chance(type)], recorded in the trace. *)
Definition next_of (ch : CH.t) (type : CHType) : M CH.t :=
  log (Next ch type) ;; ret (CH.next ch type).

Definition chance_of (ch : CH.t) (type : CHType) : M Q :=
  log (Chance ch type) ;; lift (CH.chance ch type).

Section Body.

(** The recursive call, at one unit of fuel less. *)
Variable self : CH.t -> M CHValue.t.

(** [calculate_value(ch.next(type))] *)
Definition recurse (ch : CH.t) (type : CHType) : M CHValue.t :=
  ch' <- next_of ch type ;; self ch'.

(** [value += ch.chance(type) * calculate_value(ch.next(type))] *)
Definition weighted (ch : CH.t) (type : CHType) (value : CHValue.t)
  : M CHValue.t :=
  c <- chance_of ch type ;;
  v <- recurse ch type ;;
  ret (CHValue.add value (CHValue.mul v c)).

(** The immediate reward of one loot chest:
    [gain * CHValue(loot=loot, armory=armory)], before the weighting by
    the chance. *)
Definition gain (ch : CH.t) : Z := if (CH.doubles ch >? 0)%Z then 2 else 1.

Definition armory_rate (ch : CH.t) : Q :=
  if CH.armory ch then ARMORY_RATE else 0.

(** [loot = 1 - armory]: a float subtraction when [armory] is the float
    [ARMORY_RATE], an integer one when it is [0]. *)
Definition loot_rate (ch : CH.t) : Q :=
  if CH.armory ch then binary64 (1 - armory_rate ch)
  else 1 - armory_rate ch.

(** From [## Double] to the end of the function. *)
Definition double_mimic_loot (ch : CH.t) (value : CHValue.t)
  : M CHValue.t :=
  (* Double *)
  value <- (if (CH.doublers ch >? 0)%Z then weighted ch DOUBLER value
            else ret value) ;;
  (* Mimic *)
  value <- (if Qgtb (CH.mimics ch) 0
               && ((CH.saves ch >? 0)%Z || (CH.csaves ch >? 0)%Z)
            then weighted ch MIMIC value
            else ret value) ;;
  (* Loot *)
  c <- chance_of ch LOOT ;;
  let value :=
    CHValue.add value
      (CHValue.mul (CHValue.mk (loot_rate ch) 0 (armory_rate ch))
                   (c * inject_Z (gain ch))) in
  value <- weighted ch LOOT value ;;
  (* Add the current value as a solved state *)
  set_solved ch value ;;
  ret value.

Definition body (ch : CH.t) : M CHValue.t :=
  (* Recursive stop *)
  solved <- get_solved ;;
  let value := CH.value solved ch in
  if CH.stop solved ch then ret value
  else
    (* Saver: AD_SAVER provides room for strategy *)
    if (CH.savers ch >? 0)%Z then
      if CH.ad ch then
        (* Perfect - chase double saver *)
        if CH.chase ch && (CH.doubles ch >? 0)%Z then recurse ch SAVER
        (* Gains - open saver after crystals *)
        else if negb (CH.chase ch) && (CH.csaves ch <=? 0)%Z
        then recurse ch SAVER
        (* Else - open saver if no doubler to find *)
        else if (CH.doublers ch <=? 0)%Z then recurse ch SAVER
        else double_mimic_loot ch value
      else
        value <- weighted ch SAVER value ;;
        double_mimic_loot ch value
    else double_mimic_loot ch value.

(** One activation of [calculate_value], with its entry and its return
    recorded. *)
Definition activation (ch : CH.t) : M CHValue.t :=
  log (Call ch) ;;
  v <- body ch ;;
  log (Return ch v) ;;
  ret v.

End Body.

Fixpoint calculate_value (fuel : nat) (ch : CH.t) : M CHValue.t :=
  match fuel with
  | O => out_of_fuel
  | S fuel' => activation (calculate_value fuel') ch
  end.

(** ** The quantities of the chance model, in the words of the specification *)

Definition effectiveChests (s : CH.t) : Q :=
  CH.chests s - (if CH.ad s then inject_Z (CH.savers s) else 0).

Definition effectiveSavers (s : CH.t) : Q :=
  if CH.ad s then 0 else inject_Z (CH.savers s).

Definition activeDoublers (s : CH.t) : Q :=
  if (CH.doublers s >? 0)%Z then 1 else 0.

(** ** What the solver explores

    [explores s t] is the condition under which [calculate_value(s)] reaches
    a call of [s.next(t)]: the hunt goes on and the guard of the branch of
    [t] holds. *)

Definition explores (s : CH.t) (t : CHType) : bool :=
  negb (CH.stop_default s) &&
  match t with
  | SAVER => (CH.savers s >? 0)%Z
  | DOUBLER => (CH.doublers s >? 0)%Z
  | MIMIC =>
      Qgtb (CH.mimics s) 0 && ((CH.saves s >? 0)%Z || (CH.csaves s >? 0)%Z)
  | LOOT => true
  end.

(** The chance of each kind where no division fails: the quotients of
    [chance], [_chance_doubler], [_chance_mimic] and [_chance_loot]. *)
Definition weight (s : CH.t) (t : CHType) : Q :=
  match t with
  | LOOT =>
      (CH.live_chests s - CH.mimics s
       - inject_Z (if CH.ad s then 0%Z else CH.savers s)
       - inject_Z (CH.doublers01 s)) / CH.live_chests s
  | MIMIC => CH.mimics s / CH.live_chests s
  | SAVER => inject_Z (CH.savers s) / CH.chests s
  | DOUBLER => inject_Z (CH.doublers01 s) / CH.live_chests s
  end.

(** ** States and values of a run *)

(** An initial state: no negative attribute, and the special chests are
    among the chests. *)
Definition valid (s : CH.t) : Prop :=
  0 <= CH.chests s /\ 0 <= CH.mimics s
  /\ (0 <= CH.savers s)%Z /\ (0 <= CH.saves s)%Z /\ (0 <= CH.csaves s)%Z
  /\ (0 <= CH.doublers s)%Z /\ (0 <= CH.doubles s)%Z
  /\ CH.mimics s + inject_Z (CH.savers s) + inject_Z (CH.doublers s)
     <= CH.chests s.

(** The weakest condition on states under which a run is well defined: a
    mimic count that was positive before its last decrement, and no negative
    count of savers or doublers.  Initial states satisfy it, and every
    transition the solver takes keeps it. *)
Definition Inv (s : CH.t) : Prop :=
  - (1) < CH.mimics s /\ (0 <= CH.savers s)%Z /\ (0 <= CH.doublers s)%Z.

(** A whole number of chests. *)
Definition whole (q : Q) : Prop := exists z : Z, q == inject_Z z.

(** No count is negative, and the decimals count whole chests. *)
Definition counts (s : CH.t) : Prop :=
  (0 <= CH.chests s /\ 0 <= CH.mimics s
   /\ (0 <= CH.savers s)%Z /\ (0 <= CH.saves s)%Z /\ (0 <= CH.csaves s)%Z
   /\ (0 <= CH.doublers s)%Z /\ (0 <= CH.doubles s)%Z)
  /\ whole (CH.chests s) /\ whole (CH.mimics s).

(** The perfect-hunt field of a value is a probability, and it is zero once
    the mimic count is negative. *)
Definition Good (s : CH.t) (v : CHValue.t) : Prop :=
  (0 <= CHValue.perfect v /\ CHValue.perfect v <= 1)
  /\ (CH.mimics s < 0 -> CHValue.perfect v == 0).

(** While [calculate_value(s)] adds up its branches, the perfect-hunt field
    of the running value stays within the chance [B] of the branches added so
    far, and at zero when the mimic count is negative. *)
Definition Acc (s : CH.t) (B : Q) (value : CHValue.t) : Prop :=
  (0 <= CH.mimics s ->
     0 <= CHValue.perfect value /\ CHValue.perfect value <= B)
  /\ (CH.mimics s < 0 -> CHValue.perfect value == 0).

Section RunDefinitions.

(** An invariant [inv] of the explored states, and a property [good] of the
    values returned for them. *)
Variable inv : CH.t -> Prop.
Variable good : CH.t -> CHValue.t -> Prop.

(** What each event of a run satisfies: the solver is entered in states of
    the invariant and returns good values, [next] is invoked under
    [explores], and [chance] is evaluated while the hunt goes on, with
    positive divisors. *)
Definition ev_ok (e : event) : Prop :=
  match e with
  | Call s => inv s
  | Return s v => inv s /\ good s v
  | Next s t => inv s /\ explores s t = true
  | Chance s t =>
      CH.stop_default s = false
      /\ 0 < CH.chests s /\ 0 < effectiveChests s
  end.

(** The values cached for states of the invariant are good. *)
Definition cache_ok (d : CH.dict) : Prop :=
  forall s v, CH.get d s = Some v -> inv s -> good s v.

(** [st'] continues [st]: the cache is still good and the trace has grown
    by events that satisfy [ev_ok]. *)
Definition continues (st st' : store) : Prop :=
  cache_ok (solved st')
  /\ exists tr, trace st' = tr ++ trace st /\ Forall ev_ok tr.

(** [m] returns from every store with a good cache, with a result in [R]. *)
Definition runs {A} (m : M A) (R : A -> Prop) : Prop :=
  forall st, cache_ok (solved st) ->
    exists a st', m st = Ok (a, st') /\ R a /\ continues st st'.

(** The recursive calls a state may make return good values. *)
Definition children_run (self : CH.t -> M CHValue.t) (s : CH.t) : Prop :=
  forall t, explores s t = true ->
    runs (self (CH.next s t)) (good (CH.next s t)).

End RunDefinitions.

(** Any value: the property of values that says nothing, for the facts
    about a run that hold whatever the cache holds. *)
Definition any_value (s : CH.t) (v : CHValue.t) : Prop := True.

Definition any_sum (s : CH.t) (B : Q) (value : CHValue.t) : Prop := True.

(** A store is sound when the values it caches are: those of a fresh store
    are, and a run of the solver keeps them so. *)
Definition sound (st : store) : Prop := cache_ok Inv Good (solved st).

(** [finishes m R]: from every store, [m] returns a result in [R] or raises;
    it does not exhaust its fuel. *)
Definition finishes {A} (m : M A) (R : A -> Prop) : Prop :=
  forall st,
    (exists a st', m st = Ok (a, st') /\ R a) \/ (exists e, m st = Raise e).


(** The number of loot chests, out of [n], that a stock of [d] doubles
    doubles. *)
Definition doubled (n : nat) (d : Z) : Z := Z.min (Z.of_nat n) (Z.max 0 d).

(** The number of invocations of [next] recorded in a trace. *)
Fixpoint next_calls (tr : list event) : nat :=
  match tr with
  | [] => O
  | Next _ _ :: tr' => S (next_calls tr')
  | _ :: tr' => next_calls tr'
  end.

(** * The solver, seen three more ways; its callers *)

(** ** One activation of the solver, as a rule

    What a returning call of [calculate_value] has done, in terms of the
    calls it made: it stopped, or opened the saver first, or went through
    its four branches.  Properties of all returning runs are proved by
    induction on the depth of the calls through this rule. *)

(** The three early [return]s under [if ch.savers > 0: if ch.ad:]: with
    skip priority the saver is opened first. *)
Definition opens_saver (s : CH.t) : bool :=
  (CH.savers s >? 0)%Z && CH.ad s
  && ((CH.chase s && (CH.doubles s >? 0)%Z)
      || (negb (CH.chase s) && (CH.csaves s <=? 0)%Z)
      || (CH.doublers s <=? 0)%Z).

(** The guards of the four branches: the saver (drawn at random without skip
    priority), the doubler, the mimic, and the loot. *)
Definition draws (s : CH.t) (t : CHType) : bool :=
  match t with
  | SAVER => (CH.savers s >? 0)%Z && negb (CH.ad s)
  | DOUBLER => (CH.doublers s >? 0)%Z
  | MIMIC =>
      Qgtb (CH.mimics s) 0 && ((CH.saves s >? 0)%Z || (CH.csaves s >? 0)%Z)
  | LOOT => true
  end.

(** [ch.chance(CHType.LOOT) * gain * CHValue(loot=loot, armory=armory)] *)
Definition reward (s : CH.t) (c : Q) : CHValue.t :=
  CHValue.mul (CHValue.mk (loot_rate s) 0 (armory_rate s))
              (c * inject_Z (gain s)).

(** The call [self s] from the store [st] returns [v] and leaves [st']. *)
Definition returns (self : CH.t -> M CHValue.t)
    (s : CH.t) (st : store) (v : CHValue.t) (st' : store) : Prop :=
  self s st = Ok (v, st').

Section Rule.

(** What is known of the recursive calls. *)
Variable R : CH.t -> store -> CHValue.t -> store -> Prop.

(** [value += ch.chance(type) * calculate_value(ch.next(type))] *)
Definition weighted_by (s : CH.t) (t : CHType) (value : CHValue.t)
    (st : store) (value' : CHValue.t) (st' : store) : Prop :=
  exists c v,
    CH.chance s t = inr c
    /\ R (CH.next s t)
         (mkStore (solved st) (Next s t :: Chance s t :: trace st)) v st'
    /\ value' = CHValue.add value (CHValue.mul v c).

(** A branch, under its guard. *)
Definition branch_by (s : CH.t) (t : CHType) (value : CHValue.t)
    (st : store) (value' : CHValue.t) (st' : store) : Prop :=
  if draws s t then weighted_by s t value st value' st'
  else value' = value /\ st' = st.

(** One activation: the stop, the saver opened first, or the branches and
    the store into [CH.solved]. *)
Definition activation_by (s : CH.t) (st : store) (v : CHValue.t)
    (st' : store) : Prop :=
  (CH.stop (solved st) s = true
   /\ v = CH.value (solved st) s
   /\ st' = mkStore (solved st) (Return s v :: Call s :: trace st))
  \/ (CH.stop (solved st) s = false /\ opens_saver s = true
      /\ exists st1,
           R (CH.next s SAVER)
             (mkStore (solved st) (Next s SAVER :: Call s :: trace st)) v st1
           /\ st' = mkStore (solved st1) (Return s v :: trace st1))
  \/ (CH.stop (solved st) s = false /\ opens_saver s = false
      /\ exists v1 st1 v2 st2 v3 st3 c st4,
           branch_by s SAVER (CH.value_default s)
             (mkStore (solved st) (Call s :: trace st)) v1 st1
           /\ branch_by s DOUBLER v1 st1 v2 st2
           /\ branch_by s MIMIC v2 st2 v3 st3
           /\ CH.chance s LOOT = inr c
           /\ weighted_by s LOOT (CHValue.add v3 (reward s c))
                (mkStore (solved st3) (Chance s LOOT :: trace st3)) v st4
           /\ st' = mkStore (CH.set (solved st4) s v)
                            (Return s v :: trace st4)).

End Rule.

(** ** What a run adds to the cache *)

(** The cache [d'] keeps every binding of [d], and binds besides only states
    of at most [c] chests whose hunt goes on. *)
Definition grows (c : Q) (d d' : CH.dict) : Prop :=
  (forall k w, CH.get d k = Some w -> CH.get d' k = Some w)
  /\ (forall k w, CH.get d k = None -> CH.get d' k = Some w ->
        CH.chests k <= c /\ CH.stop_default k = false).

(** Values equal as numbers. *)
Definition same_value (v w : CHValue.t) : Prop :=
  CHValue.loot v == CHValue.loot w
  /\ CHValue.perfect v == CHValue.perfect w
  /\ CHValue.armory v == CHValue.armory w.

(** ** The recursion without the cache

    [calculate_value] with [stop] and [value] reduced to their defaults (the
    lines [# return default] of the source): no lookup and no store. *)

Definition result_bind {A B} (r : result A) (f : A -> result B) : result B :=
  match r with
  | Ok a => f a
  | Raise e => Raise e
  | OutOfFuel => OutOfFuel
  end.

Definition result_lift {A} (r : exn + A) : result A :=
  match r with inl e => Raise e | inr a => Ok a end.

Section Uncached.

Variable self : CH.t -> result CHValue.t.

(** [value += ch.chance(type) * calculate_value(ch.next(type))] *)
Definition uncached_weighted (ch : CH.t) (type : CHType) (value : CHValue.t)
  : result CHValue.t :=
  result_bind (result_lift (CH.chance ch type)) (fun c =>
  result_bind (self (CH.next ch type)) (fun v =>
  Ok (CHValue.add value (CHValue.mul v c)))).

(** From [## Double] to the end of the function, without the store. *)
Definition uncached_double_mimic_loot (ch : CH.t) (value : CHValue.t)
  : result CHValue.t :=
  result_bind
    (if (CH.doublers ch >? 0)%Z then uncached_weighted ch DOUBLER value
     else Ok value) (fun value =>
  result_bind
    (if Qgtb (CH.mimics ch) 0
        && ((CH.saves ch >? 0)%Z || (CH.csaves ch >? 0)%Z)
     then uncached_weighted ch MIMIC value
     else Ok value) (fun value =>
  result_bind (result_lift (CH.chance ch LOOT)) (fun c =>
  let value :=
    CHValue.add value
      (CHValue.mul (CHValue.mk (loot_rate ch) 0 (armory_rate ch))
                   (c * inject_Z (gain ch))) in
  uncached_weighted ch LOOT value))).

Definition uncached_body (ch : CH.t) : result CHValue.t :=
  let value := CH.value_default ch in
  if CH.stop_default ch then Ok value
  else
    if (CH.savers ch >? 0)%Z then
      if CH.ad ch then
        if CH.chase ch && (CH.doubles ch >? 0)%Z then self (CH.next ch SAVER)
        else if negb (CH.chase ch) && (CH.csaves ch <=? 0)%Z
        then self (CH.next ch SAVER)
        else if (CH.doublers ch <=? 0)%Z then self (CH.next ch SAVER)
        else uncached_double_mimic_loot ch value
      else
        result_bind (uncached_weighted ch SAVER value) (fun value =>
        uncached_double_mimic_loot ch value)
    else uncached_double_mimic_loot ch value.

(** A branch, under its guard. *)
Definition branch (s : CH.t) (t : CHType) (value : CHValue.t)
  : result CHValue.t :=
  if draws s t then uncached_weighted s t value else Ok value.

End Uncached.

Fixpoint uncached (fuel : nat) (s : CH.t) : result CHValue.t :=
  match fuel with
  | O => OutOfFuel
  | S fuel' => uncached_body (uncached fuel') s
  end.

(** The value the recursion without the cache gives for [s], up to equality
    of numbers. *)
Definition value_of (s : CH.t) (v : CHValue.t) : Prop :=
  exists n w, uncached n s = Ok w /\ same_value v w.

(** A cache that holds nothing but such values. *)
Definition faithful (d : CH.dict) : Prop :=
  forall k w, CH.get d k = Some w -> value_of k w.

(** Results of the recursion without the cache that agree: the same
    outcome, and values equal as numbers. *)
Definition same_result (r r' : result CHValue.t) : Prop :=
  match r, r' with
  | Ok v, Ok v' => same_value v v'
  | Raise e, Raise e' => e = e'
  | OutOfFuel, OutOfFuel => True
  | _, _ => False
  end.

(** ** States the solver visits, values it returns *)

(** What the constructor establishes: two doublers mean x2 x2, without the
    wish for a perfect hunt. *)
Definition normalised (s : CH.t) : Prop :=
  (1 < CH.doublers s)%Z -> CH.dd s = true /\ CH.perfect s = false.

(** What the solver does in a state only under the guard of the code: a
    transition is the saver opened first or a branch drawn, and a chance is
    evaluated for a branch drawn, never once the saver is opened first. *)
Definition guarded (e : event) : Prop :=
  match e with
  | Next s t =>
      CH.stop_default s = false
      /\ (if opens_saver s then t = SAVER else draws s t = true)
  | Chance s t =>
      CH.stop_default s = false /\ opens_saver s = false /\ draws s t = true
  | _ => True
  end.

(** The special chests are among the chests, a second doubler counting as
    loot. *)
Definition fits (s : CH.t) : Prop :=
  CH.mimics s + inject_Z (CH.savers s) + activeDoublers s <= CH.chests s.

(** Values with no negative loot or armory. *)
Definition nonneg (v : CHValue.t) : Prop :=
  0 <= CHValue.loot v /\ 0 <= CHValue.armory v.

(** A cache whose values have no negative loot or armory. *)
Definition nonneg_cache (d : CH.dict) : Prop :=
  forall k w, CH.get d k = Some w -> nonneg w.



(** The chance of one line of play: the chests [ts] opened in this order
    from [s], each as the solver allows it (the saver where it is opened
    first, a branch under its guard otherwise), up to a state where the hunt
    is over, whose default value says whether the hunt was perfect.  [None]
    when the solver does not follow [ts]. *)
Fixpoint path_chance (ts : list CHType) (s : CH.t) : option Q :=
  match ts with
  | [] =>
      if CH.stop_default s then Some (CHValue.perfect (CH.value_default s))
      else None
  | t :: ts' =>
      if CH.stop_default s then None
      else if opens_saver s then
        match t with
        | SAVER => path_chance ts' (CH.next s SAVER)
        | _ => None
        end
      else if draws s t then
        match CH.chance s t, path_chance ts' (CH.next s t) with
        | inr c, Some p => Some (c * p)
        | _, _ => None
        end
      else None
  end.

(** ** The table of [make_csv]: its configurations *)

(** A configuration: [(p, ad, d, cs, s, a)]. *)
Definition config : Type := (Z * Z * Z * Z * Z * Z)%type.

(** [product(config_perfect, config_ad, config_doubler, config_csaver,
    config_saver, config_armory)], the last component varying fastest. *)
Definition configs : list config :=
  flat_map (fun p =>
  flat_map (fun ad =>
  flat_map (fun d =>
  flat_map (fun cs =>
  flat_map (fun s =>
  map (fun a => (p, ad, d, cs, s, a)) [0; 1]%Z)
    [0; 1]%Z) [0; 1; 2]%Z) [0; 1; 2]%Z) [0; 1]%Z) [0; 1]%Z.

(** The configurations [make_csv] skips: pointless or impossible. *)
Definition skipped (c : config) : bool :=
  let '(p, ad, d, cs, s, a) := c in
  ((ad >? 0)%Z && (s <? 1)%Z)
  || ((p >? 0)%Z && ((ad <? 1)%Z || negb (d =? 1)%Z)).

(** [CH(savers=s, ad=ad > 0, csaves=cs, doublers=d, perfect=p > 0,
    armory=a > 0)], the other arguments at their defaults. *)
Definition config_state (c : config) : CH.t :=
  let '(p, ad, d, cs, s, a) := c in
  CH.init 30 4 s 0 (ad >? 0)%Z cs d 0 false (p >? 0)%Z (a >? 0)%Z.

(** The states [make_csv] solves, in the order of its rows. *)
Definition csv_states : list CH.t :=
  map config_state (filter (fun c => negb (skipped c)) configs).

(** ** The values as objects

    A [CHValue] is a mutable object, and [CH.solved] holds references: the
    callers of [calculate_value] assign to [value.loot].  The memory keeps
    the objects in the order of their creation, an object being named by its
    position, and the dictionary binds a state to the position of its
    value. *)

Record memory : Type := mkMemory {
  objects : list CHValue.t;
  refs : list (CH.t * nat)
}.

Definition empty_memory : memory := mkMemory [] [].

(** The object at position [a]. *)
Definition deref (m : memory) (a : nat) : CHValue.t :=
  nth a (objects m) (CHValue.mk 0 0 0).

(** [CH.solved.get(k)], by [__eq__]. *)
Fixpoint find (d : list (CH.t * nat)) (k : CH.t) : option nat :=
  match d with
  | [] => None
  | (k', a) :: d' => if CH.eqb k' k then Some a else find d' k
  end.

(** The dictionary with the objects in place of their positions. *)
Definition view (m : memory) : CH.dict :=
  map (fun ka => (fst ka, deref m (snd ka))) (refs m).

Definition Obj (A : Type) : Type := memory -> result (A * memory).

Definition oret {A} (a : A) : Obj A := fun m => Ok (a, m).

Definition obind {A B} (x : Obj A) (f : A -> Obj B) : Obj B :=
  fun m =>
    match x m with
    | Ok (a, m') => f a m'
    | Raise e => Raise e
    | OutOfFuel => OutOfFuel
    end.

Notation "x <~ m ;; k" := (obind m (fun x => k))
  (at level 61, m at next level, right associativity).

Definition olift {A} (r : exn + A) : Obj A :=
  fun m => match r with inl e => Raise e | inr a => Ok (a, m) end.

(** [CHValue(...)]: a new object. *)
Definition new (v : CHValue.t) : Obj nat :=
  fun m => Ok (length (objects m), mkMemory (objects m ++ [v]) (refs m)).

Definition read (a : nat) : Obj CHValue.t := fun m => Ok (deref m a, m).

(** [a + b] and [c * a]: [__add__] and [__mul__] return a new object. *)
Definition add_obj (a b : nat) : Obj nat :=
  va <~ read a ;; vb <~ read b ;; new (CHValue.add va vb).

Definition mul_obj (a : nat) (c : Q) : Obj nat :=
  va <~ read a ;; new (CHValue.mul va c).

(** [CH.solved[ch] = value] *)
Definition bind_key (ch : CH.t) (a : nat) : Obj unit :=
  fun m => Ok (tt, mkMemory (objects m) ((ch, a) :: refs m)).

Definition get_refs : Obj (list (CH.t * nat)) := fun m => Ok (refs m, m).

(** [ch.value()]: the default is a new object, returned unless the
    dictionary binds [ch]. *)
Definition value_obj (ch : CH.t) : Obj nat :=
  default <~ new (CH.value_default ch) ;;
  d <~ get_refs ;;
  oret (match find d ch with Some a => a | None => default end).

(** [ch.stop()] *)
Definition stop_obj (ch : CH.t) : Obj bool :=
  d <~ get_refs ;;
  oret ((match find d ch with Some _ => true | None => false end)
        || CH.stop_default ch).

Section ObjBody.

Variable self : CH.t -> Obj nat.

(** [value += ch.chance(type) * calculate_value(ch.next(type))]: the product
    and the sum are new objects, and [value] names the sum. *)
Definition weighted_obj (ch : CH.t) (type : CHType) (value : nat) : Obj nat :=
  c <~ olift (CH.chance ch type) ;;
  r <~ self (CH.next ch type) ;;
  p <~ mul_obj r c ;;
  add_obj value p.

(** From [## Double] to the end of the function. *)
Definition double_mimic_loot_obj (ch : CH.t) (value : nat) : Obj nat :=
  (* Double *)
  value <~ (if (CH.doublers ch >? 0)%Z then weighted_obj ch DOUBLER value
            else oret value) ;;
  (* Mimic *)
  value <~ (if Qgtb (CH.mimics ch) 0
               && ((CH.saves ch >? 0)%Z || (CH.csaves ch >? 0)%Z)
            then weighted_obj ch MIMIC value
            else oret value) ;;
  (* Loot *)
  c <~ olift (CH.chance ch LOOT) ;;
  r <~ new (CHValue.mk (loot_rate ch) 0 (armory_rate ch)) ;;
  p <~ mul_obj r (c * inject_Z (gain ch)) ;;
  value <~ add_obj value p ;;
  value <~ weighted_obj ch LOOT value ;;
  (* Add the current value as a solved state *)
  _ <~ bind_key ch value ;;
  oret value.

Definition body_obj (ch : CH.t) : Obj nat :=
  (* Recursive stop *)
  value <~ value_obj ch ;;
  stop <~ stop_obj ch ;;
  if stop then oret value
  else
    (* Saver *)
    if (CH.savers ch >? 0)%Z then
      if CH.ad ch then
        if CH.chase ch && (CH.doubles ch >? 0)%Z then self (CH.next ch SAVER)
        else if negb (CH.chase ch) && (CH.csaves ch <=? 0)%Z
        then self (CH.next ch SAVER)
        else if (CH.doublers ch <=? 0)%Z then self (CH.next ch SAVER)
        else double_mimic_loot_obj ch value
      else
        value <~ weighted_obj ch SAVER value ;;
        double_mimic_loot_obj ch value
    else double_mimic_loot_obj ch value.

(** A branch, under its guard. *)
Definition branch_obj (ch : CH.t) (type : CHType) (value : nat) : Obj nat :=
  if draws ch type then weighted_obj ch type value else oret value.

End ObjBody.

(** [calculate_value], returning the object. *)
Fixpoint calculate_value_obj (fuel : nat) (ch : CH.t) : Obj nat :=
  match fuel with
  | O => fun _ => OutOfFuel
  | S fuel' => body_obj (calculate_value_obj fuel') ch
  end.

(** [value.loot += 3 * value.perfect * value.loot]: an assignment to the
    attribute of the object. *)
Definition adjusted (v : CHValue.t) : CHValue.t :=
  CHValue.mk (CHValue.loot v + 3 * CHValue.perfect v * CHValue.loot v)
             (CHValue.perfect v) (CHValue.armory v).

Fixpoint update (l : list CHValue.t) (a : nat) (v : CHValue.t)
  : list CHValue.t :=
  match l, a with
  | [], _ => []
  | _ :: l', O => v :: l'
  | x :: l', S a' => x :: update l' a' v
  end.

Definition adjust (a : nat) : Obj unit :=
  fun m => Ok (tt, mkMemory (update (objects m) a (adjusted (deref m a)))
                            (refs m)).

(** One row of the table: the state is solved, the loot of the value
    adjusted, and the value written ([value.loot], [value.perfect] and
    [value.armory], the last three columns). *)
Definition row (fuel : nat) (ch : CH.t) : Obj CHValue.t :=
  a <~ calculate_value_obj fuel ch ;;
  _ <~ adjust a ;;
  read a.

Fixpoint rows (fuel : nat) (l : list CH.t) : Obj (list CHValue.t) :=
  match l with
  | [] => oret []
  | ch :: l' =>
      r <~ row fuel ch ;;
      rs <~ rows fuel l' ;;
      oret (r :: rs)
  end.

(** [make_csv]: the rows of the table. *)
Definition make_csv (fuel : nat) : Obj (list CHValue.t) := rows fuel csv_states.

(** The states of the script: [ch] and [ch_ad], its copy with [ad] set. *)
Definition main_ch : CH.t := CH.init 30 4 1 0 false 2 1 0 false true true.

Definition set_ad (s : CH.t) (b : bool) : CH.t :=
  CH.mk (CH.chests s) (CH.mimics s) (CH.savers s) (CH.saves s) b
        (CH.csaves s) (CH.doublers s) (CH.doubles s) (CH.dd s)
        (CH.perfect s) (CH.armory s) (CH.chase s).

Definition main_ch_ad : CH.t := set_ad (CH.copy main_ch) true.

(** The script: the two values it prints, and the rows of the table. *)
Definition main (fuel : nat) : Obj (CHValue.t * CHValue.t * list CHValue.t) :=
  a <~ calculate_value_obj fuel main_ch ;;
  a_ad <~ calculate_value_obj fuel main_ch_ad ;;
  _ <~ adjust a ;;
  _ <~ adjust a_ad ;;
  value <~ read a ;;
  value_ad <~ read a_ad ;;
  table <~ make_csv fuel ;;
  oret (value, value_ad, table).

(** The state whose value [calculate_value(s)] returns as an object of the
    dictionary: [s] itself, or the state reached by opening the savers
    first. *)
Inductive owner : CH.t -> CH.t -> Prop :=
| owner_here (s : CH.t) :
    CH.stop_default s = false -> opens_saver s = false -> owner s s
| owner_saver (s k : CH.t) :
    CH.stop_default s = false -> opens_saver s = true ->
    owner (CH.next s SAVER) k -> owner s k.

(** Memories the solver builds: the positions bound are those of objects,
    no object is bound to two different states, and no state is bound in
    which the saver is opened first. *)
Definition well_formed (m : memory) : Prop :=
  Forall (fun ka => (snd ka < length (objects m))%nat) (refs m)
  /\ (forall k k' a, In (k, a) (refs m) -> In (k', a) (refs m) ->
        CH.eqb k k' = true)
  /\ Forall (fun ka => opens_saver (fst ka) = false) (refs m).

(** [m'] has the objects of [m], unchanged, and its bindings. *)
Definition extends (m m' : memory) : Prop :=
  (exists l, objects m' = objects m ++ l)
  /\ (forall k a, find (refs m) k = Some a -> find (refs m') k = Some a).

(** The object [a] in the memory [m'] stands for the value [v], and [m']
    for the dictionary [d'], after a run from [m]. *)
Definition follows (m : memory) (v : CHValue.t) (d' : CH.dict) (a : nat)
    (m' : memory) : Prop :=
  deref m' a = v /\ (a < length (objects m'))%nat /\ view m' = d'
  /\ well_formed m' /\ extends m m'.

(** The same for [calculate_value(s)]: the object returned is the one bound
    to the owner of [s]. *)
Definition simulates (s : CH.t) (m : memory) (v : CHValue.t) (d' : CH.dict)
    (a : nat) (m' : memory) : Prop :=
  follows m v d' a m'
  /\ (forall k, owner s k -> find (refs m') k = Some a).

(** A memory with one more object. *)
Definition with_new (m : memory) (v : CHValue.t) : memory :=
  mkMemory (objects m ++ [v]) (refs m).

(** The owner of a state, computed, for the states that open at most one
    saver first. *)
Definition owner_of (s : CH.t) : option CH.t :=
  if CH.stop_default s then None
  else if opens_saver s then
    let c := CH.next s SAVER in
    if CH.stop_default c || opens_saver c then None else Some c
  else Some s.

(** A state of [make_csv]: thirty chests, four mimics, and no negative
    count. *)
Definition table_state (s : CH.t) : bool :=
  Qeq_bool (CH.chests s) 30 && Qeq_bool (CH.mimics s) 4
  && (0 <=? CH.savers s)%Z && (0 <=? CH.saves s)%Z && (0 <=? CH.csaves s)%Z
  && (0 <=? CH.doublers s)%Z && (0 <=? CH.doubles s)%Z
  && match owner_of s with Some _ => true | None => false end.

(** A state whose owner is not [K]. *)
Definition other_owner (K s : CH.t) : bool :=
  match owner_of s with Some k => negb (CH.eqb k K) | None => false end.

(** The memory after [value.loot += ...] on the object [a]. *)
Definition with_adjusted (m : memory) (a : nat) : memory :=
  mkMemory (update (objects m) a (adjusted (deref m a))) (refs m).

(** ** [format]: a decimal rounded to significant digits

    [format(x, sig_figs)] is [x.quantize(Decimal("1.00...0E<a>"))] with
    [sig_figs - 1] zeros and [a = x.adjusted()], the exponent of the leading
    digit of [x]: [x] rounded (to nearest, ties to even, the rounding of the
    default context) to a multiple of [10^(a - (sig_figs - 1))].  The value
    of the result is modelled, not its representation (the exponent of a
    zero, the trailing zeros). *)

(** The number of decimal digits of a positive integer, at most [fuel]. *)
Fixpoint digits_fuel (fuel : nat) (p : Z) : Z :=
  match fuel with
  | O => 1
  | S fuel' =>
      if (p <? 10)%Z then 1 else (1 + digits_fuel fuel' (p / 10))%Z
  end.

Definition digits (p : Z) : Z :=
  digits_fuel (Z.to_nat (Z.succ (Z.log2 p))) p.

(** [x.adjusted()] for [x <> 0]: the [a] with [10^a <= |x| < 10^(a+1)]. *)
Definition adjusted_exponent (x : Q) : Z :=
  let a := Qabs x in
  let e0 := (digits (Qnum a) - digits (Zpos (Qden a)))%Z in
  if Qle_bool (10 ^ e0) a then e0 else (e0 - 1)%Z.

(** The precision of the default context, which the script never changes. *)
Definition prec : Z := 28.

(** The exponents of the default context: those of the leading digits of
    the normal numbers go from [Emin] to [Emax], and [Etiny] is the exponent
    of the last digit of the subnormal ones. *)
Definition Emax : Z := 999999.

Definition Emin : Z := -999999.

Definition Etiny : Z := Emin - prec + 1.

(** [format]; ['0' * (sig_figs - 1)] is empty when [sig_figs < 1].
    [quantize] raises [InvalidOperation] ([None]): when the exponent of its
    argument, here [a - (sig_figs - 1)], is not between [Etiny] and [Emax];
    when the leading digit of [x], or after the rounding that of the result,
    is above [Emax]; and when the result would have more digits than the
    precision, which it tests before the rounding, on the exponents, and
    after it, on the coefficient.  The exponent of a zero is not part of its
    value: the zero is taken to be [Decimal(0)], with [adjusted() = 0]. *)
Definition format (x : Q) (sig_figs : Z) : option Q :=
  let a := if Qeq_bool x 0 then 0%Z else adjusted_exponent x in
  let e := (a - Z.max 0 (sig_figs - 1))%Z in
  if (e <? Etiny)%Z || (Emax <? e)%Z then None
  else if Qeq_bool x 0 then Some 0
  else if (a >? Emax)%Z then None
  else if (a - e + 1 >? prec)%Z then None
  else
    let n := round_half_even (x / 10 ^ e) in
    if (e + digits (Z.abs n) - 1 >? Emax)%Z then None
    else if (digits (Z.abs n) >? prec)%Z then None
    else Some (inject_Z n * 10 ^ e).

(** ** The decimal context

    The module never touches the context of [decimal], so every [Decimal]
    operation works in the default one: a result is the exact result rounded
    to [prec = 28] significant digits, to nearest and ties to even
    ([ROUND_HALF_EVEN]), with exponents from [Emin] to [Emax].  The unit of
    the last of the 28 digits of [x] is [10^(a - 27)], [a] the exponent of
    the leading digit ([x.adjusted()]); below [10^Emin] the unit stays at
    [10^Etiny], so a subnormal result has fewer digits, and a result below
    half that unit is zero (signals [Subnormal], [Underflow], [Inexact],
    [Rounded], which the default context does not trap).  The operands are
    taken as they are, with all their digits: a [Decimal] made by the
    constructor is exact, whatever its length.  The signal [Overflow], which
    is trapped, needs a result of [10^(Emax + 1)] or more; the hunts this
    development is about stay far below it, and the model leaves it out. *)

Module Dec.

(** The exponent of the last digit kept, of a result [x <> 0]. *)
Definition quantum (x : Q) : Z :=
  Z.max (adjusted_exponent x - (prec - 1)) Etiny.

(** The rounding of a result to the context. *)
Definition round (x : Q) : Q :=
  if Qeq_bool x 0 then 0
  else
    let e := quantum x in
    inject_Z (round_half_even (x / 10 ^ e)) * 10 ^ e.

(** [x + y], [x - y], [x * y] and [x / y] on decimals, an [int] operand
    converted exactly. *)
Definition add (x y : Q) : Q := round (x + y).

Definition sub (x y : Q) : Q := round (x - y).

Definition mul (x y : Q) : Q := round (x * y).

Definition div (x y : Q) : exn + Q :=
  if Qeq_bool y 0 then
    inl (if Qeq_bool x 0 then InvalidOperation else DivisionByZero)
  else inr (round (x / y)).

(** Half a unit of the 28th digit after the point: the most by which the
    rounding moves a number below one. *)
Definition half_unit : Q := 1 # 20000000000000000000000000000.

(** The numbers of the context: a coefficient of 28 digits at most, an
    exponent not below [Etiny]. *)
Definition representable (r : Q) : Prop :=
  exists m e : Z,
    r == inject_Z m * 10 ^ e /\ (Z.abs m <= 10 ^ prec)%Z /\ (Etiny <= e)%Z.

End Dec.

(** ** The module in the decimal context

    The operations of [CHValue] and [CH] and the solver once more, every
    [+], [-], [*] and [/] on a [Decimal] now rounded as the context does, in
    the order in which the source applies them.  Comparisons are exact, and
    so is the arithmetic on the [int] attributes.  What does no arithmetic
    on decimals is shared with the embedding above: the constructor,
    [__eq__], [copy], the dictionary, [value], the store and the events. *)

Module Ctx.

(** [CHValue.__add__] *)
Definition add (a b : CHValue.t) : CHValue.t :=
  CHValue.mk (Dec.add (CHValue.loot a) (CHValue.loot b))
             (Dec.add (CHValue.perfect a) (CHValue.perfect b))
             (Dec.add (CHValue.armory a) (CHValue.armory b)).

(** [CHValue.__mul__] and [__rmul__] *)
Definition mul (a : CHValue.t) (other : Q) : CHValue.t :=
  CHValue.mk (Dec.mul (CHValue.loot a) other)
             (Dec.mul (CHValue.perfect a) other)
             (Dec.mul (CHValue.armory a) other).

(** [nonloot >= self.chests or self.chests <= 0], where
    [nonloot = self.mimics + self.savers + doublers]: two additions. *)
Definition stop_default (self : CH.t) : bool :=
  let nonloot :=
    Dec.add (Dec.add (CH.mimics self) (inject_Z (CH.savers self)))
            (inject_Z (CH.doublers01 self)) in
  Qle_bool (CH.chests self) nonloot || Qle_bool (CH.chests self) 0.

(** [stop] *)
Definition stop (solved : CH.dict) (self : CH.t) : bool :=
  CH.mem solved self || stop_default self.

(** [next]: [ch.chests -= 1] and [ch.mimics -= 1] are subtractions of
    decimals. *)
Definition next (self : CH.t) (type : CHType) : CH.t :=
  let ch := CH.copy self in
  let chests' := Dec.sub (CH.chests ch) 1 in
  let csaves' :=
    if (CH.csaves self >? 0)%Z then (CH.csaves ch - 1)%Z else CH.csaves ch in
  match type with
  | LOOT =>
      (* double loot *)
      let doubles' :=
        if (CH.doubles self >? 0)%Z then (CH.doubles ch - 1)%Z
        else CH.doubles ch in
      CH.mk chests' (CH.mimics ch) (CH.savers ch) (CH.saves ch) (CH.ad ch)
            csaves' (CH.doublers ch) doubles' (CH.dd ch) (CH.perfect ch)
            (CH.armory ch) (CH.chase ch)
  | MIMIC =>
      (* kill mimic *)
      let saves' :=
        if (CH.csaves self <=? 0)%Z then (CH.saves ch - 1)%Z
        else CH.saves ch in
      CH.mk chests' (Dec.sub (CH.mimics ch) 1) (CH.savers ch) saves'
            (CH.ad ch) csaves' (CH.doublers ch) (CH.doubles ch) (CH.dd ch)
            (CH.perfect ch) (CH.armory ch) (CH.chase ch)
  | SAVER =>
      (* remove saver chest and gain saves; double saver when not x2 x2 *)
      let doubled := negb (CH.dd self) && (CH.doubles self >? 0)%Z in
      let saves' :=
        if doubled then (CH.saves ch + 1 + 1)%Z else (CH.saves ch + 1)%Z in
      let doubles' :=
        if doubled then (CH.doubles ch - 1)%Z else CH.doubles ch in
      CH.mk chests' (CH.mimics ch) (CH.savers ch - 1) saves' (CH.ad ch)
            csaves' (CH.doublers ch) doubles' (CH.dd ch) (CH.perfect ch)
            (CH.armory ch) (CH.chase ch)
  | DOUBLER =>
      (* remove double chest and gain doubles; first chest x2 swaps the
         method, ignored when x2 x2 *)
      let chase' :=
        if (CH.csaves self >? 1)%Z && CH.ad self && negb (CH.dd self)
        then negb (CH.perfect self) else CH.chase ch in
      CH.mk chests' (CH.mimics ch) (CH.savers ch) (CH.saves ch) (CH.ad ch)
            csaves' (CH.doublers ch - 1) (CH.doubles ch + 1) (CH.dd ch)
            (CH.perfect ch) (CH.armory ch) chase'
  end.

(** [self.chests - (self.savers if self.ad else 0)] *)
Definition live_chests (self : CH.t) : Q :=
  Dec.sub (CH.chests self)
          (inject_Z (if CH.ad self then CH.savers self else 0%Z)).

Definition _chance_doubler (self : CH.t) : exn + Q :=
  let chests := live_chests self in
  let doublers := CH.doublers01 self in
  Dec.div (inject_Z doublers) chests.

Definition _chance_mimic (self : CH.t) : exn + Q :=
  let chests := live_chests self in
  Dec.div (CH.mimics self) chests.

Definition _chance_loot (self : CH.t) : exn + Q :=
  let savers := if CH.ad self then 0%Z else CH.savers self in
  let chests := live_chests self in
  let doublers := CH.doublers01 self in
  Dec.div
    (Dec.sub (Dec.sub (Dec.sub chests (CH.mimics self)) (inject_Z savers))
             (inject_Z doublers))
    chests.

(** [chance] *)
Definition chance (self : CH.t) (type : CHType) : exn + Q :=
  match type with
  | LOOT => _chance_loot self
  | MIMIC => _chance_mimic self
  | SAVER => Dec.div (inject_Z (CH.savers self)) (CH.chests self)
  | DOUBLER => _chance_doubler self
  end.

(** [ch.next(type)] and [ch.chance(type)], recorded in the trace. *)
Definition next_of (ch : CH.t) (type : CHType) : M CH.t :=
  log (Next ch type) ;; ret (next ch type).

Definition chance_of (ch : CH.t) (type : CHType) : M Q :=
  log (Chance ch type) ;; lift (chance ch type).

Section Body.

(** The recursive call, at one unit of fuel less. *)
Variable self : CH.t -> M CHValue.t.

(** [calculate_value(ch.next(type))] *)
Definition recurse (ch : CH.t) (type : CHType) : M CHValue.t :=
  ch' <- next_of ch type ;; self ch'.

(** [value += ch.chance(type) * calculate_value(ch.next(type))]: the
    chance first, then the call; [Decimal * CHValue] is [__rmul__], and
    [+=] is [__add__]. *)
Definition weighted (ch : CH.t) (type : CHType) (value : CHValue.t)
  : M CHValue.t :=
  c <- chance_of ch type ;;
  v <- recurse ch type ;;
  ret (add value (mul v c)).

(** [ch.chance(CHType.LOOT) * gain * CHValue(loot=loot, armory=armory)]:
    the product of the chance [c] and the [int] first, then [__rmul__]. *)
Definition reward (ch : CH.t) (c : Q) : CHValue.t :=
  mul (CHValue.mk (loot_rate ch) 0 (armory_rate ch))
      (Dec.mul c (inject_Z (gain ch))).

(** From [## Double] to the end of the function. *)
Definition double_mimic_loot (ch : CH.t) (value : CHValue.t)
  : M CHValue.t :=
  (* Double *)
  value <- (if (CH.doublers ch >? 0)%Z then weighted ch DOUBLER value
            else ret value) ;;
  (* Mimic *)
  value <- (if Qgtb (CH.mimics ch) 0
               && ((CH.saves ch >? 0)%Z || (CH.csaves ch >? 0)%Z)
            then weighted ch MIMIC value
            else ret value) ;;
  (* Loot *)
  c <- chance_of ch LOOT ;;
  let value := add value (reward ch c) in
  value <- weighted ch LOOT value ;;
  (* Add the current value as a solved state *)
  set_solved ch value ;;
  ret value.

Definition body (ch : CH.t) : M CHValue.t :=
  (* Recursive stop *)
  solved <- get_solved ;;
  let value := CH.value solved ch in
  if stop solved ch then ret value
  else
    (* Saver: AD_SAVER provides room for strategy *)
    if (CH.savers ch >? 0)%Z then
      if CH.ad ch then
        (* Perfect - chase double saver *)
        if CH.chase ch && (CH.doubles ch >? 0)%Z then recurse ch SAVER
        (* Gains - open saver after crystals *)
        else if negb (CH.chase ch) && (CH.csaves ch <=? 0)%Z
        then recurse ch SAVER
        (* Else - open saver if no doubler to find *)
        else if (CH.doublers ch <=? 0)%Z then recurse ch SAVER
        else double_mimic_loot ch value
      else
        value <- weighted ch SAVER value ;;
        double_mimic_loot ch value
    else double_mimic_loot ch value.

(** One activation of [calculate_value], with its entry and its return
    recorded. *)
Definition activation (ch : CH.t) : M CHValue.t :=
  log (Call ch) ;;
  v <- body ch ;;
  log (Return ch v) ;;
  ret v.

End Body.

Fixpoint calculate_value (fuel : nat) (ch : CH.t) : M CHValue.t :=
  match fuel with
  | O => out_of_fuel
  | S fuel' => activation (calculate_value fuel') ch
  end.

End Ctx.

(** The hunts on whose counts the context computes exactly: whole numbers,
    none negative, the special chests among the chests, which have 28 digits
    at most. *)
Definition countable (s : CH.t) : Prop :=
  counts s /\ fits s /\ CH.chests s <= 10 ^ 27.

(** Values whose perfect-hunt field is a probability. *)
Definition unit_perfect (s : CH.t) (v : CHValue.t) : Prop :=
  0 <= CHValue.perfect v /\ CHValue.perfect v <= 1.

(** The running sums of the perfect-hunt field: a probability, within the
    bound of the chances added so far. *)
Definition unit_sum (s : CH.t) (B : Q) (value : CHValue.t) : Prop :=
  0 <= CHValue.perfect value /\ CHValue.perfect value <= 1
  /\ CHValue.perfect value <= B.

(** A store is sound in the context when the values it caches for countable
    hunts have a probability as their perfect-hunt field: a fresh store is,
    and a run of the solver keeps it so. *)
Definition sound_in_context (st : store) : Prop :=
  cache_ok countable unit_perfect (solved st).

(** * Properties *)

(** ** Numbers *)

Lemma Qgtb_true (x y : Q) : Qgtb x y = true <-> y < x.
Proof.
  unfold Qgtb. rewrite negb_true_iff, <- not_true_iff_false, Qle_bool_iff.
  split; [apply Qnot_le_lt | apply Qlt_not_le].
Qed.


Lemma inject_Z_nonneg (z : Z) : (0 <= z)%Z -> 0 <= inject_Z z.
Proof. intros H. rewrite Zle_Qle in H. exact H. Qed.

Lemma inject_Z_ge_1 (z : Z) : (0 < z)%Z -> 1 <= inject_Z z.
Proof.
  intros H. assert (H1 : (1 <= z)%Z) by lia. rewrite Zle_Qle in H1. exact H1.
Qed.

(** ** Basic facts about the operations of [CH] *)

Lemma decimal_div_defined (x y : Q) :
  ~ y == 0 -> decimal_div x y = inr (x / y).
Proof.
  intros Hy. unfold decimal_div.
  destruct (Qeq_bool y 0) eqn:E; [|reflexivity].
  apply Qeq_bool_eq in E. contradiction.
Qed.

Lemma live_chests_effective (s : CH.t) : CH.live_chests s == effectiveChests s.
Proof.
  unfold CH.live_chests, effectiveChests. destruct (CH.ad s); reflexivity.
Qed.

Lemma doublers01_active (s : CH.t) :
  inject_Z (CH.doublers01 s) == activeDoublers s.
Proof.
  unfold CH.doublers01, activeDoublers.
  destruct (CH.doublers s >? 0)%Z; reflexivity.
Qed.

(** Every transition takes exactly one chest. *)
Lemma next_chests (s : CH.t) (t : CHType) :
  CH.chests (CH.next s t) = CH.chests s - 1.
Proof. destruct t; reflexivity. Qed.

Lemma next_mimics (s : CH.t) (t : CHType) :
  CH.mimics (CH.next s t) =
  match t with MIMIC => CH.mimics s - 1 | _ => CH.mimics s end.
Proof. destruct t; reflexivity. Qed.

Lemma next_savers (s : CH.t) (t : CHType) :
  CH.savers (CH.next s t) =
  match t with SAVER => (CH.savers s - 1)%Z | _ => CH.savers s end.
Proof. destruct t; reflexivity. Qed.

Lemma next_doublers (s : CH.t) (t : CHType) :
  CH.doublers (CH.next s t) =
  match t with DOUBLER => (CH.doublers s - 1)%Z | _ => CH.doublers s end.
Proof. destruct t; reflexivity. Qed.

(** The hunt is over once no chest is left. *)
Lemma stop_default_no_chests (s : CH.t) :
  CH.chests s <= 0 -> CH.stop_default s = true.
Proof.
  intros H. unfold CH.stop_default.
  apply Qle_bool_iff in H. rewrite H. apply orb_true_r.
Qed.

(** What it means for the hunt to go on. *)
Lemma stop_default_false (s : CH.t) :
  CH.stop_default s = false <->
  CH.mimics s + inject_Z (CH.savers s) + activeDoublers s < CH.chests s
  /\ 0 < CH.chests s.
Proof.
  unfold CH.stop_default. rewrite orb_false_iff.
  rewrite <- !not_true_iff_false, !Qle_bool_iff, doublers01_active.
  split; intros [H1 H2]; split;
    solve [apply Qnot_le_lt; assumption | apply Qlt_not_le; assumption].
Qed.

(** Keys equal for [__eq__] have the same binding. *)
Lemma eqb_refl (s : CH.t) : CH.eqb s s = true.
Proof.
  unfold CH.eqb.
  rewrite !Qeq_bool_refl, !Z.eqb_refl, !Bool.eqb_reflx. reflexivity.
Qed.

Lemma eqb_mimics (a b : CH.t) :
  CH.eqb a b = true -> CH.mimics a == CH.mimics b.
Proof.
  unfold CH.eqb. rewrite !andb_true_iff. intros H.
  apply Qeq_bool_eq. tauto.
Qed.

Lemma get_set (d : CH.dict) (k s : CH.t) (v : CHValue.t) :
  CH.get (CH.set d k v) s = if CH.eqb k s then Some v else CH.get d s.
Proof. reflexivity. Qed.

Lemma mem_false_get (d : CH.dict) (s : CH.t) :
  CH.mem d s = false -> CH.get d s = None.
Proof. unfold CH.mem. destruct (CH.get d s); [discriminate | reflexivity]. Qed.

(** ** The invariant and the chances *)

Lemma Inv_next (s : CH.t) (t : CHType) :
  Inv s -> explores s t = true -> Inv (CH.next s t).
Proof.
  unfold Inv, explores. intros (Hm & Hs & Hd) H.
  apply andb_true_iff in H. destruct H as [_ H].
  rewrite next_mimics, next_savers, next_doublers.
  destruct t; repeat split; try assumption; try lia.
  apply andb_true_iff in H. destruct H as [H _].
  apply Qgtb_true in H. lra.
Qed.

Lemma value_default_going (s : CH.t) :
  Inv s -> CH.stop_default s = false ->
  CH.value_default s = CHValue.mk 0 0 0.
Proof.
  intros (Hm & Hs & Hd) H. apply stop_default_false in H. destruct H as [H1 H2].
  unfold CH.value_default.
  destruct (Qle_bool (CH.chests s) (CH.mimics s)) eqn:E1; [|reflexivity].
  exfalso. apply Qle_bool_iff in E1.
  assert (0 <= inject_Z (CH.savers s)) by (apply inject_Z_nonneg; assumption).
  assert (0 <= activeDoublers s)
    by (unfold activeDoublers; destruct (_ >? _)%Z; lra).
  lra.
Qed.

Lemma chance_weight (s : CH.t) (t : CHType) :
  0 < CH.chests s -> 0 < effectiveChests s ->
  CH.chance s t = inr (weight s t).
Proof.
  intros Hc He. rewrite <- live_chests_effective in He.
  destruct t; cbn [CH.chance weight];
    unfold CH._chance_loot, CH._chance_mimic, CH._chance_doubler;
    apply decimal_div_defined; lra.
Qed.

(** The chances of the branches a state can take add up to one: without
    skip priority the four kinds, with it all but the saver. *)
Lemma weights_total (s : CH.t) :
  0 < CH.chests s -> 0 < effectiveChests s ->
  (if CH.ad s then 0 else weight s SAVER)
  + weight s DOUBLER + weight s MIMIC + weight s LOOT == 1.
Proof.
  intros Hc He. unfold weight, effectiveChests, CH.live_chests in *.
  destruct (CH.ad s); field; lra.
Qed.

Lemma div_nonneg (n e : Q) : 0 <= n -> 0 < e -> 0 <= n / e.
Proof.
  intros Hn He. apply Qle_shift_div_l; [assumption | lra].
Qed.

Lemma weight_nonneg (s : CH.t) (t : CHType) :
  Inv s -> CH.stop_default s = false -> 0 < effectiveChests s ->
  0 <= CH.mimics s -> 0 <= weight s t.
Proof.
  intros (_ & Hs & Hd) Hgo He Hm. apply stop_default_false in Hgo.
  destruct Hgo as [Hn Hc]. apply inject_Z_nonneg in Hs.
  rewrite <- doublers01_active in Hn.
  assert (Hd1 : 0 <= inject_Z (CH.doublers01 s))
    by (apply inject_Z_nonneg; unfold CH.doublers01;
        destruct (_ >? _)%Z; lia).
  rewrite <- live_chests_effective in He.
  destruct t; cbn [weight]; apply div_nonneg; try assumption.
  unfold CH.live_chests in *. destruct (CH.ad s);
    change (inject_Z 0) with 0 in *; lra.
Qed.

(** ** The perfect-hunt field of the values *)

Lemma Good_eqb (a b : CH.t) (v : CHValue.t) :
  CH.eqb a b = true -> Good a v -> Good b v.
Proof.
  intros E [H1 H2]. apply eqb_mimics in E. split; [assumption|].
  intros Hb. apply H2. rewrite E. assumption.
Qed.

Lemma Good_default_stop (s : CH.t) : Good s (CH.value_default s).
Proof.
  unfold Good, CH.value_default. cbn [CHValue.perfect].
  destruct (Qle_bool (CH.chests s) (CH.mimics s)) eqn:E1;
    destruct (Qle_bool 0 (CH.chests s)) eqn:E2; cbn [andb];
    (split; [lra|]); intros Hm; try reflexivity.
  apply Qle_bool_iff in E1, E2. lra.
Qed.

(** Opening a saver leaves the mimics as they are. *)
Lemma Good_saver (s : CH.t) (v : CHValue.t) :
  Good (CH.next s SAVER) v -> Good s v.
Proof. intros H. exact H. Qed.

Lemma next_mimics_neg (s : CH.t) (t : CHType) :
  CH.mimics s < 0 -> CH.mimics (CH.next s t) < 0.
Proof. intros H. rewrite next_mimics. destruct t; lra. Qed.

Lemma Acc_start (s : CH.t) : Acc s 0 (CHValue.mk 0 0 0).
Proof.
  unfold Acc. cbn [CHValue.perfect].
  split; [intros; lra | intros; reflexivity].
Qed.

Lemma Acc_add (s : CH.t) (t : CHType) (B w : Q) (value v : CHValue.t) :
  Acc s B value -> Good (CH.next s t) v -> (0 <= CH.mimics s -> 0 <= w) ->
  Acc s (B + w) (CHValue.add value (CHValue.mul v w)).
Proof.
  intros [A1 A2] [[G1 G2] G3] Hw. unfold Acc.
  cbn [CHValue.add CHValue.mul CHValue.perfect].
  split.
  - intros Hm. specialize (A1 Hm). specialize (Hw Hm).
    assert (0 <= CHValue.perfect v * w)
      by (apply Qmult_le_0_compat; assumption).
    assert (CHValue.perfect v * w <= 1 * w)
      by (apply Qmult_le_compat_r; assumption).
    lra.
  - intros Hm. rewrite (A2 Hm), (G3 (next_mimics_neg s t Hm)). ring.
Qed.

Lemma Acc_le (s : CH.t) (B B' : Q) (value : CHValue.t) :
  Acc s B value -> (0 <= CH.mimics s -> B <= B') -> Acc s B' value.
Proof.
  intros [A1 A2] Hw. split; [|assumption].
  intros Hm. specialize (A1 Hm). specialize (Hw Hm). lra.
Qed.

Lemma Acc_reward (s : CH.t) (B x l a : Q) (value : CHValue.t) :
  Acc s B value ->
  Acc s B (CHValue.add value (CHValue.mul (CHValue.mk l 0 a) x)).
Proof.
  intros [A1 A2]. unfold Acc.
  cbn [CHValue.add CHValue.mul CHValue.perfect].
  split.
  - intros Hm. specialize (A1 Hm). lra.
  - intros Hm. rewrite (A2 Hm). ring.
Qed.

Lemma Acc_Good (s : CH.t) (B : Q) (value : CHValue.t) :
  Acc s B value -> B == 1 -> Good s value.
Proof.
  intros [A1 A2] HB. split; [|assumption].
  destruct (Qlt_le_dec (CH.mimics s) 0) as [Hm|Hm].
  - rewrite (A2 Hm). lra.
  - specialize (A1 Hm). lra.
Qed.

(** ** Runs of the solver

    The run of [calculate_value] is followed once, for an invariant [inv] of
    the states, a property [good] of the values and a property [acc] of the
    running sums that fit together as [Inv], [Good] and [Acc] do. *)

Lemma explores_going (s : CH.t) (t : CHType) :
  explores s t = true -> CH.stop_default s = false.
Proof.
  unfold explores. intros H. apply andb_true_iff in H.
  apply negb_true_iff. tauto.
Qed.

(** With skip priority and a saver left, the branches after the saver are
    only reached while a doubler is left to find. *)
Lemma effectiveChests_pos (s : CH.t) :
  Inv s -> CH.stop_default s = false ->
  (CH.ad s = true -> (CH.savers s >? 0)%Z = true ->
   (CH.doublers s <=? 0)%Z = false) ->
  0 < effectiveChests s.
Proof.
  intros (Hm & Hs & Hd) Hgo Hdbl. apply stop_default_false in Hgo.
  destruct Hgo as [Hn Hc]. unfold effectiveChests, activeDoublers in *.
  destruct (CH.ad s); [|lra].
  destruct (CH.savers s >? 0)%Z eqn:Es.
  - specialize (Hdbl eq_refl eq_refl). apply Z.leb_gt in Hdbl.
    apply Z.gtb_lt in Hdbl. rewrite Hdbl in Hn. lra.
  - assert (CH.savers s = 0%Z) as E.
    { destruct (Z.gtb_spec (CH.savers s) 0); [discriminate | lia]. }
    rewrite E in *. change (inject_Z 0) with 0 in *. lra.
Qed.

Lemma inject_Z_succ (n : nat) :
  inject_Z (Z.of_nat (S n)) == inject_Z (Z.of_nat n) + 1.
Proof. rewrite Nat2Z.inj_succ, <- Z.add_1_r, inject_Z_plus. reflexivity. Qed.

Section Run.

Variable inv : CH.t -> Prop.
Variable good : CH.t -> CHValue.t -> Prop.
Variable acc : CH.t -> Q -> CHValue.t -> Prop.

(** The invariant implies [Inv], and every transition the solver takes
    keeps it. *)
Hypothesis inv_Inv : forall s, inv s -> Inv s.
Hypothesis inv_next :
  forall s t, inv s -> explores s t = true -> inv (CH.next s t).

(** Good values: those of equal keys, the default of a stopped state, and
    the value of the state reached by opening a saver. *)
Hypothesis good_eqb :
  forall a b v, CH.eqb a b = true -> good a v -> good b v.
Hypothesis good_default : forall s, good s (CH.value_default s).
Hypothesis good_saver : forall s v, good (CH.next s SAVER) v -> good s v.

(** Running sums: the empty sum, a weighted good value added, a larger
    bound, the immediate reward added, and the sum of all branches. *)
Hypothesis acc_start : forall s, acc s 0 (CHValue.mk 0 0 0).
Hypothesis acc_add :
  forall s t B w value v,
    acc s B value -> good (CH.next s t) v -> (0 <= CH.mimics s -> 0 <= w) ->
    acc s (B + w) (CHValue.add value (CHValue.mul v w)).
Hypothesis acc_le :
  forall s B B' value,
    acc s B value -> (0 <= CH.mimics s -> B <= B') -> acc s B' value.
Hypothesis acc_reward :
  forall s B x l a value,
    acc s B value ->
    acc s B (CHValue.add value (CHValue.mul (CHValue.mk l 0 a) x)).
Hypothesis acc_good : forall s B value, acc s B value -> B == 1 -> good s value.

Lemma continues_refl (st : store) :
  cache_ok inv good (solved st) -> continues inv good st st.
Proof.
  intros H. split; [assumption|].
  exists []. split; [reflexivity | constructor].
Qed.

Lemma continues_trans (st1 st2 st3 : store) :
  continues inv good st1 st2 -> continues inv good st2 st3 ->
  continues inv good st1 st3.
Proof.
  intros [_ (tr1 & E1 & F1)] [C (tr2 & E2 & F2)]. split; [assumption|].
  exists (tr2 ++ tr1). split.
  - rewrite E2, E1. apply app_assoc.
  - apply Forall_app. split; assumption.
Qed.

Lemma runs_ret {A} (a : A) (R : A -> Prop) : R a -> runs inv good (ret a) R.
Proof.
  intros Ha st Hst. exists a, st. split; [reflexivity|].
  split; [assumption | apply continues_refl; assumption].
Qed.

Lemma runs_bind {A B} (m : M A) (f : A -> M B) (R : A -> Prop)
    (R' : B -> Prop) :
  runs inv good m R -> (forall a, R a -> runs inv good (f a) R') ->
  runs inv good (bind m f) R'.
Proof.
  intros Hm Hf st Hst.
  destruct (Hm st Hst) as (a & st1 & E1 & Ra & C1).
  destruct (Hf a Ra st1 (proj1 C1)) as (b & st2 & E2 & Rb & C2).
  exists b, st2. unfold bind. rewrite E1. split; [assumption|].
  split; [assumption | apply (continues_trans st st1 st2 C1 C2)].
Qed.

Lemma runs_weaken {A} (m : M A) (R R' : A -> Prop) :
  runs inv good m R -> (forall a, R a -> R' a) -> runs inv good m R'.
Proof.
  intros Hm HR st Hst. destruct (Hm st Hst) as (a & st' & E & Ra & C).
  exists a, st'. auto.
Qed.

Lemma runs_log (e : event) :
  ev_ok inv good e -> runs inv good (log e) (fun _ => True).
Proof.
  intros He st Hst. exists tt, (mkStore (solved st) (e :: trace st)).
  split; [reflexivity|]. split; [exact I|]. split; [assumption|].
  exists [e]. split; [reflexivity | constructor; [assumption | constructor]].
Qed.

Lemma runs_lift {A} (r : exn + A) (a : A) :
  r = inr a -> runs inv good (lift r) (fun x => x = a).
Proof.
  intros -> st Hst. exists a, st. split; [reflexivity|].
  split; [reflexivity | apply continues_refl; assumption].
Qed.

Lemma runs_get_solved : runs inv good get_solved (cache_ok inv good).
Proof.
  intros st Hst. exists (solved st), st. split; [reflexivity|].
  split; [assumption | apply continues_refl; assumption].
Qed.

Lemma runs_set_solved (s : CH.t) (v : CHValue.t) :
  good s v -> runs inv good (set_solved s v) (fun _ => True).
Proof.
  intros Hv st Hst.
  exists tt, (mkStore (CH.set (solved st) s v) (trace st)).
  split; [reflexivity|]. split; [exact I|]. split.
  - intros s' v' Hget Hs'. cbn [solved] in Hget. rewrite get_set in Hget.
    destruct (CH.eqb s s') eqn:E.
    + injection Hget as <-. apply (good_eqb s s'); assumption.
    + apply Hst; assumption.
  - exists []. split; [reflexivity | constructor].
Qed.

(** *** The branches of [calculate_value] *)

Section Branches.

Variable self : CH.t -> M CHValue.t.

Lemma runs_recurse (s : CH.t) (t : CHType) :
  inv s -> explores s t = true -> children_run inv good self s ->
  runs inv good (recurse self s t) (good (CH.next s t)).
Proof.
  intros HI Hex Hch. unfold recurse, next_of.
  apply runs_bind with (R := fun s' => s' = CH.next s t).
  - apply runs_bind with (R := fun _ => True).
    + apply runs_log. split; assumption.
    + intros _ _. apply runs_ret. reflexivity.
  - intros s' ->. apply Hch. assumption.
Qed.

Lemma runs_chance_of (s : CH.t) (t : CHType) :
  CH.stop_default s = false -> 0 < effectiveChests s ->
  runs inv good (chance_of s t) (fun c => c = weight s t).
Proof.
  intros Hgo He. pose proof (proj1 (stop_default_false s) Hgo) as [_ Hc].
  unfold chance_of.
  apply runs_bind with (R := fun _ => True).
  - apply runs_log. repeat split; assumption.
  - intros _ _. apply runs_lift. apply chance_weight; assumption.
Qed.

Lemma runs_weighted (s : CH.t) (t : CHType) (B : Q) (value : CHValue.t) :
  inv s -> explores s t = true -> 0 < effectiveChests s ->
  children_run inv good self s -> acc s B value ->
  runs inv good (weighted self s t value) (acc s (B + weight s t)).
Proof.
  intros HI Hex He Hch HA.
  pose proof (explores_going s t Hex) as Hgo.
  unfold weighted.
  apply runs_bind with (R := fun c => c = weight s t).
  { apply runs_chance_of; assumption. }
  intros c ->.
  apply runs_bind with (R := good (CH.next s t)).
  { apply runs_recurse; assumption. }
  intros v Hv. apply runs_ret. apply acc_add with (t := t); try assumption.
  intros Hm. apply weight_nonneg; auto.
Qed.

Lemma runs_double_mimic_loot (s : CH.t) (value : CHValue.t) :
  inv s -> CH.stop_default s = false -> 0 < effectiveChests s ->
  children_run inv good self s ->
  acc s (if CH.ad s then 0 else weight s SAVER) value ->
  runs inv good (double_mimic_loot self s value) (good s).
Proof.
  intros HI Hgo He Hch HA. unfold double_mimic_loot.
  set (B0 := if CH.ad s then 0 else weight s SAVER) in *.
  assert (Hw : forall t, 0 <= CH.mimics s -> 0 <= weight s t)
    by (intros t Hm; apply weight_nonneg; auto).
  assert (Hskip : forall B t value,
             acc s B value -> acc s (B + weight s t) value).
  { intros B t value' HA'. apply (acc_le _ _ _ _ HA').
    intros Hm. specialize (Hw t Hm). lra. }
  (* Double *)
  apply runs_bind with (R := acc s (B0 + weight s DOUBLER)).
  { destruct (CH.doublers s >? 0)%Z eqn:Ed.
    - apply runs_weighted; try assumption.
      unfold explores. rewrite Hgo, Ed. reflexivity.
    - apply runs_ret. apply Hskip. assumption. }
  intros value1 HA1.
  (* Mimic *)
  apply runs_bind
    with (R := acc s (B0 + weight s DOUBLER + weight s MIMIC)).
  { destruct (Qgtb (CH.mimics s) 0
              && ((CH.saves s >? 0)%Z || (CH.csaves s >? 0)%Z)) eqn:Em.
    - apply runs_weighted; try assumption.
      unfold explores. rewrite Hgo, Em. reflexivity.
    - apply runs_ret. apply Hskip. assumption. }
  intros value2 HA2.
  (* Loot *)
  apply runs_bind with (R := fun c => c = weight s LOOT).
  { apply runs_chance_of; assumption. }
  intros c ->.
  apply runs_bind with
    (R := acc s (B0 + weight s DOUBLER + weight s MIMIC + weight s LOOT)).
  { apply runs_weighted; try assumption.
    - unfold explores. rewrite Hgo. reflexivity.
    - apply acc_reward. assumption. }
  intros value3 HA3.
  assert (HG : good s value3).
  { apply (acc_good _ _ _ HA3). apply weights_total; [|assumption].
    apply stop_default_false in Hgo. tauto. }
  apply runs_bind with (R := fun _ => True).
  { apply runs_set_solved. assumption. }
  intros _ _. apply runs_ret. assumption.
Qed.

Lemma runs_body (s : CH.t) :
  inv s -> children_run inv good self s ->
  runs inv good (body self s) (good s).
Proof.
  intros HI Hch. unfold body.
  apply runs_bind with (R := cache_ok inv good). { apply runs_get_solved. }
  intros d Hd. unfold CH.stop.
  destruct (CH.mem d s) eqn:Emem; cbn [orb].
  { apply runs_ret. unfold CH.value.
    destruct (CH.get d s) as [v|] eqn:Eget.
    - apply (Hd s v); assumption.
    - apply good_default. }
  destruct (CH.stop_default s) eqn:Hgo.
  { apply runs_ret. unfold CH.value. rewrite (mem_false_get _ _ Emem).
    apply good_default. }
  unfold CH.value. rewrite (mem_false_get _ _ Emem).
  rewrite (value_default_going s (inv_Inv s HI) Hgo).
  assert (Hsaver : (CH.savers s >? 0)%Z = true -> explores s SAVER = true)
    by (intros E; unfold explores; rewrite Hgo, E; reflexivity).
  assert (Hearly : (CH.savers s >? 0)%Z = true ->
                   runs inv good (recurse self s SAVER) (good s)).
  { intros E. apply runs_weaken with (R := good (CH.next s SAVER)).
    - apply runs_recurse; auto.
    - apply good_saver. }
  pose proof (effectiveChests_pos s (inv_Inv s HI) Hgo) as Hpos.
  pose proof (acc_start s) as HA0.
  destruct (CH.savers s >? 0)%Z eqn:Es.
  - destruct (CH.ad s) eqn:Ead.
    + destruct (CH.chase s && (CH.doubles s >? 0)%Z); [auto|].
      destruct (negb (CH.chase s) && (CH.csaves s <=? 0)%Z); [auto|].
      destruct (CH.doublers s <=? 0)%Z eqn:Edbl; [auto|].
      apply runs_double_mimic_loot; auto. rewrite Ead. assumption.
    + assert (He : 0 < effectiveChests s) by (apply Hpos; discriminate).
      apply runs_bind with (R := acc s (0 + weight s SAVER)).
      { apply runs_weighted; auto. }
      intros value1 HA1. apply runs_double_mimic_loot; auto.
      rewrite Ead. apply (acc_le _ _ _ _ HA1). intros _. lra.
  - assert (He : 0 < effectiveChests s) by (apply Hpos; discriminate).
    apply runs_double_mimic_loot; auto.
    destruct (CH.ad s); [assumption|].
    apply (acc_le _ _ _ _ HA0). intros Hm. apply weight_nonneg; auto.
Qed.

Lemma runs_activation (s : CH.t) :
  inv s -> children_run inv good self s ->
  runs inv good (activation self s) (good s).
Proof.
  intros HI Hch. unfold activation.
  apply runs_bind with (R := fun _ => True). { apply runs_log. exact HI. }
  intros _ _. apply runs_bind with (R := good s).
  { apply runs_body; assumption. }
  intros v Hv. apply runs_bind with (R := fun _ => True).
  { apply runs_log. split; assumption. }
  intros _ _. apply runs_ret. assumption.
Qed.

End Branches.

(** The solver returns a good value from every store with a good cache,
    within a depth of one more than the number of chests. *)
Lemma runs_calculate_value (n : nat) :
  forall s, inv s -> CH.chests s <= inject_Z (Z.of_nat n) ->
    runs inv good (calculate_value (S n) s) (good s).
Proof.
  induction n as [|n IH]; intros s HI Hc; cbn [calculate_value];
    apply runs_activation; try assumption; intros t Hex.
  - apply explores_going in Hex.
    rewrite (stop_default_no_chests s Hc) in Hex. discriminate.
  - apply IH; [apply inv_next; assumption|].
    rewrite next_chests. rewrite inject_Z_succ in Hc. lra.
Qed.

End Run.

(** ** States the callers construct, stores the solver leaves behind *)


Lemma sound_empty : sound empty_store.
Proof. intros s v H. discriminate. Qed.

(** From every store, whatever it caches: the solver, started in a state of
    an invariant that every transition keeps, returns, and only adds events
    of states of the invariant to the trace. *)
Lemma calculate_value_any (inv : CH.t -> Prop) (n : nat) (s : CH.t)
    (st : store) :
  (forall s, inv s -> Inv s) ->
  (forall s t, inv s -> explores s t = true -> inv (CH.next s t)) ->
  inv s -> CH.chests s <= inject_Z (Z.of_nat n) ->
  exists v st' tr,
    calculate_value (S n) s st = Ok (v, st')
    /\ trace st' = tr ++ trace st /\ Forall (ev_ok inv any_value) tr.
Proof.
  intros H1 H2 HI Hc.
  assert (Hst : cache_ok inv any_value (solved st)) by (intros ? ? ? ?; exact I).
  destruct (runs_calculate_value inv any_value any_sum H1 H2
              (fun _ _ _ _ _ => I) (fun _ => I) (fun _ _ _ => I)
              (fun _ => I) (fun _ _ _ _ _ _ _ _ _ => I)
              (fun _ _ _ _ _ _ => I) (fun _ _ _ _ _ _ _ => I)
              (fun _ _ _ _ _ => I) n s HI Hc st Hst)
    as (v & st' & E & _ & _ & tr & Etr & F).
  exists v, st', tr. auto.
Qed.

(** From a sound store: the solver, started in a state that satisfies
    [Inv], returns a sound value, keeps the store sound, and only adds sound
    events to the trace. *)
Lemma calculate_value_Inv (n : nat) (s : CH.t) (st : store) :
  Inv s -> sound st -> CH.chests s <= inject_Z (Z.of_nat n) ->
  exists v st' tr,
    calculate_value (S n) s st = Ok (v, st')
    /\ Good s v /\ sound st'
    /\ trace st' = tr ++ trace st /\ Forall (ev_ok Inv Good) tr.
Proof.
  intros HI Hst Hc.
  destruct (runs_calculate_value Inv Good Acc (fun s H => H) Inv_next
              Good_eqb Good_default_stop Good_saver Acc_start Acc_add Acc_le
              Acc_reward Acc_Good n s HI Hc st Hst)
    as (v & st' & E & G & C & tr & Etr & F).
  exists v, st', tr. auto.
Qed.

(** ** Whole numbers of chests *)

Lemma whole_pred (q : Q) : whole q -> 0 < q -> whole (q - 1) /\ 0 <= q - 1.
Proof.
  intros [z Hz] Hq. split.
  - exists (z - 1)%Z. unfold Z.sub. rewrite inject_Z_plus, Hz. reflexivity.
  - rewrite Hz in Hq |- *. change 0 with (inject_Z 0) in Hq.
    rewrite <- Zlt_Qlt in Hq. pose proof (inject_Z_ge_1 z Hq). lra.
Qed.

Lemma counts_Inv (s : CH.t) : counts s -> Inv s.
Proof. unfold counts, Inv. intros H. repeat split; try tauto. lra. Qed.

Lemma counts_next (s : CH.t) (t : CHType) :
  counts s -> explores s t = true -> counts (CH.next s t).
Proof.
  intros [(Hc & Hm & Hsv & Hs & Hcs & Hd & Hdb) [Wc Wm]] Hex.
  pose proof (explores_going s t Hex) as Hgo.
  apply stop_default_false in Hgo. destruct Hgo as [_ Hpos].
  destruct (whole_pred _ Wc Hpos) as [Wc' Hc'].
  unfold explores in Hex. apply andb_true_iff in Hex. destruct Hex as [_ Hex].
  unfold counts.
  destruct t; cbn [CH.next CH.chests CH.mimics CH.savers CH.saves CH.csaves
                   CH.doublers CH.doubles CH.copy CH.init].
  - (* LOOT *)
    repeat split; try assumption;
      destruct (Z.gtb_spec (CH.csaves s) 0);
      destruct (Z.gtb_spec (CH.doubles s) 0); lia.
  - (* MIMIC *)
    apply andb_true_iff in Hex. destruct Hex as [Hmp Htok].
    apply Qgtb_true in Hmp. destruct (whole_pred _ Wm Hmp) as [Wm' Hm'].
    apply orb_true_iff in Htok.
    repeat split; try assumption;
      destruct (Z.gtb_spec (CH.csaves s) 0);
      destruct (Z.leb_spec (CH.csaves s) 0);
      destruct (Z.gtb_spec (CH.saves s) 0);
      try lia; destruct Htok; discriminate.
  - (* SAVER *)
    apply Z.gtb_lt in Hex.
    destruct (negb (CH.dd s) && (CH.doubles s >? 0)%Z) eqn:E;
      [apply andb_true_iff in E; destruct E as [_ E]; apply Z.gtb_lt in E|];
      destruct (Z.gtb_spec (CH.csaves s) 0);
      repeat split; try assumption; lia.
  - (* DOUBLER *)
    apply Z.gtb_lt in Hex.
    repeat split; try assumption;
      destruct (Z.gtb_spec (CH.csaves s) 0); lia.
Qed.

Lemma calculate_value_counts (n : nat) (s : CH.t) (st : store) :
  counts s -> CH.chests s <= inject_Z (Z.of_nat n) ->
  exists v st' tr,
    calculate_value (S n) s st = Ok (v, st')
    /\ trace st' = tr ++ trace st /\ Forall (ev_ok counts any_value) tr.
Proof.
  intros HI Hc.
  apply (calculate_value_any counts n s st counts_Inv counts_next HI Hc).
Qed.

(** ** Termination *)

Lemma finishes_ret {A} (a : A) (R : A -> Prop) : R a -> finishes (ret a) R.
Proof. intros Ha st. left. exists a, st. split; [reflexivity | assumption]. Qed.

Lemma finishes_bind {A B} (m : M A) (f : A -> M B) (R : A -> Prop)
    (R' : B -> Prop) :
  finishes m R -> (forall a, R a -> finishes (f a) R') ->
  finishes (bind m f) R'.
Proof.
  intros Hm Hf st. unfold bind.
  destruct (Hm st) as [(a & st1 & E & Ra) | (e & E)]; rewrite E.
  - apply Hf. assumption.
  - right. exists e. reflexivity.
Qed.

Lemma finishes_log (e : event) : finishes (log e) (fun _ => True).
Proof. intros st. left. eexists _, _. split; [reflexivity | exact I]. Qed.

Lemma finishes_lift {A} (r : exn + A) : finishes (lift r) (fun _ => True).
Proof.
  intros st. destruct r as [e|a]; [right | left]; cbn; eauto.
Qed.

Lemma finishes_set_solved (s : CH.t) (v : CHValue.t) :
  finishes (set_solved s v) (fun _ => True).
Proof. intros st. left. eexists _, _. split; [reflexivity | exact I]. Qed.

Lemma finishes_get_solved : finishes get_solved (fun _ => True).
Proof. intros st. left. eexists _, _. split; [reflexivity | exact I]. Qed.

Section Finishes.

Variable self : CH.t -> M CHValue.t.
Variable s : CH.t.
Hypothesis children :
  forall t, finishes (self (CH.next s t)) (fun _ => True).

Lemma finishes_recurse (t : CHType) :
  finishes (recurse self s t) (fun _ => True).
Proof.
  unfold recurse, next_of.
  apply finishes_bind with (R := fun s' => s' = CH.next s t).
  - apply finishes_bind with (R := fun _ => True).
    + apply finishes_log.
    + intros _ _. apply finishes_ret. reflexivity.
  - intros s' ->. apply children.
Qed.

Lemma finishes_weighted (t : CHType) (value : CHValue.t) :
  finishes (weighted self s t value) (fun _ => True).
Proof.
  unfold weighted, chance_of.
  apply finishes_bind with (R := fun _ => True).
  { apply finishes_bind with (R := fun _ => True);
      [apply finishes_log | intros _ _; apply finishes_lift]. }
  intros c _. apply finishes_bind with (R := fun _ => True).
  { apply finishes_recurse. }
  intros v _. apply finishes_ret. exact I.
Qed.

Lemma finishes_double_mimic_loot (value : CHValue.t) :
  finishes (double_mimic_loot self s value) (fun _ => True).
Proof.
  unfold double_mimic_loot.
  apply finishes_bind with (R := fun _ => True).
  { destruct (CH.doublers s >? 0)%Z;
      [apply finishes_weighted | apply finishes_ret; exact I]. }
  intros value1 _. apply finishes_bind with (R := fun _ => True).
  { destruct (Qgtb _ _ && _);
      [apply finishes_weighted | apply finishes_ret; exact I]. }
  intros value2 _. apply finishes_bind with (R := fun _ => True).
  { unfold chance_of. apply finishes_bind with (R := fun _ => True);
      [apply finishes_log | intros _ _; apply finishes_lift]. }
  intros c _. apply finishes_bind with (R := fun _ => True).
  { apply finishes_weighted. }
  intros value3 _. apply finishes_bind with (R := fun _ => True).
  { apply finishes_set_solved. }
  intros _ _. apply finishes_ret. exact I.
Qed.

End Finishes.

Lemma finishes_activation (self : CH.t -> M CHValue.t) (s : CH.t) :
  (CH.stop_default s = false ->
   forall t, finishes (self (CH.next s t)) (fun _ => True)) ->
  finishes (activation self s) (fun _ => True).
Proof.
  intros Hch. unfold activation.
  apply finishes_bind with (R := fun _ => True). { apply finishes_log. }
  intros _ _. apply finishes_bind with (R := fun _ => True).
  2:{ intros v _. apply finishes_bind with (R := fun _ => True).
      - apply finishes_log.
      - intros _ _. apply finishes_ret. exact I. }
  unfold body. apply finishes_bind with (R := fun _ => True).
  { apply finishes_get_solved. }
  intros d _. unfold CH.stop.
  destruct (CH.mem d s); cbn [orb]; [apply finishes_ret; exact I|].
  destruct (CH.stop_default s); [apply finishes_ret; exact I|].
  specialize (Hch eq_refl).
  destruct (CH.savers s >? 0)%Z; [destruct (CH.ad s)|].
  - destruct (_ && _); [apply finishes_recurse; assumption|].
    destruct (_ && _); [apply finishes_recurse; assumption|].
    destruct (_ <=? _)%Z; [apply finishes_recurse; assumption|].
    apply finishes_double_mimic_loot; assumption.
  - apply finishes_bind with (R := fun _ => True).
    + apply finishes_weighted; assumption.
    + intros v _. apply finishes_double_mimic_loot; assumption.
  - apply finishes_double_mimic_loot; assumption.
Qed.

Lemma finishes_calculate_value (n : nat) :
  forall s, CH.chests s <= inject_Z (Z.of_nat n) ->
    finishes (calculate_value (S n) s) (fun _ => True).
Proof.
  induction n as [|n IH]; intros s Hc; cbn [calculate_value];
    apply finishes_activation; intros Hgo t.
  - rewrite (stop_default_no_chests s Hc) in Hgo. discriminate.
  - apply IH. rewrite next_chests. rewrite inject_Z_succ in Hc. lra.
Qed.

(** * The claims *)

(** ** C10: what the constructor normalises *)

(** C10.  For every combination of constructor arguments: with more than
    one doubler the constructed state has [dd = True] and [perfect = False]
    whatever was passed for them, and in every case its [chase] flag equals
    its (possibly overridden) [perfect] flag. *)
Theorem C10_constructor_normalization
    (chests mimics : Q) (savers saves : Z) (ad : bool)
    (csaves doublers doubles : Z) (dd perfect armory : bool) :
  ((1 < doublers)%Z ->
   CH.dd (CH.init chests mimics savers saves ad csaves doublers doubles
            dd perfect armory) = true
   /\ CH.perfect (CH.init chests mimics savers saves ad csaves doublers
                    doubles dd perfect armory) = false)
  /\ CH.chase (CH.init chests mimics savers saves ad csaves doublers doubles
                 dd perfect armory)
     = CH.perfect (CH.init chests mimics savers saves ad csaves doublers
                     doubles dd perfect armory).
Proof.
  split; [|reflexivity].
  intros H. apply Z.gtb_lt in H. unfold CH.init. rewrite H. split; reflexivity.
Qed.

(** Two doublers, asking for a perfect hunt without x2 x2. *)
Lemma C10_constructor_normalization_witness :
  CH.dd (CH.init 30 4 0 0 false 0 2 0 false true true) = true
  /\ CH.perfect (CH.init 30 4 0 0 false 0 2 0 false true true) = false.
Proof.
  apply (proj1 (C10_constructor_normalization
                  30 4 0 0 false 0 2 0 false true true)).
  reflexivity.
Defined.

(** ** C2: the base case *)

Lemma calculate_value_stop_default (s : CH.t) (n : nat) (st : store) :
  CH.stop_default s = true -> CH.get (solved st) s = None ->
  calculate_value (S n) s st
  = Ok (CH.value_default s,
        mkStore (solved st)
          (Return s (CH.value_default s) :: Call s :: trace st)).
Proof.
  intros Hstop Hget. cbn [calculate_value].
  unfold activation, body, bind, log, get_solved, ret, CH.stop, CH.value, CH.mem.
  cbn [solved trace]. rewrite Hget, Hstop. reflexivity.
Qed.

(** C2, as the code has it.  For every state with [chests <= 0], solved with
    an empty cache, the solver returns a value with [loot = 0],
    [armory = 0], and [perfect] equal to 1 if [mimics >= chests] and
    [chests >= 0], else 0. *)
Theorem C2_base_case (s : CH.t) (n : nat) :
  CH.chests s <= 0 ->
  exists v st',
    calculate_value (S n) s empty_store = Ok (v, st')
    /\ CHValue.loot v = 0 /\ CHValue.armory v = 0
    /\ (CH.chests s <= CH.mimics s /\ 0 <= CH.chests s ->
        CHValue.perfect v = 1)
    /\ (~ (CH.chests s <= CH.mimics s /\ 0 <= CH.chests s) ->
        CHValue.perfect v = 0).
Proof.
  intros Hc. eexists _, _. split.
  { apply calculate_value_stop_default;
      [apply stop_default_no_chests; assumption | reflexivity]. }
  unfold CH.value_default. cbn [CHValue.loot CHValue.armory CHValue.perfect].
  split; [reflexivity|]. split; [reflexivity|].
  destruct (Qle_bool (CH.chests s) (CH.mimics s)) eqn:E1;
    destruct (Qle_bool 0 (CH.chests s)) eqn:E2; cbn [andb];
    split; intros H; try reflexivity; exfalso.
  - apply H. split; apply Qle_bool_iff; assumption.
  - destruct H as [_ H]. apply Qle_bool_iff in H. congruence.
  - destruct H as [H _]. apply Qle_bool_iff in H. congruence.
  - destruct H as [H _]. apply Qle_bool_iff in H. congruence.
Qed.

(** No chest left and four mimics: a perfect hunt. *)
Lemma C2_base_case_witness :
  exists v st',
    calculate_value 1 (CH.init 0 4 0 0 false 0 0 0 false false true)
      empty_store = Ok (v, st')
    /\ CHValue.loot v = 0 /\ CHValue.armory v = 0
    /\ (0 <= 4 /\ 0 <= 0 -> CHValue.perfect v = 1)
    /\ (~ (0 <= 4 /\ 0 <= 0) -> CHValue.perfect v = 0).
Proof.
  apply (C2_base_case (CH.init 0 4 0 0 false 0 0 0 false false true) 0).
  vm_compute. discriminate.
Defined.

(** C2 as stated fails below zero: with [chests = -1] and [mimics = 0],
    [mimics >= chests] holds and the returned [perfect] is 0, not 1. *)
Lemma C2_counterexample :
  CH.chests (CH.init (-1) 0 0 0 false 0 0 0 false false true) <= 0
  /\ CH.chests (CH.init (-1) 0 0 0 false 0 0 0 false false true)
     <= CH.mimics (CH.init (-1) 0 0 0 false 0 0 0 false false true)
  /\ exists v st',
       calculate_value 1 (CH.init (-1) 0 0 0 false 0 0 0 false false true)
         empty_store = Ok (v, st')
       /\ CHValue.perfect v = 0.
Proof.
  split; [vm_compute; discriminate|]. split; [vm_compute; discriminate|].
  eexists _, _. split; reflexivity.
Qed.

(** ** C4: no division by zero *)



(** ** C9: the counts of the explored states *)





(** ** C6: a hunt with nothing but loot *)











(** ** C8: the armory split *)

(** C8 fails on the code.  [ARMORY_RATE] is the float literal [0.005] and
    [loot = 1 - armory] a float subtraction, so the [CHValue] built from
    them holds the binary values [5764607523034235 / 2^60], above 0.005, and
    [8962163258467287 / 2^53], below 0.995, not the decimals 0.005 and
    0.995: one chest of loot with the armory enabled yields more than 0.005
    armory chests and less than 0.995 loot chests. *)
Theorem C8_armory_split_is_binary :
  ARMORY_RATE == 5764607523034235 # 1152921504606846976
  /\ binary64 (1 - ARMORY_RATE) == 8962163258467287 # 9007199254740992
  /\ (5 # 1000) < ARMORY_RATE
  /\ binary64 (1 - ARMORY_RATE) < (995 # 1000)
  /\ exists v st',
       calculate_value 2 (CH.init 1 0 0 0 false 0 0 0 false false true)
         empty_store = Ok (v, st')
       /\ (5 # 1000) < CHValue.armory v
       /\ CHValue.loot v < (995 # 1000).
Proof.
  repeat (split; [reflexivity|]).
  eexists _, _. split; [vm_compute; reflexivity|].
  split; reflexivity.
Qed.

(** ** C1: a second call with a warm cache *)

(** C1 fails on the code.  With skip priority the saver is opened through
    an early [return], which skips the store into [CH.solved]: for two
    chests, one of them a saver, the first call invokes [next] twice, and
    the second call, which returns the same value and leaves the cache as it
    is, invokes [next] once more. *)
Theorem C1_second_call_invokes_next :
  exists v st1 st2,
    calculate_value 3 (CH.init 2 0 1 0 true 0 0 0 false false false)
      empty_store = Ok (v, st1)
    /\ calculate_value 3 (CH.init 2 0 1 0 true 0 0 0 false false false) st1
       = Ok (v, st2)
    /\ solved st2 = solved st1
    /\ CH.mem (solved st1) (CH.init 2 0 1 0 true 0 0 0 false false false)
       = false
    /\ next_calls (trace st1) = 2%nat
    /\ next_calls (trace st2) = 3%nat.
Proof.
  eexists _, _, _. split; [vm_compute; reflexivity|].
  split; [vm_compute; reflexivity|]. repeat split.
Qed.

(** * Further properties *)

(** ** Returning runs, by rule induction *)

Lemma bind_Ok {A B} (m : M A) (f : A -> M B) st b st' :
  bind m f st = Ok (b, st') ->
  exists a st1, m st = Ok (a, st1) /\ f a st1 = Ok (b, st').
Proof.
  unfold bind. destruct (m st) as [[a st1]| |]; try discriminate.
  intros H. exists a, st1. auto.
Qed.

Lemma weighted_Ok self s t value st value' st' :
  weighted self s t value st = Ok (value', st') ->
  weighted_by (returns self) s t value st value' st'.
Proof.
  unfold weighted, chance_of, recurse, next_of, weighted_by, returns.
  unfold bind, log, lift, ret. cbn [solved trace].
  destruct (CH.chance s t) as [e|c]; [discriminate|].
  cbn [solved trace].
  destruct (self (CH.next s t) _) as [[v st1]| |] eqn:E; try discriminate.
  intros H. injection H as <- <-. exists c, v. auto.
Qed.

Lemma weighted_by_Ok self s t value st value' st' :
  weighted_by (returns self) s t value st value' st' ->
  weighted self s t value st = Ok (value', st').
Proof.
  unfold weighted, chance_of, recurse, next_of, weighted_by, returns.
  intros (c & v & Ec & Er & ->).
  unfold bind, log, lift, ret. cbn [solved trace]. rewrite Ec.
  cbn [solved trace]. rewrite Er. reflexivity.
Qed.

Lemma double_mimic_loot_Ok self s value st v st' :
  double_mimic_loot self s value st = Ok (v, st') <->
  exists v2 st2 v3 st3 c st4,
    branch_by (returns self) s DOUBLER value st v2 st2
    /\ branch_by (returns self) s MIMIC v2 st2 v3 st3
    /\ CH.chance s LOOT = inr c
    /\ weighted_by (returns self) s LOOT (CHValue.add v3 (reward s c))
         (mkStore (solved st3) (Chance s LOOT :: trace st3)) v st4
    /\ st' = mkStore (CH.set (solved st4) s v) (trace st4).
Proof.
  unfold double_mimic_loot, branch_by, draws. split.
  - intros H.
    apply bind_Ok in H. destruct H as (v2 & st2 & H2 & H).
    apply bind_Ok in H. destruct H as (v3 & st3 & H3 & H).
    apply bind_Ok in H. destruct H as (c & st3' & Hc & H).
    apply bind_Ok in H. destruct H as (v4 & st4 & H4 & H).
    unfold chance_of, bind, log, lift in Hc. cbn [solved trace] in Hc.
    destruct (CH.chance s LOOT) as [e|c'] eqn:Ec; [discriminate|].
    injection Hc as <- <-.
    unfold set_solved, bind, ret in H. injection H as <- <-.
    exists v2, st2, v3, st3, c', st4.
    split.
    { destruct (CH.doublers s >? 0)%Z.
      - apply weighted_Ok. assumption.
      - injection H2 as <- <-. auto. }
    split.
    { destruct (Qgtb (CH.mimics s) 0 && _).
      - apply weighted_Ok. assumption.
      - injection H3 as <- <-. auto. }
    split; [reflexivity|]. split; [|reflexivity].
    apply weighted_Ok. assumption.
  - intros (v2 & st2 & v3 & st3 & c & st4 & H2 & H3 & Ec & H4 & ->).
    unfold bind at 1.
    assert (E2 : (if (CH.doublers s >? 0)%Z then weighted self s DOUBLER value
                  else ret value) st = Ok (v2, st2)).
    { destruct (CH.doublers s >? 0)%Z.
      - apply weighted_by_Ok. assumption.
      - destruct H2 as [-> ->]. reflexivity. }
    rewrite E2. unfold bind at 1.
    assert (E3 : (if Qgtb (CH.mimics s) 0
                     && ((CH.saves s >? 0)%Z || (CH.csaves s >? 0)%Z)
                  then weighted self s MIMIC v2 else ret v2) st2
                 = Ok (v3, st3)).
    { destruct (Qgtb (CH.mimics s) 0 && _).
      - apply weighted_by_Ok. assumption.
      - destruct H3 as [-> ->]. reflexivity. }
    rewrite E3. unfold bind at 1, chance_of, bind at 1, log, lift.
    cbn [solved trace]. rewrite Ec. unfold bind at 1.
    apply weighted_by_Ok in H4. unfold reward in H4. rewrite H4.
    reflexivity.
Qed.

Lemma stop_false d s :
  CH.stop d s = false <-> CH.get d s = None /\ CH.stop_default s = false.
Proof.
  unfold CH.stop, CH.mem. rewrite orb_false_iff.
  destruct (CH.get d s); intuition discriminate.
Qed.

Lemma body_saver self s st v st' :
  CH.stop (solved st) s = false ->
  body self s st = Ok (v, st') <->
  (opens_saver s = true
   /\ self (CH.next s SAVER)
        (mkStore (solved st) (Next s SAVER :: trace st)) = Ok (v, st'))
  \/ (opens_saver s = false
      /\ exists v1 st1,
           branch_by (returns self) s SAVER (CH.value_default s) st v1 st1
           /\ double_mimic_loot self s v1 st1 = Ok (v, st')).
Proof.
  intros Hstop. pose proof (proj1 (stop_false _ _) Hstop) as [Hget _].
  unfold body, get_solved. unfold bind at 1. rewrite Hstop.
  unfold CH.value. rewrite Hget.
  unfold opens_saver, branch_by, draws.
  assert (Hrec : forall t, recurse self s t st
                 = self (CH.next s t) (mkStore (solved st) (Next s t :: trace st)))
    by reflexivity.
  destruct (CH.savers s >? 0)%Z; cbn [andb negb].
  - destruct (CH.ad s); cbn [andb negb].
    + destruct (CH.chase s && (CH.doubles s >? 0)%Z); cbn [orb].
      { rewrite Hrec. split; [auto|]. intros [[_ H]|[H _]]; [auto|discriminate]. }
      destruct (negb (CH.chase s) && (CH.csaves s <=? 0)%Z); cbn [orb].
      { rewrite Hrec. split; [auto|]. intros [[_ H]|[H _]]; [auto|discriminate]. }
      destruct (CH.doublers s <=? 0)%Z.
      { rewrite Hrec. split; [auto|]. intros [[_ H]|[H _]]; [auto|discriminate]. }
      split.
      * intros H. right. split; [reflexivity|]. exists (CH.value_default s), st. auto.
      * intros [[H _]|[_ (v1 & st1 & [-> ->] & H)]]; [discriminate | assumption].
    + split.
      * intros H. right. split; [reflexivity|].
        apply bind_Ok in H. destruct H as (v1 & st1 & H1 & H).
        exists v1, st1. split; [apply weighted_Ok|]; assumption.
      * intros [[H _]|[_ (v1 & st1 & H1 & H)]]; [discriminate|].
        unfold bind. rewrite (weighted_by_Ok _ _ _ _ _ _ _ H1). assumption.
  - split.
    + intros H. right. split; [reflexivity|]. exists (CH.value_default s), st. auto.
    + intros [[H _]|[_ (v1 & st1 & [-> ->] & H)]]; [discriminate | assumption].
Qed.

(** One activation returns exactly as the rule says. *)
Lemma activation_Ok self s st v st' :
  activation self s st = Ok (v, st') <->
  activation_by (returns self) s st v st'.
Proof.
  unfold activation, activation_by. unfold bind at 1, log.
  set (st0 := mkStore (solved st) (Call s :: trace st)).
  destruct (CH.stop (solved st) s) eqn:Hstop.
  - assert (E : body self s st0 = Ok (CH.value (solved st) s, st0)).
    { unfold body, get_solved. unfold bind. cbn [solved st0]. rewrite Hstop.
      reflexivity. }
    unfold bind at 1. rewrite E. unfold bind, ret. cbn [solved trace st0].
    split.
    + intros H. injection H as <- <-. left. auto.
    + intros [(_ & -> & ->)|[(H & _)|(H & _)]]; try discriminate. reflexivity.
  - assert (Hstop0 : CH.stop (solved st0) s = false) by exact Hstop.
    pose proof (fun v st' => body_saver self s st0 v st' Hstop0) as Hb.
    split.
    + intros H. apply bind_Ok in H. destruct H as (v0 & st1 & H1 & H).
      unfold bind, ret in H. cbn in H. injection H as <- <-.
      apply Hb in H1. right.
      destruct H1 as [[Ho H1]|[Ho (v1 & st1' & H1 & H2)]].
      * left. split; [reflexivity|]. split; [assumption|].
        exists st1. split; [exact H1 | reflexivity].
      * right. split; [reflexivity|]. split; [assumption|].
        apply double_mimic_loot_Ok in H2.
        destruct H2 as (v2 & st2 & v3 & st3 & c & st4 & H2 & H3 & Ec & H4 & ->).
        exists v1, st1', v2, st2, v3, st3, c, st4. auto 10.
    + intros [(H & _)|[(_ & Ho & st1 & H1 & ->)|(_ & Ho & H)]]; [discriminate| |].
      * assert (E : body self s st0 = Ok (v, st1))
          by (apply Hb; left; split; assumption).
        unfold bind at 1. rewrite E. reflexivity.
      * destruct H as (v1 & st1 & v2 & st2 & v3 & st3 & c & st4
                       & H1 & H2 & H3 & Ec & H4 & ->).
        assert (E : body self s st0
                    = Ok (v, mkStore (CH.set (solved st4) s v) (trace st4))).
        { apply Hb. right. split; [assumption|]. exists v1, st1.
          split; [assumption|]. apply double_mimic_loot_Ok.
          exists v2, st2, v3, st3, c, st4. auto 10. }
        unfold bind at 1. rewrite E. reflexivity.
Qed.

Lemma weighted_by_mono (R R' : CH.t -> store -> CHValue.t -> store -> Prop)
    s t value st value' st' :
  (forall st v st', R (CH.next s t) st v st' -> R' (CH.next s t) st v st') ->
  weighted_by R s t value st value' st' ->
  weighted_by R' s t value st value' st'.
Proof.
  intros H (c & v & Ec & Hr & E). exists c, v. auto.
Qed.

Lemma branch_by_mono (R R' : CH.t -> store -> CHValue.t -> store -> Prop)
    s t value st value' st' :
  (forall st v st', R (CH.next s t) st v st' -> R' (CH.next s t) st v st') ->
  branch_by R s t value st value' st' ->
  branch_by R' s t value st value' st'.
Proof.
  unfold branch_by. destruct (draws s t); [apply weighted_by_mono | auto].
Qed.

Lemma activation_by_mono (R R' : CH.t -> store -> CHValue.t -> store -> Prop)
    s st v st' :
  (forall t st v st', R (CH.next s t) st v st' -> R' (CH.next s t) st v st') ->
  activation_by R s st v st' -> activation_by R' s st v st'.
Proof.
  intros H [Hs|[(Hs & Ho & st1 & H1 & E)|(Hs & Ho & H1)]].
  - left. assumption.
  - right. left. split; [assumption|]. split; [assumption|].
    exists st1. auto.
  - right. right. split; [assumption|]. split; [assumption|].
    destruct H1 as (v1 & st1 & v2 & st2 & v3 & st3 & c & st4
                    & H1 & H2 & H3 & Ec & H4 & E).
    exists v1, st1, v2, st2, v3, st3, c, st4.
    repeat (split; [first [eapply branch_by_mono; [apply H|eassumption]
                          | eapply weighted_by_mono; [apply H|eassumption]
                          | eassumption ]|]).
    assumption.
Qed.

(** Rule induction on the runs of the solver that return. *)
Lemma calculate_value_rule
    (P : CH.t -> store -> CHValue.t -> store -> Prop) :
  (forall s st v st', activation_by P s st v st' -> P s st v st') ->
  forall n s st v st',
    calculate_value n s st = Ok (v, st') -> P s st v st'.
Proof.
  intros HP. induction n as [|n IH]; intros s st v st' H.
  - discriminate.
  - cbn [calculate_value] in H. apply activation_Ok in H.
    apply HP. revert H. apply activation_by_mono.
    intros t st1 v1 st1'. apply IH.
Qed.

(** ** The keys of the cache, and what a run adds to it *)

Lemma eqb_fields (a b : CH.t) :
  CH.eqb a b = true <->
  CH.chests a == CH.chests b /\ CH.mimics a == CH.mimics b
  /\ CH.savers a = CH.savers b /\ CH.saves a = CH.saves b
  /\ CH.ad a = CH.ad b /\ CH.csaves a = CH.csaves b
  /\ CH.doublers a = CH.doublers b /\ CH.doubles a = CH.doubles b
  /\ CH.dd a = CH.dd b /\ CH.perfect a = CH.perfect b
  /\ CH.chase a = CH.chase b /\ CH.armory a = CH.armory b.
Proof.
  unfold CH.eqb.
  rewrite !andb_true_iff, !Qeq_bool_iff, !Z.eqb_eq, !Bool.eqb_true_iff.
  tauto.
Qed.

Lemma eqb_sym (a b : CH.t) : CH.eqb a b = true -> CH.eqb b a = true.
Proof.
  rewrite !eqb_fields.
  intros (H1 & H2 & H3 & H4 & H5 & H6 & H7 & H8 & H9 & H10 & H11 & H12).
  repeat split; solve [symmetry; assumption].
Qed.

Lemma eqb_trans (a b c : CH.t) :
  CH.eqb a b = true -> CH.eqb b c = true -> CH.eqb a c = true.
Proof.
  rewrite !eqb_fields.
  intros (H1 & H2 & H3 & H4 & H5 & H6 & H7 & H8 & H9 & H10 & H11 & H12)
         (G1 & G2 & G3 & G4 & G5 & G6 & G7 & G8 & G9 & G10 & G11 & G12).
  repeat split; solve [etransitivity; eassumption].
Qed.

Lemma eqb_right (a b k : CH.t) :
  CH.eqb a b = true -> CH.eqb k a = CH.eqb k b.
Proof.
  intros H. destruct (CH.eqb k a) eqn:Ea, (CH.eqb k b) eqn:Eb; try reflexivity.
  - rewrite (eqb_trans k a b Ea H) in Eb. discriminate.
  - rewrite (eqb_trans k b a Eb (eqb_sym a b H)) in Ea. discriminate.
Qed.

(** Keys equal for [__eq__] have the same binding. *)
Lemma get_eqb (d : CH.dict) (a b : CH.t) :
  CH.eqb a b = true -> CH.get d a = CH.get d b.
Proof.
  intros H. induction d as [|[k v] d IH]; [reflexivity|].
  cbn [CH.get]. rewrite (eqb_right a b k H), IH. reflexivity.
Qed.

Lemma Qle_bool_eq (x x' y y' : Q) :
  x == x' -> y == y' -> Qle_bool x y = Qle_bool x' y'.
Proof.
  intros Hx Hy.
  destruct (Qle_bool x y) eqn:E, (Qle_bool x' y') eqn:E'; try reflexivity.
  - apply Qle_bool_iff in E. rewrite Hx, Hy in E. apply Qle_bool_iff in E.
    congruence.
  - apply Qle_bool_iff in E'. rewrite <- Hx, <- Hy in E'.
    apply Qle_bool_iff in E'. congruence.
Qed.

Lemma stop_default_eqb (a b : CH.t) :
  CH.eqb a b = true -> CH.stop_default a = CH.stop_default b.
Proof.
  rewrite eqb_fields.
  intros (H1 & H2 & H3 & _ & _ & _ & H7 & _).
  unfold CH.stop_default, CH.doublers01. rewrite <- H3, <- H7.
  f_equal; apply Qle_bool_eq; try assumption; try reflexivity.
  rewrite H2. reflexivity.
Qed.

Lemma grows_refl (c : Q) (d : CH.dict) : grows c d d.
Proof. split; [auto | congruence]. Qed.

Lemma grows_trans (c : Q) (d1 d2 d3 : CH.dict) :
  grows c d1 d2 -> grows c d2 d3 -> grows c d1 d3.
Proof.
  intros [K1 N1] [K2 N2]. split.
  - auto.
  - intros k w Hk H3. destruct (CH.get d2 k) as [w2|] eqn:E2.
    + apply (N1 k w2); assumption.
    + apply (N2 k w); assumption.
Qed.

Lemma grows_le (c c' : Q) (d d' : CH.dict) :
  c <= c' -> grows c d d' -> grows c' d d'.
Proof.
  intros Hc [K N]. split; [assumption|].
  intros k w Hk H'. destruct (N k w Hk H') as [H1 H2]. split; [lra | assumption].
Qed.

Lemma grows_set (d : CH.dict) (s : CH.t) (v : CHValue.t) :
  CH.get d s = None -> CH.stop_default s = false ->
  grows (CH.chests s) d (CH.set d s v).
Proof.
  intros Hs Hgo. split; intros k w Hk; rewrite get_set;
    destruct (CH.eqb s k) eqn:E.
  - rewrite (get_eqb d s k E) in Hs. congruence.
  - trivial.
  - intros _. apply eqb_sym in E. split.
    + apply eqb_fields in E. destruct E as [E _]. rewrite E. apply Qle_refl.
    + rewrite (stop_default_eqb k s E). assumption.
  - congruence.
Qed.

(** A state that is not cached is still not cached after the solver has run
    on a state of fewer chests. *)
Lemma grows_fresh (c : Q) (d d' : CH.dict) (s : CH.t) :
  grows c d d' -> c < CH.chests s -> CH.get d s = None -> CH.get d' s = None.
Proof.
  intros [_ N] Hc Hs. destruct (CH.get d' s) as [w|] eqn:E; [|reflexivity].
  destruct (N s w Hs E) as [H _]. lra.
Qed.

Lemma branch_by_grows (s : CH.t) (t : CHType) value st value' st' :
  branch_by (fun s st _ st' => grows (CH.chests s) (solved st) (solved st'))
    s t value st value' st' ->
  grows (CH.chests s - 1) (solved st) (solved st').
Proof.
  unfold branch_by, weighted_by. destruct (draws s t).
  - intros (c & v & _ & H & _). rewrite next_chests in H. exact H.
  - intros [_ ->]. apply grows_refl.
Qed.

Lemma calculate_value_grows (n : nat) (s : CH.t) (st : store) v st' :
  calculate_value n s st = Ok (v, st') ->
  grows (CH.chests s) (solved st) (solved st').
Proof.
  revert n s st v st'.
  apply (calculate_value_rule
           (fun s st _ st' => grows (CH.chests s) (solved st) (solved st'))).
  intros s st v st' [(_ & _ & ->)|[(Hs & Ho & st1 & H1 & ->)|(Hs & Ho & H)]].
  - apply grows_refl.
  - rewrite next_chests in H1. cbn [solved] in *.
    apply (grows_le (CH.chests s - 1)); [lra | assumption].
  - destruct H as (v1 & st1 & v2 & st2 & v3 & st3 & c & st4
                   & H1 & H2 & H3 & Ec & H4 & ->).
    apply branch_by_grows in H1, H2, H3. cbn [solved] in *.
    destruct H4 as (c4 & v4 & _ & H4 & _). rewrite next_chests in H4.
    cbn [solved] in H4.
    pose proof (grows_trans _ _ _ _ (grows_trans _ _ _ _
                  (grows_trans _ _ _ _ H1 H2) H3) H4) as G.
    apply stop_false in Hs. destruct Hs as [Hget Hgo].
    apply (grows_trans _ _ (solved st4)).
    + apply (grows_le (CH.chests s - 1)); [lra | assumption].
    + apply grows_set; [|assumption].
      apply (grows_fresh _ _ _ _ G); [lra | assumption].
Qed.

Lemma calculate_value_cached (n : nat) (s : CH.t) (st : store) (w : CHValue.t) :
  CH.get (solved st) s = Some w ->
  calculate_value (S n) s st
  = Ok (w, mkStore (solved st) (Return s w :: Call s :: trace st)).
Proof.
  intros H. cbn [calculate_value]. apply activation_Ok. left.
  unfold CH.stop, CH.mem, CH.value. rewrite H. auto.
Qed.

(** A second run on the cache the first one left. *)
Lemma calculate_value_again (n : nat) :
  forall s st v st1,
    calculate_value n s st = Ok (v, st1) ->
    forall st2, solved st2 = solved st1 ->
      exists st3,
        calculate_value n s st2 = Ok (v, st3)
        /\ solved st3 = solved st1
        /\ (opens_saver s = false ->
            trace st3 = Return s v :: Call s :: trace st2).
Proof.
  induction n as [|n IH]; intros s st v st1 H st2 E2; [discriminate|].
  cbn [calculate_value] in H. apply activation_Ok in H.
  destruct H as [(Hs & -> & ->)|[(Hs & Ho & sta & H1 & ->)|(Hs & Ho & H)]].
  - cbn [solved] in E2.
    exists (mkStore (solved st2)
              (Return s (CH.value (solved st) s) :: Call s :: trace st2)).
    split; [|split; [exact E2 | reflexivity]].
    cbn [calculate_value]. apply activation_Ok. left.
    rewrite E2. auto.
  - cbn [solved] in E2.
    pose proof (calculate_value_grows _ _ _ _ _ H1) as G.
    rewrite next_chests in G. cbn [solved] in G.
    apply stop_false in Hs. destruct Hs as [Hget Hgo].
    destruct (IH _ _ _ _ H1
                (mkStore (solved st2) (Next s SAVER :: Call s :: trace st2))
                E2) as (st3 & H3 & E3 & _).
    exists (mkStore (solved st3) (Return s v :: trace st3)).
    split; [|split; [exact E3 | congruence]].
    cbn [calculate_value]. apply activation_Ok. right. left.
    split; [|split; [assumption | exists st3; auto]].
    apply stop_false. split; [|assumption]. rewrite E2.
    apply (grows_fresh _ _ _ _ G); [lra | assumption].
  - destruct H as (v1 & sta & v2 & stb & v3 & stc & c & st4
                   & _ & _ & _ & _ & _ & ->).
    cbn [solved] in E2.
    assert (Hget : CH.get (solved st2) s = Some v).
    { rewrite E2, get_set, eqb_refl. reflexivity. }
    exists (mkStore (solved st2) (Return s v :: Call s :: trace st2)).
    split; [apply calculate_value_cached; assumption|].
    split; [exact E2 | reflexivity].
Qed.

(** X1.  Cache keys.  [__eq__] is an equivalence on states, and the cache
    cannot tell equal keys apart: they have the same binding in every cache, a
    value stored under a key is found under every equal key, and storing it
    leaves the other keys as they were. *)
Theorem equal_keys_share_bindings :
  (forall a, CH.eqb a a = true)
  /\ (forall a b, CH.eqb a b = true -> CH.eqb b a = true)
  /\ (forall a b c,
        CH.eqb a b = true -> CH.eqb b c = true -> CH.eqb a c = true)
  /\ (forall d a b, CH.eqb a b = true -> CH.get d a = CH.get d b)
  /\ (forall d a b v,
        CH.eqb a b = true -> CH.get (CH.set d a v) b = Some v)
  /\ (forall d a b v,
        CH.eqb a b = false -> CH.get (CH.set d a v) b = CH.get d b).
Proof.
  split; [exact eqb_refl|]. split; [exact eqb_sym|].
  split; [exact eqb_trans|]. split; [exact get_eqb|].
  split; intros d a b v H; rewrite get_set, H; reflexivity.
Qed.

(** X2.  The cache only grows.  A run that returns keeps every binding of the
    cache as it was (nothing is removed or overwritten), and the keys it adds
    are states of at most as many chests as the state solved, whose hunt goes
    on: a hunt that is over is never cached. *)
Theorem cache_only_grows (n : nat) (s : CH.t) (st : store)
    (v : CHValue.t) (st' : store) :
  calculate_value n s st = Ok (v, st') ->
  (forall k w, CH.get (solved st) k = Some w -> CH.get (solved st') k = Some w)
  /\ (forall k w,
        CH.get (solved st) k = None -> CH.get (solved st') k = Some w ->
        CH.chests k <= CH.chests s /\ CH.stop_default k = false).
Proof. apply calculate_value_grows. Qed.

(** Two chests, one of them a mimic, and one save. *)
Lemma cache_only_grows_witness :
  exists v st',
    calculate_value 3 (CH.init 2 1 0 1 false 0 0 0 false false true)
      empty_store = Ok (v, st')
    /\ (forall k w, CH.get (solved empty_store) k = Some w ->
          CH.get (solved st') k = Some w)
    /\ (forall k w,
          CH.get (solved empty_store) k = None ->
          CH.get (solved st') k = Some w ->
          CH.chests k
          <= CH.chests (CH.init 2 1 0 1 false 0 0 0 false false true)
          /\ CH.stop_default k = false).
Proof.
  destruct (calculate_value 3 (CH.init 2 1 0 1 false 0 0 0 false false true)
              empty_store) as [[v st']| |] eqn:E;
    [|vm_compute in E; discriminate..].
  exists v, st'. split; [reflexivity|].
  apply (cache_only_grows _ _ _ _ _ E).
Defined.

(** X3.  A second call.  When [calculate_value(s)] has returned [v], a second
    call on the cache it left returns [v] again and leaves the cache as it is;
    and unless the saver is opened first in [s] (skip priority), the second
    call does nothing else: no transition, no chance, no recursive call. *)
Theorem second_call_same_value (n : nat) (s : CH.t) (st : store)
    (v : CHValue.t) (st1 : store) :
  calculate_value n s st = Ok (v, st1) ->
  exists st2,
    calculate_value n s st1 = Ok (v, st2)
    /\ solved st2 = solved st1
    /\ (opens_saver s = false ->
        trace st2 = Return s v :: Call s :: trace st1).
Proof.
  intros H. apply (calculate_value_again n s st v st1 H st1). reflexivity.
Qed.

(** Two chests and a saver, with skip priority: the saver is opened first. *)
Lemma second_call_same_value_witness :
  exists v st1 st2,
    calculate_value 3 (CH.init 2 0 1 0 true 0 0 0 false false false)
      empty_store = Ok (v, st1)
    /\ calculate_value 3 (CH.init 2 0 1 0 true 0 0 0 false false false) st1
       = Ok (v, st2)
    /\ solved st2 = solved st1
    /\ (opens_saver (CH.init 2 0 1 0 true 0 0 0 false false false) = false ->
        trace st2
        = Return (CH.init 2 0 1 0 true 0 0 0 false false false) v
          :: Call (CH.init 2 0 1 0 true 0 0 0 false false false)
          :: trace st1).
Proof.
  destruct (calculate_value 3 (CH.init 2 0 1 0 true 0 0 0 false false false)
              empty_store) as [[v st1]| |] eqn:E;
    [|vm_compute in E; discriminate..].
  destruct (second_call_same_value _ _ _ _ _ E) as (st2 & H).
  exists v, st1, st2. split; [reflexivity | exact H].
Defined.

(** ** The solver against the recursion without the cache *)

Lemma same_value_refl v : same_value v v.
Proof. repeat split; reflexivity. Qed.

Lemma same_value_sym v w : same_value v w -> same_value w v.
Proof. intros (H1 & H2 & H3). repeat split; symmetry; assumption. Qed.

Lemma same_value_trans u v w :
  same_value u v -> same_value v w -> same_value u w.
Proof.
  intros (H1 & H2 & H3) (G1 & G2 & G3).
  repeat split; etransitivity; eassumption.
Qed.

Lemma same_value_add v v' w w' :
  same_value v v' -> same_value w w' ->
  same_value (CHValue.add v w) (CHValue.add v' w').
Proof.
  intros (H1 & H2 & H3) (G1 & G2 & G3). unfold same_value, CHValue.add.
  cbn [CHValue.loot CHValue.perfect CHValue.armory].
  rewrite H1, H2, H3, G1, G2, G3. repeat split; reflexivity.
Qed.

Lemma same_value_mul v v' c c' :
  same_value v v' -> c == c' ->
  same_value (CHValue.mul v c) (CHValue.mul v' c').
Proof.
  intros (H1 & H2 & H3) G. unfold same_value, CHValue.mul.
  cbn [CHValue.loot CHValue.perfect CHValue.armory].
  rewrite H1, H2, H3, G. repeat split; reflexivity.
Qed.

(** *** Equal keys behave alike *)

Lemma Qeq_bool_eq' (x x' y y' : Q) :
  x == x' -> y == y' -> Qeq_bool x y = Qeq_bool x' y'.
Proof.
  intros Hx Hy.
  destruct (Qeq_bool x y) eqn:E, (Qeq_bool x' y') eqn:E'; try reflexivity.
  - apply Qeq_bool_iff in E. rewrite Hx, Hy in E. apply Qeq_bool_iff in E.
    congruence.
  - apply Qeq_bool_iff in E'. rewrite <- Hx, <- Hy in E'.
    apply Qeq_bool_iff in E'. congruence.
Qed.

Lemma decimal_div_eq (x x' y y' : Q) :
  x == x' -> y == y' ->
  match decimal_div x y, decimal_div x' y' with
  | inr c, inr c' => c == c'
  | inl e, inl e' => e = e'
  | _, _ => False
  end.
Proof.
  intros Hx Hy. unfold decimal_div.
  rewrite (Qeq_bool_eq' y y' 0 0 Hy (Qeq_refl 0)).
  rewrite (Qeq_bool_eq' x x' 0 0 Hx (Qeq_refl 0)).
  destruct (Qeq_bool y' 0) eqn:E; [reflexivity|].
  rewrite Hx, Hy. reflexivity.
Qed.

Lemma next_eqb (a b : CH.t) (t : CHType) :
  CH.eqb a b = true -> CH.eqb (CH.next a t) (CH.next b t) = true.
Proof.
  rewrite !eqb_fields. destruct a, b. cbn [CH.chests CH.mimics CH.savers
    CH.saves CH.ad CH.csaves CH.doublers CH.doubles CH.dd CH.perfect
    CH.chase CH.armory].
  intros (H1 & H2 & -> & -> & -> & -> & -> & -> & -> & -> & -> & ->).
  destruct t; cbn; rewrite ?H1, ?H2; repeat split; reflexivity.
Qed.

Lemma live_chests_eqb (a b : CH.t) :
  CH.eqb a b = true -> CH.live_chests a == CH.live_chests b.
Proof.
  rewrite eqb_fields. intros (H1 & _ & H3 & _ & H5 & _).
  unfold CH.live_chests. rewrite H1, H3, H5. reflexivity.
Qed.

Lemma chance_eqb (a b : CH.t) (t : CHType) :
  CH.eqb a b = true ->
  match CH.chance a t, CH.chance b t with
  | inr c, inr c' => c == c'
  | inl e, inl e' => e = e'
  | _, _ => False
  end.
Proof.
  intros H. pose proof (live_chests_eqb a b H) as HL.
  apply eqb_fields in H.
  destruct H as (H1 & H2 & H3 & _ & H5 & _ & H7 & _).
  destruct t; cbn [CH.chance]; unfold CH._chance_loot, CH._chance_mimic,
    CH._chance_doubler, CH.doublers01; apply decimal_div_eq;
    rewrite ?HL, ?H2, ?H3, ?H5, ?H7; try assumption; reflexivity.
Qed.

Lemma value_default_eqb (a b : CH.t) :
  CH.eqb a b = true -> CH.value_default a = CH.value_default b.
Proof.
  rewrite eqb_fields. intros (H1 & H2 & _).
  unfold CH.value_default.
  rewrite (Qle_bool_eq _ _ _ _ H1 H2).
  rewrite (Qle_bool_eq 0 0 _ _ (Qeq_refl 0) H1). reflexivity.
Qed.

Lemma Qgtb_eq (x x' y y' : Q) :
  x == x' -> y == y' -> Qgtb x y = Qgtb x' y'.
Proof. intros Hx Hy. unfold Qgtb. f_equal. apply Qle_bool_eq; assumption. Qed.

Lemma draws_eqb (a b : CH.t) (t : CHType) :
  CH.eqb a b = true -> draws a t = draws b t.
Proof.
  rewrite eqb_fields.
  intros (_ & H2 & H3 & H4 & H5 & H6 & H7 & _).
  destruct t; cbn [draws]; rewrite ?H3, ?H4, ?H5, ?H6, ?H7; try reflexivity.
  rewrite (Qgtb_eq _ _ 0 0 H2 (Qeq_refl 0)). reflexivity.
Qed.

Lemma opens_saver_eqb (a b : CH.t) :
  CH.eqb a b = true -> opens_saver a = opens_saver b.
Proof.
  rewrite eqb_fields.
  intros (_ & _ & H3 & _ & H5 & H6 & H7 & H8 & _ & _ & H11 & _).
  unfold opens_saver. rewrite H3, H5, H6, H7, H8, H11. reflexivity.
Qed.

Lemma reward_eqb (a b : CH.t) (c c' : Q) :
  CH.eqb a b = true -> c == c' -> same_value (reward a c) (reward b c').
Proof.
  rewrite eqb_fields.
  intros (_ & _ & _ & _ & _ & _ & _ & H8 & _ & _ & _ & H12) Hc.
  unfold reward, loot_rate, armory_rate, gain. rewrite H8, H12.
  apply same_value_mul; [apply same_value_refl|]. rewrite Hc. reflexivity.
Qed.

(** The recursion without the cache, by its guards. *)
Lemma uncached_body_guards (self : CH.t -> result CHValue.t) (s : CH.t) :
  uncached_body self s
  = if CH.stop_default s then Ok (CH.value_default s)
    else if opens_saver s then self (CH.next s SAVER)
    else
      result_bind (branch self s SAVER (CH.value_default s)) (fun v1 =>
      result_bind (branch self s DOUBLER v1) (fun v2 =>
      result_bind (branch self s MIMIC v2) (fun v3 =>
      result_bind (result_lift (CH.chance s LOOT)) (fun c =>
      branch self s LOOT (CHValue.add v3 (reward s c)))))).
Proof.
  unfold uncached_body, uncached_double_mimic_loot, opens_saver, branch, draws,
    reward.
  destruct (CH.stop_default s); [reflexivity|].
  destruct (CH.savers s >? 0)%Z; cbn [andb negb]; [|reflexivity].
  destruct (CH.ad s); cbn [andb negb]; [|reflexivity].
  destruct (CH.chase s && (CH.doubles s >? 0)%Z); [reflexivity|].
  destruct (negb (CH.chase s) && (CH.csaves s <=? 0)%Z); [reflexivity|].
  destruct (CH.doublers s <=? 0)%Z; reflexivity.
Qed.

Lemma branch_same (f g : CH.t -> result CHValue.t) (a b : CH.t)
    (t : CHType) (v v' : CHValue.t) :
  CH.eqb a b = true -> same_value v v' ->
  same_result (f (CH.next a t)) (g (CH.next b t)) ->
  same_result (branch f a t v) (branch g b t v').
Proof.
  intros H Hv Hr. unfold branch, uncached_weighted. rewrite (draws_eqb a b t H).
  destruct (draws b t); [|exact Hv].
  pose proof (chance_eqb a b t H) as Hc.
  destruct (CH.chance a t) as [e|c], (CH.chance b t) as [e'|c'];
    try contradiction; cbn [result_lift result_bind]; [exact Hc|].
  destruct (f (CH.next a t)) as [w| |], (g (CH.next b t)) as [w'| |];
    try contradiction; cbn [result_bind same_result] in *; try assumption.
  apply same_value_add; [assumption | apply same_value_mul; assumption].
Qed.

Lemma same_result_bind (r r' : result CHValue.t)
    (k k' : CHValue.t -> result CHValue.t) :
  same_result r r' ->
  (forall v v', same_value v v' -> same_result (k v) (k' v')) ->
  same_result (result_bind r k) (result_bind r' k').
Proof.
  intros Hr Hk. destruct r, r'; try contradiction; cbn; auto.
Qed.

Lemma uncached_eqb (n : nat) :
  forall a b, CH.eqb a b = true -> same_result (uncached n a) (uncached n b).
Proof.
  induction n as [|n IH]; intros a b H; [exact I|].
  cbn [uncached]. rewrite !uncached_body_guards.
  rewrite (stop_default_eqb a b H), (opens_saver_eqb a b H),
    (value_default_eqb a b H).
  destruct (CH.stop_default b); [apply same_value_refl|].
  destruct (opens_saver b); [apply IH, next_eqb, H|].
  assert (Hb : forall t v v', same_value v v' ->
            same_result (branch (uncached n) a t v) (branch (uncached n) b t v')).
  { intros t v v' Hv. apply branch_same; try assumption.
    apply IH, next_eqb, H. }
  apply same_result_bind; [apply Hb, same_value_refl|]. intros v1 v1' H1.
  apply same_result_bind; [apply Hb, H1|]. intros v2 v2' H2.
  apply same_result_bind; [apply Hb, H2|]. intros v3 v3' H3.
  pose proof (chance_eqb a b LOOT H) as Hc.
  destruct (CH.chance a LOOT) as [e|c], (CH.chance b LOOT) as [e'|c'];
    try contradiction; cbn [result_lift result_bind]; [exact Hc|].
  apply Hb. apply same_value_add; [assumption | apply reward_eqb; assumption].
Qed.

Lemma value_of_eqb (a b : CH.t) (v : CHValue.t) :
  CH.eqb a b = true -> value_of a v -> value_of b v.
Proof.
  intros H (n & w & E & Hv). pose proof (uncached_eqb n a b H) as Hr.
  rewrite E in Hr. destruct (uncached n b) as [w'| |] eqn:E'; try contradiction.
  exists n, w'. split; [exact E'|].
  apply (same_value_trans _ _ _ Hv Hr).
Qed.

(** *** More fuel, same value *)

Lemma uncached_body_mono (f g : CH.t -> result CHValue.t) (s : CH.t)
    (w : CHValue.t) :
  (forall s w, f s = Ok w -> g s = Ok w) ->
  uncached_body f s = Ok w -> uncached_body g s = Ok w.
Proof.
  intros Hfg. rewrite !uncached_body_guards.
  destruct (CH.stop_default s); [auto|].
  destruct (opens_saver s); [auto|].
  assert (Hb : forall t v v', branch f s t v = Ok v' ->
                 branch g s t v = Ok v').
  { intros t v v'. unfold branch, uncached_weighted.
    destruct (draws s t); [|auto].
    destruct (CH.chance s t) as [e|c]; [discriminate|].
    cbn [result_lift result_bind].
    destruct (f (CH.next s t)) as [w'| |] eqn:E; try discriminate.
    rewrite (Hfg _ _ E). auto. }
  destruct (branch f s SAVER _) as [v1| |] eqn:E1; try discriminate.
  rewrite (Hb _ _ _ E1). cbn [result_bind].
  destruct (branch f s DOUBLER _) as [v2| |] eqn:E2; try discriminate.
  rewrite (Hb _ _ _ E2). cbn [result_bind].
  destruct (branch f s MIMIC _) as [v3| |] eqn:E3; try discriminate.
  rewrite (Hb _ _ _ E3). cbn [result_bind].
  destruct (CH.chance s LOOT) as [e|c]; [discriminate|].
  cbn [result_lift result_bind]. apply Hb.
Qed.

Lemma uncached_more (n : nat) :
  forall s w, uncached n s = Ok w -> uncached (S n) s = Ok w.
Proof.
  induction n as [|n IH]; intros s w H; [discriminate|].
  change (uncached_body (uncached (S n)) s = Ok w).
  change (uncached_body (uncached n) s = Ok w) in H.
  revert H. apply uncached_body_mono. exact IH.
Qed.

Lemma uncached_le (n m : nat) (s : CH.t) (w : CHValue.t) :
  (n <= m)%nat -> uncached n s = Ok w -> uncached m s = Ok w.
Proof.
  intros Hle H. induction Hle as [|m Hle IH]; [assumption|].
  apply uncached_more. assumption.
Qed.

(** *** The solver against the recursion without the cache *)

(** A branch of the solver, against the same branch of the recursion without
    the cache. *)
Lemma branch_value_of (s : CH.t) (t : CHType) value st value' st'
    (w : CHValue.t) :
  branch_by (fun s st v st' =>
               faithful (solved st) -> faithful (solved st') /\ value_of s v)
    s t value st value' st' ->
  faithful (solved st) -> same_value value w ->
  faithful (solved st')
  /\ exists m w',
       (forall m', (m <= m')%nat -> branch (uncached m') s t w = Ok w')
       /\ same_value value' w'.
Proof.
  unfold branch_by, branch, uncached_weighted. destruct (draws s t).
  - intros (c & v & Ec & H & ->) Hd Hv.
    destruct (H Hd) as [Hd' (m & w1 & E1 & Hv1)]. split; [assumption|].
    exists m, (CHValue.add w (CHValue.mul w1 c)). split.
    + intros m' Hm'. rewrite Ec. cbn [result_lift result_bind].
      rewrite (uncached_le m m' _ _ Hm' E1). reflexivity.
    + apply same_value_add; [assumption|].
      apply same_value_mul; [assumption | reflexivity].
  - intros [-> ->] Hd Hv. split; [assumption|].
    exists O, w. split; [reflexivity | assumption].
Qed.

Lemma faithful_set (d : CH.dict) (s : CH.t) (v : CHValue.t) :
  faithful d -> value_of s v -> faithful (CH.set d s v).
Proof.
  intros Hd Hv k w. rewrite get_set. destruct (CH.eqb s k) eqn:E.
  - intros H. injection H as <-. apply (value_of_eqb s k); assumption.
  - apply Hd.
Qed.

(** The solver returns the value of the recursion without the cache, and
    keeps the cache exact. *)
Lemma calculate_value_faithful (n : nat) (s : CH.t) (st : store) v st' :
  calculate_value n s st = Ok (v, st') ->
  faithful (solved st) -> faithful (solved st') /\ value_of s v.
Proof.
  revert n s st v st'.
  apply (calculate_value_rule
           (fun s st v st' =>
              faithful (solved st) -> faithful (solved st') /\ value_of s v)).
  intros s st v st' [(Hs & -> & ->)|[(Hs & Ho & st1 & H1 & ->)|(Hs & Ho & H)]]
    Hd.
  - split; [assumption|]. unfold CH.stop, CH.mem, CH.value in *.
    destruct (CH.get (solved st) s) as [w|] eqn:Eg.
    + apply (Hd s w Eg).
    + cbn [orb] in Hs. exists 1%nat, (CH.value_default s).
      split; [|apply same_value_refl].
      cbn [uncached]. rewrite uncached_body_guards, Hs. reflexivity.
  - apply stop_false in Hs. destruct Hs as [_ Hgo].
    destruct (H1 Hd) as [Hd1 (m & w & E & Hv)]. split; [assumption|].
    exists (S m), w. split; [|assumption].
    cbn [uncached]. rewrite uncached_body_guards, Hgo, Ho. assumption.
  - apply stop_false in Hs. destruct Hs as [_ Hgo].
    destruct H as (v1 & st1 & v2 & st2 & v3 & st3 & c & st4
                   & H1 & H2 & H3 & Ec & H4 & ->).
    destruct (branch_value_of _ _ _ _ _ _ _ H1 Hd (same_value_refl _))
      as [Hd1 (m1 & w1 & E1 & S1)].
    destruct (branch_value_of _ _ _ _ _ _ _ H2 Hd1 S1)
      as [Hd2 (m2 & w2 & E2 & S2)].
    destruct (branch_value_of _ _ _ _ _ _ _ H3 Hd2 S2)
      as [Hd3 (m3 & w3 & E3 & S3)].
    assert (H4' : branch_by
              (fun s st v st' =>
                 faithful (solved st) -> faithful (solved st') /\ value_of s v)
              s LOOT (CHValue.add v3 (reward s c))
              (mkStore (solved st3) (Chance s LOOT :: trace st3)) v st4)
      by exact H4.
    destruct (branch_value_of _ _ _ _ _ _
                (CHValue.add w3 (reward s c)) H4' Hd3
                (same_value_add _ _ _ _ S3 (same_value_refl _)))
      as [Hd4 (m4 & w4 & E4 & S4)].
    assert (Hv : value_of s v).
    { set (m := Nat.max (Nat.max m1 m2) (Nat.max m3 m4)).
      exists (S m), w4. split; [|assumption].
      cbn [uncached]. rewrite uncached_body_guards, Hgo, Ho.
      rewrite (E1 m) by lia. cbn [result_bind].
      rewrite (E2 m) by lia. cbn [result_bind].
      rewrite (E3 m) by lia. cbn [result_bind].
      rewrite Ec. cbn [result_lift result_bind]. apply E4. lia. }
    split; [|assumption]. cbn [solved]. apply faithful_set; assumption.
Qed.

(** The recursion without the cache has one value for a state. *)
Lemma uncached_unique (n m : nat) (s : CH.t) (w w' : CHValue.t) :
  uncached n s = Ok w -> uncached m s = Ok w' -> w = w'.
Proof.
  intros H H'.
  pose proof (uncached_le n (Nat.max n m) s w (Nat.le_max_l n m) H) as E.
  pose proof (uncached_le m (Nat.max n m) s w' (Nat.le_max_r n m) H') as E'.
  congruence.
Qed.

(** From a faithful cache, the solver returns the value of the recursion
    without the cache, for a state of the invariant. *)
Lemma calculate_value_value_of (N : nat) (s : CH.t) (st : store)
    (w : CHValue.t) (n : nat) :
  Inv s -> CH.chests s <= inject_Z (Z.of_nat N) -> faithful (solved st) ->
  uncached n s = Ok w ->
  exists v st', calculate_value (S N) s st = Ok (v, st') /\ same_value v w.
Proof.
  intros HI HN Hf Hw.
  destruct (calculate_value_any Inv N s st (fun s H => H) Inv_next HI HN)
    as (v & st' & tr & E & _).
  destruct (calculate_value_faithful _ _ _ _ _ E Hf)
    as [_ (n' & w' & E' & Hv)].
  rewrite (uncached_unique _ _ _ _ _ Hw E'). exists v, st'. auto.
Qed.

(** X4.  Equal keys, equal hunts.  [__eq__] compares every attribute the solver
    reads: two equal states stop alike, have the same default value, equal
    successors and equal chances (or the same exception), and the recursion
    without the cache gives them the same result. *)
Theorem equal_keys_same_hunt (a b : CH.t) :
  CH.eqb a b = true ->
  CH.stop_default a = CH.stop_default b
  /\ CH.value_default a = CH.value_default b
  /\ (forall t, CH.eqb (CH.next a t) (CH.next b t) = true)
  /\ (forall t,
        match CH.chance a t, CH.chance b t with
        | inr c, inr c' => c == c'
        | inl e, inl e' => e = e'
        | _, _ => False
        end)
  /\ (forall n, same_result (uncached n a) (uncached n b)).
Proof.
  intros H. split; [apply stop_default_eqb; assumption|].
  split; [apply value_default_eqb; assumption|].
  split; [intros t; apply next_eqb; assumption|].
  split; [intros t; apply chance_eqb; assumption|].
  intros n. apply uncached_eqb. assumption.
Qed.

(** Thirty chests written as [30] and as [60/2]. *)
Lemma equal_keys_same_hunt_witness :
  CH.stop_default (CH.init 30 4 1 0 false 0 0 0 false false true)
  = CH.stop_default (CH.init (60 # 2) 4 1 0 false 0 0 0 false false true)
  /\ CH.value_default (CH.init 30 4 1 0 false 0 0 0 false false true)
     = CH.value_default (CH.init (60 # 2) 4 1 0 false 0 0 0 false false true)
  /\ (forall t,
        CH.eqb (CH.next (CH.init 30 4 1 0 false 0 0 0 false false true) t)
               (CH.next (CH.init (60 # 2) 4 1 0 false 0 0 0 false false true) t)
        = true)
  /\ (forall t,
        match CH.chance (CH.init 30 4 1 0 false 0 0 0 false false true) t,
              CH.chance (CH.init (60 # 2) 4 1 0 false 0 0 0 false false true) t
        with
        | inr c, inr c' => c == c'
        | inl e, inl e' => e = e'
        | _, _ => False
        end)
  /\ (forall n,
        same_result
          (uncached n (CH.init 30 4 1 0 false 0 0 0 false false true))
          (uncached n (CH.init (60 # 2) 4 1 0 false 0 0 0 false false true))).
Proof.
  apply (equal_keys_same_hunt
           (CH.init 30 4 1 0 false 0 0 0 false false true)
           (CH.init (60 # 2) 4 1 0 false 0 0 0 false false true)).
  reflexivity.
Defined.

Lemma faithful_empty : faithful (solved empty_store).
Proof. intros k w H. discriminate. Qed.



(** ** The states the solver visits *)

Lemma copy_normalised (s : CH.t) : normalised s -> CH.copy s = s.
Proof.
  unfold normalised, CH.copy, CH.init.
  destruct s as [c m sv sa a cs d ds dd p ar ch].
  cbn [CH.chests CH.mimics CH.savers CH.saves CH.ad CH.csaves CH.doublers
       CH.doubles CH.dd CH.perfect CH.armory CH.chase].
  intros H. destruct (Z.gtb_spec d 1) as [Hd|Hd]; [|reflexivity].
  destruct (H ltac:(lia)) as [-> ->]. reflexivity.
Qed.

Lemma init_normalised c m sv sa a cs d ds dd p ar :
  normalised (CH.init c m sv sa a cs d ds dd p ar).
Proof.
  unfold normalised, CH.init. cbn [CH.doublers CH.dd CH.perfect].
  intros H. apply Z.gtb_lt in H. rewrite H. auto.
Qed.

Lemma next_normalised (s : CH.t) (t : CHType) : normalised (CH.next s t).
Proof.
  unfold normalised.
  assert (H : (1 < CH.doublers s)%Z ->
              CH.dd (CH.next s t) = true /\ CH.perfect (CH.next s t) = false).
  { intros Hd. apply Z.gtb_lt in Hd.
    destruct t; cbn [CH.next CH.copy CH.init CH.dd CH.perfect CH.doublers];
      rewrite Hd; auto. }
  intros Hd. apply H. rewrite next_doublers in Hd. destruct t; lia.
Qed.

Lemma next_flags (s : CH.t) (t : CHType) :
  CH.ad (CH.next s t) = CH.ad s /\ CH.armory (CH.next s t) = CH.armory s.
Proof. destruct t; split; reflexivity. Qed.

Lemma next_normalised_flags (s : CH.t) (t : CHType) :
  normalised s ->
  CH.dd (CH.next s t) = CH.dd s /\ CH.perfect (CH.next s t) = CH.perfect s.
Proof.
  intros H. unfold CH.next. rewrite (copy_normalised s H).
  destruct t; split; reflexivity.
Qed.

(** *** The chances are probabilities *)

Lemma going_live (s : CH.t) :
  0 <= CH.mimics s -> (0 <= CH.savers s)%Z -> CH.stop_default s = false ->
  0 < CH.chests s /\ 0 < CH.live_chests s
  /\ CH.mimics s + inject_Z (CH.savers s) + inject_Z (CH.doublers01 s)
     < CH.chests s
  /\ 0 <= inject_Z (CH.doublers01 s).
Proof.
  intros Hm Hs Hgo. apply stop_default_false in Hgo. destruct Hgo as [Hn Hc].
  rewrite <- doublers01_active in Hn. apply inject_Z_nonneg in Hs.
  assert (Hd : 0 <= inject_Z (CH.doublers01 s))
    by (apply inject_Z_nonneg; unfold CH.doublers01;
        destruct (_ >? _)%Z; lia).
  repeat split; try assumption.
  unfold CH.live_chests. destruct (CH.ad s);
    change (inject_Z 0) with 0; lra.
Qed.

Lemma div_le_1 (n e : Q) : n <= e -> 0 < e -> n / e <= 1.
Proof.
  intros Hn He. apply Qle_shift_div_r; [assumption | lra].
Qed.

Lemma chance_range (s : CH.t) (t : CHType) :
  0 <= CH.mimics s -> (0 <= CH.savers s)%Z -> CH.stop_default s = false ->
  exists c, CH.chance s t = inr c /\ 0 <= c /\ c <= 1.
Proof.
  intros Hm Hs Hgo.
  destruct (going_live s Hm Hs Hgo) as (Hc & Hl & Hn & Hd).
  pose proof (inject_Z_nonneg _ Hs) as Hs'.
  assert (He : 0 < effectiveChests s)
    by (rewrite <- live_chests_effective; exact Hl).
  exists (weight s t). split; [apply chance_weight; assumption|].
  assert (Hsv : 0 <= inject_Z (if CH.ad s then 0%Z else CH.savers s)
                /\ CH.live_chests s
                   - inject_Z (if CH.ad s then 0%Z else CH.savers s)
                   == CH.chests s - inject_Z (CH.savers s)).
  { unfold CH.live_chests. destruct (CH.ad s);
      change (inject_Z 0) with 0; split; try assumption; try lra; ring. }
  destruct Hsv as [Hsv1 Hsv2].
  assert (Hlive : CH.chests s - inject_Z (CH.savers s) <= CH.live_chests s).
  { unfold CH.live_chests. destruct (CH.ad s);
      change (inject_Z 0) with 0; lra. }
  destruct t; cbn [weight]; split;
    try (apply div_nonneg; [|assumption]);
    try (apply div_le_1; [|assumption]); try lra.
Qed.

(** *** What the solver does under its guards *)

Lemma branch_by_guarded (s : CH.t) (t : CHType) value st value' st' :
  CH.stop_default s = false -> opens_saver s = false ->
  branch_by (fun s st _ st' =>
               exists tr, trace st' = tr ++ trace st /\ Forall guarded tr)
    s t value st value' st' ->
  exists tr, trace st' = tr ++ trace st /\ Forall guarded tr.
Proof.
  intros Hgo Ho. unfold branch_by. destruct (draws s t) eqn:Ed.
  - intros (c & v & _ & (tr & E & F) & _). cbn [trace] in E.
    exists (tr ++ [Next s t; Chance s t]). split.
    + rewrite E, <- app_assoc. reflexivity.
    + apply Forall_app. split; [assumption|].
      repeat constructor; cbn [guarded]; try rewrite Ho; auto.
  - intros [_ ->]. exists []. split; [reflexivity | constructor].
Qed.

Lemma calculate_value_guarded (n : nat) (s : CH.t) (st : store) v st' :
  calculate_value n s st = Ok (v, st') ->
  exists tr, trace st' = tr ++ trace st /\ Forall guarded tr.
Proof.
  revert n s st v st'.
  apply (calculate_value_rule
           (fun s st _ st' =>
              exists tr, trace st' = tr ++ trace st /\ Forall guarded tr)).
  intros s st v st' [(_ & _ & ->)|[(Hs & Ho & st1 & H1 & ->)|(Hs & Ho & H)]].
  - exists [Return s v; Call s]. split; [reflexivity|].
    repeat constructor.
  - apply stop_false in Hs. destruct Hs as [_ Hgo].
    destruct H1 as (tr & E & F). cbn [trace] in E |- *.
    exists (Return s v :: tr ++ [Next s SAVER; Call s]). split.
    + rewrite E. cbn [app]. rewrite <- app_assoc. reflexivity.
    + constructor; [exact I|]. apply Forall_app. split; [assumption|].
      repeat constructor; cbn [guarded]; try rewrite Ho; auto.
  - apply stop_false in Hs. destruct Hs as [_ Hgo].
    destruct H as (v1 & st1 & v2 & st2 & v3 & st3 & c & st4
                   & H1 & H2 & H3 & Ec & H4 & ->).
    apply (branch_by_guarded s _ _ _ _ _ Hgo Ho) in H1, H2, H3.
    assert (H4' : branch_by
              (fun s st _ st' =>
                 exists tr, trace st' = tr ++ trace st /\ Forall guarded tr)
              s LOOT (CHValue.add v3 (reward s c))
              (mkStore (solved st3) (Chance s LOOT :: trace st3)) v st4)
      by exact H4.
    apply (branch_by_guarded s _ _ _ _ _ Hgo Ho) in H4'.
    destruct H1 as (tr1 & E1 & F1), H2 as (tr2 & E2 & F2),
             H3 as (tr3 & E3 & F3), H4' as (tr4 & E4 & F4).
    cbn [trace] in *.
    exists (Return s v :: tr4 ++ Chance s LOOT :: tr3 ++ tr2 ++ tr1 ++ [Call s]).
    split.
    + rewrite E4, E3, E2, E1. cbn [app].
      rewrite <- !app_assoc. cbn [app]. rewrite <- !app_assoc. reflexivity.
    + constructor; [exact I|]. apply Forall_app. split; [assumption|].
      constructor; [cbn [guarded draws]; auto|].
      repeat (apply Forall_app; split; [assumption|]).
      repeat constructor.
Qed.

(** *** The special chests stay among the chests *)

Lemma whole_lt_le (x y : Q) : whole x -> whole y -> x < y -> x + 1 <= y.
Proof.
  intros [a Ha] [b Hb] H. rewrite Ha, Hb in H |- *.
  rewrite <- Zlt_Qlt in H. change 1 with (inject_Z 1).
  rewrite <- inject_Z_plus, <- Zle_Qle. lia.
Qed.

Lemma whole_plus (x y : Q) : whole x -> whole y -> whole (x + y).
Proof.
  intros [a Ha] [b Hb]. exists (a + b)%Z.
  rewrite Ha, Hb, inject_Z_plus. reflexivity.
Qed.

Lemma whole_Z (z : Z) : whole (inject_Z z).
Proof. exists z. reflexivity. Qed.

Lemma whole_activeDoublers (s : CH.t) : whole (activeDoublers s).
Proof.
  unfold activeDoublers. destruct (_ >? _)%Z; [exists 1%Z | exists 0%Z];
    reflexivity.
Qed.

Lemma fits_next (s : CH.t) (t : CHType) :
  counts s /\ fits s -> explores s t = true ->
  counts (CH.next s t) /\ fits (CH.next s t).
Proof.
  intros [HC HF] Hex. split; [apply counts_next; assumption|].
  pose proof (explores_going s t Hex) as Hgo.
  apply stop_default_false in Hgo. destruct Hgo as [Hn Hpos].
  destruct HC as [(Hc & Hm & Hsv & Hs & Hcs & Hd & Hdb) [Wc Wm]].
  assert (Hle : CH.mimics s + inject_Z (CH.savers s) + activeDoublers s + 1
                <= CH.chests s).
  { apply whole_lt_le; try assumption.
    repeat apply whole_plus; try assumption;
      [apply whole_Z | apply whole_activeDoublers]. }
  unfold fits. rewrite next_chests, next_mimics, next_savers.
  assert (Hact : activeDoublers (CH.next s t) <= activeDoublers s).
  { unfold activeDoublers. rewrite next_doublers.
    destruct t; try apply Qle_refl.
    destruct (Z.gtb_spec (CH.doublers s - 1) 0),
             (Z.gtb_spec (CH.doublers s) 0); try lra. lia. }
  destruct t; cbv iota; try lra.
  unfold Z.sub. rewrite inject_Z_plus, inject_Z_opp.
  change (inject_Z 1) with 1. lra.
Qed.

Lemma valid_fits (s : CH.t) : valid s -> fits s.
Proof.
  unfold valid, fits. intros (_ & _ & _ & _ & _ & Hd & _ & H).
  assert (activeDoublers s <= inject_Z (CH.doublers s)).
  { unfold activeDoublers. destruct (Z.gtb_spec (CH.doublers s) 0).
    - apply inject_Z_ge_1. assumption.
    - apply inject_Z_nonneg. assumption. }
  lra.
Qed.

(** X6.  [copy].  A state made by the constructor or by [next] is its own copy,
    [chase] included; every transition keeps [ad] and [armory], and from such a
    state it keeps [dd] and [perfect] too. *)
Theorem copy_is_identity :
  (forall c m sv sa a cs d ds dd p ar,
      CH.copy (CH.init c m sv sa a cs d ds dd p ar)
      = CH.init c m sv sa a cs d ds dd p ar)
  /\ (forall s t, CH.copy (CH.next s t) = CH.next s t)
  /\ (forall s t,
        CH.ad (CH.next s t) = CH.ad s /\ CH.armory (CH.next s t) = CH.armory s)
  /\ (forall s t t',
        CH.dd (CH.next (CH.next s t) t') = CH.dd (CH.next s t)
        /\ CH.perfect (CH.next (CH.next s t) t') = CH.perfect (CH.next s t))
  /\ (forall c m sv sa a cs d ds dd p ar t,
        CH.dd (CH.next (CH.init c m sv sa a cs d ds dd p ar) t)
        = CH.dd (CH.init c m sv sa a cs d ds dd p ar)
        /\ CH.perfect (CH.next (CH.init c m sv sa a cs d ds dd p ar) t)
           = CH.perfect (CH.init c m sv sa a cs d ds dd p ar)).
Proof.
  split; [intros; apply copy_normalised, init_normalised|].
  split; [intros; apply copy_normalised, next_normalised|].
  split; [exact next_flags|].
  split; [intros; apply next_normalised_flags, next_normalised|].
  intros. apply next_normalised_flags, init_normalised.
Qed.

(** X8.  What the solver never does.  Whatever the state and the cache, in a
    run that returns: [next] is only invoked, and [chance] only evaluated, in a
    state whose hunt goes on; a transition is either the saver opened first
    (skip priority) or along a branch whose guard holds; and a chance is only
    evaluated for a branch whose guard holds, never in a state where the saver
    is opened first.  So no mimic is opened without a save or a crystal save,
    and with skip priority the chance of a saver is never evaluated. *)
Theorem solver_acts_under_guards (n : nat) (s : CH.t) (st : store)
    (v : CHValue.t) (st' : store) :
  calculate_value n s st = Ok (v, st') ->
  exists tr,
    trace st' = tr ++ trace st
    /\ (forall s' t, In (Next s' t) tr ->
          CH.stop_default s' = false
          /\ (if opens_saver s' then t = SAVER else draws s' t = true))
    /\ (forall s' t, In (Chance s' t) tr ->
          CH.stop_default s' = false /\ opens_saver s' = false
          /\ draws s' t = true)
    /\ (forall s', In (Next s' MIMIC) tr ->
          0 < CH.mimics s'
          /\ ((0 < CH.saves s')%Z \/ (0 < CH.csaves s')%Z))
    /\ (forall s', In (Chance s' SAVER) tr -> CH.ad s' = false).
Proof.
  intros H. destruct (calculate_value_guarded n s st v st' H) as (tr & E & F).
  rewrite Forall_forall in F.
  exists tr. split; [exact E|].
  split; [intros s' t Hin; exact (F _ Hin)|].
  split; [intros s' t Hin; exact (F _ Hin)|].
  split.
  - intros s' Hin. destruct (F _ Hin) as [_ Hg]. cbn [guarded] in Hg.
    destruct (opens_saver s'); [discriminate|]. cbn [draws] in Hg.
    apply andb_true_iff in Hg. destruct Hg as [Hm Ht].
    apply Qgtb_true in Hm. apply orb_true_iff in Ht.
    split; [assumption|]. destruct Ht as [Ht|Ht]; apply Z.gtb_lt in Ht; auto.
  - intros s' Hin. destruct (F _ Hin) as (_ & _ & Hg). cbn [draws] in Hg.
    apply andb_true_iff in Hg. destruct Hg as [_ Hg].
    apply negb_true_iff in Hg. exact Hg.
Qed.

(** Five chests: a mimic, a saver and a doubler, with skip priority and a
    crystal save.  The hunt goes on: the loot chest is among the chests
    opened from the initial state, its chance among the chances
    evaluated. *)
Lemma solver_acts_under_guards_witness :
  exists v st' tr,
    calculate_value 6 (CH.init 5 1 1 0 true 1 1 0 false false true) empty_store
    = Ok (v, st')
    /\ trace st' = tr ++ trace empty_store
    /\ (forall s' t, In (Next s' t) tr ->
          CH.stop_default s' = false
          /\ (if opens_saver s' then t = SAVER else draws s' t = true))
    /\ (forall s' t, In (Chance s' t) tr ->
          CH.stop_default s' = false /\ opens_saver s' = false
          /\ draws s' t = true)
    /\ (forall s', In (Next s' MIMIC) tr ->
          0 < CH.mimics s'
          /\ ((0 < CH.saves s')%Z \/ (0 < CH.csaves s')%Z))
    /\ (forall s', In (Chance s' SAVER) tr -> CH.ad s' = false)
    /\ In (Next (CH.init 5 1 1 0 true 1 1 0 false false true) MIMIC) tr
    /\ In (Chance (CH.init 5 1 1 0 true 1 1 0 false false true) LOOT) tr.
Proof.
  destruct (calculate_value 6 (CH.init 5 1 1 0 true 1 1 0 false false true)
              empty_store) as [[v st']| |] eqn:E;
    [|vm_compute in E; discriminate..].
  destruct (solver_acts_under_guards _ _ _ _ _ E)
    as (tr & Etr & H1 & H2 & H3 & H4).
  exists v, st', tr. split; [reflexivity|]. split; [exact Etr|].
  split; [exact H1|]. split; [exact H2|]. split; [exact H3|].
  split; [exact H4|].
  cbn [trace empty_store] in Etr. rewrite app_nil_r in Etr. subst tr.
  vm_compute in E. injection E as _ <-. vm_compute.
  split; repeat first [left; reflexivity | right].
Defined.

(** ** The values the solver returns *)

Lemma draws_explores (s : CH.t) (t : CHType) :
  CH.stop_default s = false -> draws s t = true -> explores s t = true.
Proof.
  intros Hgo H. unfold explores. rewrite Hgo. cbn [negb andb].
  destruct t; cbn [draws] in H; try assumption; try reflexivity.
  apply andb_true_iff in H. tauto.
Qed.

Lemma opens_saver_explores (s : CH.t) :
  CH.stop_default s = false -> opens_saver s = true ->
  explores s SAVER = true.
Proof.
  intros Hgo H. unfold explores. rewrite Hgo. cbn [negb andb].
  unfold opens_saver in H. rewrite !andb_true_iff in H. tauto.
Qed.

(** Once the saver is not opened first, the divisor of the chances is
    positive. *)
Lemma live_chests_pos (s : CH.t) :
  Inv s -> CH.stop_default s = false -> opens_saver s = false ->
  0 < effectiveChests s.
Proof.
  intros HI Hgo Ho. apply effectiveChests_pos; try assumption.
  intros Had Hs. unfold opens_saver in Ho. rewrite Had, Hs in Ho.
  cbn [andb] in Ho. apply orb_false_iff in Ho. tauto.
Qed.

Lemma chance_drawn_nonneg (s : CH.t) (t : CHType) (c : Q) :
  Inv s -> CH.stop_default s = false -> opens_saver s = false ->
  draws s t = true -> CH.chance s t = inr c -> 0 <= c.
Proof.
  intros HI Hgo Ho Hd Ec.
  pose proof (live_chests_pos s HI Hgo Ho) as He.
  pose proof (proj1 (stop_default_false s) Hgo) as [Hn Hc].
  rewrite (chance_weight s t Hc He) in Ec. injection Ec as <-.
  destruct HI as (_ & Hs & Hdb). apply inject_Z_nonneg in Hs.
  rewrite <- doublers01_active in Hn.
  assert (Hd1 : 0 <= inject_Z (CH.doublers01 s))
    by (apply inject_Z_nonneg; unfold CH.doublers01;
        destruct (_ >? _)%Z; lia).
  rewrite <- live_chests_effective in He.
  destruct t; cbn [weight]; apply div_nonneg; try assumption.
  - unfold CH.live_chests in *. destruct (CH.ad s);
      change (inject_Z 0) with 0 in *; lra.
  - cbn [draws] in Hd. apply andb_true_iff in Hd. destruct Hd as [Hd _].
    apply Qgtb_true in Hd. lra.
Qed.

Lemma rates_nonneg (s : CH.t) : 0 <= loot_rate s /\ 0 <= armory_rate s.
Proof.
  unfold loot_rate, armory_rate. destruct (CH.armory s).
  - split; unfold Qle; vm_compute; discriminate.
  - split; lra.
Qed.

Lemma gain_pos (s : CH.t) : 0 <= inject_Z (gain s).
Proof.
  apply inject_Z_nonneg. unfold gain. destruct (_ >? _)%Z; lia.
Qed.

Lemma nonneg_add (v w : CHValue.t) (c : Q) :
  nonneg v -> nonneg w -> 0 <= c ->
  nonneg (CHValue.add v (CHValue.mul w c)).
Proof.
  intros [H1 H2] [G1 G2] Hc. unfold nonneg, CHValue.add, CHValue.mul.
  cbn [CHValue.loot CHValue.armory].
  pose proof (Qmult_le_0_compat _ _ G1 Hc).
  pose proof (Qmult_le_0_compat _ _ G2 Hc). split; lra.
Qed.

Lemma nonneg_default (s : CH.t) : nonneg (CH.value_default s).
Proof. unfold nonneg, CH.value_default. cbn. split; lra. Qed.

Lemma nonneg_reward (s : CH.t) (v : CHValue.t) (c : Q) :
  nonneg v -> 0 <= c -> nonneg (CHValue.add v (reward s c)).
Proof.
  intros Hv Hc. unfold reward. apply nonneg_add; try assumption.
  - split; apply rates_nonneg.
  - apply Qmult_le_0_compat; [assumption | apply gain_pos].
Qed.

Lemma branch_by_nonneg (s : CH.t) (t : CHType) value st value' st' :
  Inv s -> CH.stop_default s = false -> opens_saver s = false ->
  branch_by (fun s st v st' =>
               Inv s -> nonneg_cache (solved st) ->
               nonneg_cache (solved st') /\ nonneg v)
    s t value st value' st' ->
  nonneg_cache (solved st) -> nonneg value ->
  nonneg_cache (solved st') /\ nonneg value'.
Proof.
  intros HI Hgo Ho. unfold branch_by. destruct (draws s t) eqn:Ed.
  - intros (c & v & Ec & H & ->) Hd Hv.
    destruct (H (Inv_next s t HI (draws_explores s t Hgo Ed)) Hd) as [Hd' Hv'].
    split; [assumption|]. apply nonneg_add; try assumption.
    apply (chance_drawn_nonneg s t); assumption.
  - intros [-> ->]. auto.
Qed.

(** From a cache of such values, the solver returns no negative loot or
    armory for a state of the invariant. *)
Lemma calculate_value_nonneg (n : nat) (s : CH.t) (st : store) v st' :
  calculate_value n s st = Ok (v, st') ->
  Inv s -> nonneg_cache (solved st) ->
  nonneg_cache (solved st') /\ nonneg v.
Proof.
  revert n s st v st'.
  apply (calculate_value_rule
           (fun s st v st' =>
              Inv s -> nonneg_cache (solved st) ->
              nonneg_cache (solved st') /\ nonneg v)).
  intros s st v st' [(Hs & -> & ->)|[(Hs & Ho & st1 & H1 & ->)|(Hs & Ho & H)]]
    HI Hd.
  - split; [assumption|]. unfold CH.value.
    destruct (CH.get (solved st) s) as [w|] eqn:Eg;
      [apply (Hd s w Eg) | apply nonneg_default].
  - apply stop_false in Hs. destruct Hs as [_ Hgo].
    apply H1; [|assumption].
    apply Inv_next; [assumption | apply opens_saver_explores; assumption].
  - apply stop_false in Hs. destruct Hs as [_ Hgo].
    destruct H as (v1 & st1 & v2 & st2 & v3 & st3 & c & st4
                   & H1 & H2 & H3 & Ec & H4 & ->).
    destruct (branch_by_nonneg _ _ _ _ _ _ HI Hgo Ho H1 Hd (nonneg_default s))
      as [Hd1 N1].
    destruct (branch_by_nonneg _ _ _ _ _ _ HI Hgo Ho H2 Hd1 N1) as [Hd2 N2].
    destruct (branch_by_nonneg _ _ _ _ _ _ HI Hgo Ho H3 Hd2 N2) as [Hd3 N3].
    assert (Hc : 0 <= c)
      by (apply (chance_drawn_nonneg s LOOT); auto).
    assert (H4' : branch_by
              (fun s st v st' =>
                 Inv s -> nonneg_cache (solved st) ->
                 nonneg_cache (solved st') /\ nonneg v)
              s LOOT (CHValue.add v3 (reward s c))
              (mkStore (solved st3) (Chance s LOOT :: trace st3)) v st4)
      by exact H4.
    destruct (branch_by_nonneg _ _ _ _ _ _ HI Hgo Ho H4' Hd3
                (nonneg_reward s v3 c N3 Hc)) as [Hd4 N4].
    split; [|assumption]. cbn [solved]. intros k w. rewrite get_set.
    destruct (CH.eqb s k); [intros E; injection E as <-; assumption|].
    apply Hd4.
Qed.

(** *** Without the armory *)











Lemma nat_above (q : Q) : exists N : nat, q <= inject_Z (Z.of_nat N).
Proof.
  exists (Z.to_nat (Z.max 0 (Qceiling q))).
  rewrite Z2Nat.id by lia.
  apply Qle_trans with (inject_Z (Qceiling q)); [apply Qle_ceiling|].
  rewrite <- Zle_Qle. lia.
Qed.

(** No field of a value of the recursion is negative. *)
Lemma uncached_nonneg (n : nat) (s : CH.t) (w : CHValue.t) :
  Inv s -> uncached n s = Ok w -> nonneg w /\ 0 <= CHValue.perfect w.
Proof.
  intros HI Hw. destruct (nat_above (CH.chests s)) as [N HN].
  destruct (calculate_value_value_of N s empty_store w n HI HN
              faithful_empty Hw) as (v & st' & E & (V1 & V2 & V3)).
  assert (Hc : nonneg_cache (solved empty_store))
    by (intros k x H; discriminate).
  destruct (calculate_value_nonneg _ _ _ _ _ E HI Hc) as [_ [L A]].
  destruct (calculate_value_Inv N s empty_store HI sound_empty HN)
    as (v' & st'' & tr & E' & [[P _] _] & _).
  rewrite E in E'. injection E' as <- <-.
  unfold nonneg. rewrite <- V1, <- V2, <- V3. auto.
Qed.

(** What a branch adds to the running value. *)
Lemma branch_adds (n : nat) (s : CH.t) (t : CHType)
    (value value' : CHValue.t) :
  Inv s -> CH.stop_default s = false -> opens_saver s = false ->
  branch (uncached n) s t value = Ok value' ->
  CHValue.loot value <= CHValue.loot value'
  /\ CHValue.perfect value <= CHValue.perfect value'
  /\ (draws s t = true ->
      exists c v,
        CH.chance s t = inr c /\ 0 <= c
        /\ uncached n (CH.next s t) = Ok v
        /\ CHValue.perfect value' == CHValue.perfect value
                                     + CHValue.perfect v * c).
Proof.
  intros HI Hgo Ho. unfold branch, uncached_weighted.
  destruct (draws s t) eqn:Ed.
  - destruct (CH.chance s t) as [e|c] eqn:Ec; cbn [result_lift result_bind];
      [discriminate|].
    destruct (uncached n (CH.next s t)) as [v| |] eqn:Ev;
      cbn [result_bind]; try discriminate.
    intros H. injection H as <-.
    pose proof (chance_drawn_nonneg s t c HI Hgo Ho Ed Ec) as Hc.
    destruct (uncached_nonneg n (CH.next s t) v
                (Inv_next s t HI (draws_explores s t Hgo Ed)) Ev)
      as [[L _] P].
    cbn [CHValue.add CHValue.mul CHValue.loot CHValue.perfect].
    pose proof (Qmult_le_0_compat _ _ L Hc).
    pose proof (Qmult_le_0_compat _ _ P Hc).
    split; [lra|]. split; [lra|].
    intros _. exists c, v. repeat split; try assumption; reflexivity.
  - intros H. injection H as <-.
    split; [lra|]. split; [lra|]. discriminate.
Qed.

Lemma value_default_lower (s : CH.t) :
  0 <= CHValue.perfect (CH.value_default s)
  /\ CHValue.loot (CH.value_default s) == 0.
Proof.
  unfold CH.value_default. cbn [CHValue.perfect CHValue.loot].
  split; [destruct (_ && _); lra | reflexivity].
Qed.

(** The four branches of an activation, taken apart. *)
Lemma uncached_branches (n : nat) (s : CH.t) (w : CHValue.t) :
  CH.stop_default s = false -> opens_saver s = false ->
  uncached (S n) s = Ok w ->
  exists v1 v2 v3 c,
    branch (uncached n) s SAVER (CH.value_default s) = Ok v1
    /\ branch (uncached n) s DOUBLER v1 = Ok v2
    /\ branch (uncached n) s MIMIC v2 = Ok v3
    /\ CH.chance s LOOT = inr c
    /\ branch (uncached n) s LOOT (CHValue.add v3 (reward s c)) = Ok w.
Proof.
  intros Hgo Ho H.
  change (uncached_body (uncached n) s = Ok w) in H.
  rewrite uncached_body_guards, Hgo, Ho in H.
  destruct (branch (uncached n) s SAVER (CH.value_default s))
    as [v1| |] eqn:B1; cbn [result_bind] in H; try discriminate.
  destruct (branch (uncached n) s DOUBLER v1) as [v2| |] eqn:B2;
    cbn [result_bind] in H; try discriminate.
  destruct (branch (uncached n) s MIMIC v2) as [v3| |] eqn:B3;
    cbn [result_bind] in H; try discriminate.
  destruct (CH.chance s LOOT) as [e|c] eqn:Ec;
    cbn [result_lift result_bind] in H; try discriminate.
  exists v1, v2, v3, c. repeat split; try reflexivity; assumption.
Qed.

Lemma loot_rate_pos (s : CH.t) : 0 < loot_rate s.
Proof.
  unfold loot_rate, armory_rate. destruct (CH.armory s).
  - unfold Qlt. vm_compute. reflexivity.
  - lra.
Qed.

(** Where loot is drawn with a positive chance, the loot is positive. *)
Lemma uncached_loot_pos (n : nat) (s : CH.t) (w : CHValue.t) (c : Q) :
  Inv s -> CH.stop_default s = false -> opens_saver s = false ->
  CH.chance s LOOT = inr c -> 0 < c ->
  uncached n s = Ok w -> 0 < CHValue.loot w.
Proof.
  intros HI Hgo Ho Ec Hc H. destruct n as [|n]; [discriminate|].
  destruct (uncached_branches n s w Hgo Ho H)
    as (v1 & v2 & v3 & c' & B1 & B2 & B3 & Ec' & B4).
  rewrite Ec in Ec'. injection Ec' as <-.
  destruct (branch_adds _ _ _ _ _ HI Hgo Ho B1) as (L1 & _).
  destruct (branch_adds _ _ _ _ _ HI Hgo Ho B2) as (L2 & _).
  destruct (branch_adds _ _ _ _ _ HI Hgo Ho B3) as (L3 & _).
  destruct (branch_adds _ _ _ _ _ HI Hgo Ho B4) as (L4 & _).
  destruct (value_default_lower s) as [_ L0]. rewrite L0 in L1.
  unfold reward in L4.
  cbn [CHValue.add CHValue.mul CHValue.loot] in L4.
  pose proof (loot_rate_pos s) as Hr.
  assert (Hg : 1 <= inject_Z (gain s)).
  { unfold gain. destruct (_ >? _)%Z; unfold Qle; cbn; lia. }
  assert (Hcg : 0 < c * inject_Z (gain s))
    by (apply Qmult_lt_0_compat; lra).
  pose proof (Qmult_lt_0_compat _ _ Hr Hcg). lra.
Qed.

(** The perfect-hunt field is at least the chance of any one line of play
    that ends the hunt perfectly. *)
Lemma uncached_path_bound (ts : list CHType) :
  forall (n : nat) (s : CH.t) (w : CHValue.t) (p : Q),
    Inv s -> path_chance ts s = Some p -> uncached n s = Ok w ->
    p <= CHValue.perfect w.
Proof.
  induction ts as [|t ts IH]; intros n s w p HI Hp H;
    (destruct n as [|n]; [discriminate|]); cbn [path_chance] in Hp;
    destruct (CH.stop_default s) eqn:Hgo; try discriminate.
  - change (uncached_body (uncached n) s = Ok w) in H.
    rewrite uncached_body_guards, Hgo in H.
    injection H as <-. injection Hp as <-. apply Qle_refl.
  - destruct (opens_saver s) eqn:Ho.
    + destruct t; try discriminate.
      change (uncached_body (uncached n) s = Ok w) in H.
      rewrite uncached_body_guards, Hgo, Ho in H.
      apply (IH n (CH.next s SAVER) w p); try assumption.
      apply Inv_next; [assumption | apply opens_saver_explores; assumption].
    + destruct (draws s t) eqn:Ed; [|discriminate].
      destruct (CH.chance s t) as [e|c] eqn:Ec; [discriminate|].
      destruct (path_chance ts (CH.next s t)) as [p'|] eqn:Ep;
        [|discriminate].
      injection Hp as <-.
      destruct (uncached_branches n s w Hgo Ho H)
        as (v1 & v2 & v3 & cL & B1 & B2 & B3 & EL & B4).
      destruct (branch_adds _ _ _ _ _ HI Hgo Ho B1) as (_ & P1 & D1).
      destruct (branch_adds _ _ _ _ _ HI Hgo Ho B2) as (_ & P2 & D2).
      destruct (branch_adds _ _ _ _ _ HI Hgo Ho B3) as (_ & P3 & D3).
      destruct (branch_adds _ _ _ _ _ HI Hgo Ho B4) as (_ & P4 & D4).
      destruct (value_default_lower s) as [P0 _].
      unfold reward in P4, D4.
      cbn [CHValue.add CHValue.mul CHValue.perfect] in P4, D4.
      assert (Hstep : forall v c',
                 CH.chance s t = inr c' -> 0 <= c' ->
                 uncached n (CH.next s t) = Ok v ->
                 c * p' <= CHValue.perfect v * c').
      { intros v c' Ec' Hc' Ev. rewrite Ec in Ec'. injection Ec' as <-.
        pose proof (IH n (CH.next s t) v p'
                      (Inv_next s t HI (draws_explores s t Hgo Ed)) Ep Ev)
          as Hle.
        rewrite (Qmult_comm c p').
        apply Qmult_le_compat_r; assumption. }
      destruct t.
      * destruct (D4 Ed) as (c' & v & Ec' & Hc' & Ev & E).
        pose proof (Hstep v c' Ec' Hc' Ev). lra.
      * destruct (D3 Ed) as (c' & v & Ec' & Hc' & Ev & E).
        pose proof (Hstep v c' Ec' Hc' Ev). lra.
      * destruct (D1 Ed) as (c' & v & Ec' & Hc' & Ev & E).
        pose proof (Hstep v c' Ec' Hc' Ev). lra.
      * destruct (D2 Ed) as (c' & v & Ec' & Hc' & Ev & E).
        pose proof (Hstep v c' Ec' Hc' Ev). lra.
Qed.

(** ** The solver on objects, and its callers *)

Lemma find_eqb (d : list (CH.t * nat)) (a b : CH.t) :
  CH.eqb a b = true -> find d a = find d b.
Proof.
  intros H. induction d as [|[k v] d IH]; [reflexivity|].
  cbn [find]. rewrite (eqb_right a b k H), IH. reflexivity.
Qed.

Lemma find_In (d : list (CH.t * nat)) (k : CH.t) (a : nat) :
  find d k = Some a -> exists k0, In (k0, a) d /\ CH.eqb k0 k = true.
Proof.
  induction d as [|[k' b] d IH]; [discriminate|]. cbn [find].
  destruct (CH.eqb k' k) eqn:E.
  - intros H. injection H as ->. exists k'. split; [left; reflexivity | exact E].
  - intros H. destruct (IH H) as (k0 & Hin & Hk). exists k0.
    split; [right; exact Hin | exact Hk].
Qed.

Lemma get_map (m : memory) (d : list (CH.t * nat)) (k : CH.t) :
  CH.get (map (fun ka => (fst ka, deref m (snd ka))) d) k
  = option_map (deref m) (find d k).
Proof.
  induction d as [|[k' b] d IH]; [reflexivity|].
  cbn [map CH.get find fst snd]. destruct (CH.eqb k' k); [reflexivity | exact IH].
Qed.

Lemma get_view (m : memory) (k : CH.t) :
  CH.get (view m) k = option_map (deref m) (find (refs m) k).
Proof. apply get_map. Qed.

Lemma mem_view (m : memory) (k : CH.t) :
  CH.mem (view m) k
  = match find (refs m) k with Some _ => true | None => false end.
Proof.
  unfold CH.mem. rewrite get_view. destruct (find (refs m) k); reflexivity.
Qed.

Lemma nth_last (l : list CHValue.t) (v d : CHValue.t) :
  nth (length l) (l ++ [v]) d = v.
Proof. rewrite app_nth2, Nat.sub_diag by lia. reflexivity. Qed.

(** *** Memories that extend one another *)

Lemma extends_refl (m : memory) : extends m m.
Proof. split; [exists []; symmetry; apply app_nil_r | auto]. Qed.

Lemma extends_trans (m1 m2 m3 : memory) :
  extends m1 m2 -> extends m2 m3 -> extends m1 m3.
Proof.
  intros [[l1 E1] K1] [[l2 E2] K2]. split; [|auto].
  exists (l1 ++ l2). rewrite E2, E1, app_assoc. reflexivity.
Qed.

Lemma extends_length (m m' : memory) :
  extends m m' -> (length (objects m) <= length (objects m'))%nat.
Proof. intros [[l E] _]. rewrite E, length_app. lia. Qed.

Lemma extends_deref (m m' : memory) (a : nat) :
  extends m m' -> (a < length (objects m))%nat -> deref m' a = deref m a.
Proof.
  intros [[l E] _] Ha. unfold deref. rewrite E. apply app_nth1. exact Ha.
Qed.

Lemma extends_new (m : memory) (v : CHValue.t) : extends m (with_new m v).
Proof. split; [exists [v]; reflexivity | auto]. Qed.

Lemma well_formed_new (m : memory) (v : CHValue.t) :
  well_formed m -> well_formed (with_new m v).
Proof.
  intros (W & I & C). split; [|split; assumption].
  cbn [with_new objects refs]. rewrite length_app. cbn [length].
  revert W. apply Forall_impl. intros ka. lia.
Qed.

Lemma view_same (m m' : memory) :
  well_formed m -> extends m m' -> refs m' = refs m -> view m' = view m.
Proof.
  intros (W & _) Hext E. unfold view. rewrite E.
  apply map_ext_in. intros [k a] Hin. cbn [fst snd]. f_equal.
  apply extends_deref; [assumption|].
  rewrite Forall_forall in W. exact (W _ Hin).
Qed.

Lemma view_new (m : memory) (v : CHValue.t) :
  well_formed m -> view (with_new m v) = view m.
Proof.
  intros H. apply view_same; [assumption | apply extends_new | reflexivity].
Qed.

Lemma deref_new (m : memory) (v : CHValue.t) :
  deref (with_new m v) (length (objects m)) = v.
Proof. apply nth_last. Qed.

Lemma length_new (m : memory) (v : CHValue.t) :
  length (objects (with_new m v)) = S (length (objects m)).
Proof. cbn [with_new objects]. rewrite length_app. cbn [length]. lia. Qed.

(** The object made last is not bound. *)
Lemma new_unbound (m : memory) (v : CHValue.t) (k : CH.t) :
  well_formed m -> ~ In (k, length (objects m)) (refs (with_new m v)).
Proof.
  intros (W & _) Hin. rewrite Forall_forall in W.
  specialize (W _ Hin). cbn [snd] in W. lia.
Qed.

Lemma follows_refl (m : memory) (a : nat) :
  well_formed m -> (a < length (objects m))%nat ->
  follows m (deref m a) (view m) a m.
Proof.
  intros Hg Ha. repeat split; try assumption; try apply Hg.
  - exists []. symmetry. apply app_nil_r.
  - auto.
Qed.

(** *** The solver on objects follows the solver on values *)

Lemma mul_obj_new (a : nat) (c : Q) (m : memory) :
  mul_obj a c m
  = Ok (length (objects m), with_new m (CHValue.mul (deref m a) c)).
Proof. reflexivity. Qed.

Lemma add_obj_new (a b : nat) (m : memory) :
  add_obj a b m
  = Ok (length (objects m),
        with_new m (CHValue.add (deref m a) (deref m b))).
Proof. reflexivity. Qed.

(** One activation of the solver on objects, by its guards, from the memory
    with the default value made. *)
Lemma body_obj_guards (self : CH.t -> Obj nat) (s : CH.t) (m : memory) :
  body_obj self s m
  = (let value := match find (refs m) s with
                  | Some a => a
                  | None => length (objects m)
                  end in
     if (match find (refs m) s with Some _ => true | None => false end)
        || CH.stop_default s
     then oret value
     else if opens_saver s then self (CH.next s SAVER)
     else
       obind (branch_obj self s SAVER value) (fun value =>
       obind (branch_obj self s DOUBLER value) (fun value =>
       obind (branch_obj self s MIMIC value) (fun value =>
       obind (olift (CH.chance s LOOT)) (fun c =>
       obind (new (CHValue.mk (loot_rate s) 0 (armory_rate s))) (fun r =>
       obind (mul_obj r (c * inject_Z (gain s))) (fun p =>
       obind (add_obj value p) (fun value =>
       obind (weighted_obj self s LOOT value) (fun value =>
       obind (bind_key s value) (fun _ => oret value))))))))))
    (with_new m (CH.value_default s)).
Proof.
  set (m0 := with_new m (CH.value_default s)).
  assert (E1 : value_obj s m
               = Ok (match find (refs m) s with
                     | Some a => a
                     | None => length (objects m)
                     end, m0)) by reflexivity.
  assert (E2 : stop_obj s m0
               = Ok ((match find (refs m) s with
                      | Some _ => true
                      | None => false
                      end) || CH.stop_default s, m0)) by reflexivity.
  unfold body_obj. unfold obind at 1. rewrite E1.
  unfold obind at 1. rewrite E2. cbv zeta.
  destruct ((match find (refs m) s with Some _ => true | None => false end)
            || CH.stop_default s); [reflexivity|].
  unfold double_mimic_loot_obj, opens_saver, branch_obj, draws.
  destruct (CH.savers s >? 0)%Z; cbn [andb negb]; [|reflexivity].
  destruct (CH.ad s); cbn [andb negb]; [|reflexivity].
  destruct (CH.chase s && (CH.doubles s >? 0)%Z); [reflexivity|].
  destruct (negb (CH.chase s) && (CH.csaves s <=? 0)%Z); [reflexivity|].
  destruct (CH.doublers s <=? 0)%Z; reflexivity.
Qed.

Section Simulation.

Variable n : nat.

Hypothesis IH :
  forall s m tr v st',
    well_formed m -> calculate_value n s (mkStore (view m) tr) = Ok (v, st') ->
    exists a m',
      calculate_value_obj n s m = Ok (a, m')
      /\ simulates s m v (solved st') a m'.

Lemma weighted_obj_follows (s : CH.t) (t : CHType) value st value' st'
    (m : memory) (av : nat) :
  well_formed m -> solved st = view m -> (av < length (objects m))%nat ->
  deref m av = value ->
  weighted_by (returns (calculate_value n)) s t value st value' st' ->
  exists av' m',
    weighted_obj (calculate_value_obj n) s t av m = Ok (av', m')
    /\ follows m value' (solved st') av' m'
    /\ (forall k, ~ In (k, av') (refs m')).
Proof.
  intros Hg Hst Hav Hd (c & v & Ec & Hr & ->). unfold returns in Hr.
  rewrite Hst in Hr.
  destruct (IH _ _ _ _ _ Hg Hr) as (r & m1 & E1 & (D1 & L1 & V1 & G1 & X1) & _).
  set (m2 := with_new m1 (CHValue.mul (deref m1 r) c)).
  set (m3 := with_new m2 (CHValue.add (deref m2 av)
                            (deref m2 (length (objects m1))))).
  exists (length (objects m2)), m3. split.
  { unfold weighted_obj, obind, olift. rewrite Ec, E1, mul_obj_new.
    fold m2. rewrite add_obj_new. reflexivity. }
  assert (G2 : well_formed m2) by (apply well_formed_new; exact G1).
  assert (X2 : extends m m2)
    by (apply (extends_trans _ m1); [exact X1 | apply extends_new]).
  split; [|intros k; apply new_unbound; exact G2].
  split.
  { unfold m3. rewrite deref_new. f_equal.
    - rewrite (extends_deref m m2 av X2 Hav). exact Hd.
    - unfold m2. rewrite deref_new, D1. reflexivity. }
  split; [unfold m3; rewrite length_new; lia|].
  split.
  { unfold m3, m2. rewrite !view_new by (try apply well_formed_new; assumption).
    exact V1. }
  split; [apply well_formed_new; exact G2|].
  apply (extends_trans _ m2); [exact X2 | apply extends_new].
Qed.

Lemma branch_obj_follows (s : CH.t) (t : CHType) value st value' st'
    (m : memory) (av : nat) :
  well_formed m -> solved st = view m -> (av < length (objects m))%nat ->
  deref m av = value ->
  branch_by (returns (calculate_value n)) s t value st value' st' ->
  exists av' m',
    branch_obj (calculate_value_obj n) s t av m = Ok (av', m')
    /\ follows m value' (solved st') av' m'.
Proof.
  intros Hg Hst Hav Hd. unfold branch_by, branch_obj. destruct (draws s t).
  - intros H.
    destruct (weighted_obj_follows _ _ _ _ _ _ _ _ Hg Hst Hav Hd H)
      as (av' & m' & E & F & _).
    exists av', m'. split; assumption.
  - intros [-> ->]. exists av, m. split; [reflexivity|].
    rewrite Hst, <- Hd. apply follows_refl; assumption.
Qed.

(** A branch adds no binding for a state of as many chests as [s]. *)
Lemma branch_by_fresh (s : CH.t) (t : CHType) value st value' st' :
  branch_by (returns (calculate_value n)) s t value st value' st' ->
  grows (CH.chests s - 1) (solved st) (solved st').
Proof.
  intros H. apply (branch_by_grows s t value st value' st').
  revert H. apply branch_by_mono. intros st0 v0 st0' H0.
  apply (calculate_value_grows n _ _ _ _ H0).
Qed.

Lemma find_unbound (m : memory) (k : CH.t) :
  CH.get (view m) k = None -> find (refs m) k = None.
Proof.
  rewrite get_view. destruct (find (refs m) k); [discriminate | reflexivity].
Qed.

Lemma bound_not_saver (m : memory) (k : CH.t) (a : nat) :
  well_formed m -> find (refs m) k = Some a -> opens_saver k = false.
Proof.
  intros (_ & _ & C) H. destruct (find_In _ _ _ H) as (k0 & Hin & Hk).
  rewrite Forall_forall in C. specialize (C _ Hin). cbn [fst] in C.
  rewrite <- (opens_saver_eqb k0 k Hk). exact C.
Qed.

Lemma body_obj_simulates (s : CH.t) (m : memory) (tr : list event) v st' :
  well_formed m ->
  activation_by (returns (calculate_value n)) s (mkStore (view m) tr) v st' ->
  exists a m',
    body_obj (calculate_value_obj n) s m = Ok (a, m')
    /\ simulates s m v (solved st') a m'.
Proof.
  intros Hg H. unfold activation_by in H. cbn [solved trace] in H.
  set (m0 := with_new m (CH.value_default s)).
  assert (G0 : well_formed m0) by (apply well_formed_new; exact Hg).
  assert (X0 : extends m m0) by apply extends_new.
  assert (V0 : view m0 = view m) by (apply view_new; exact Hg).
  assert (Hbody : body_obj (calculate_value_obj n) s m
            = (let value := match find (refs m) s with
                            | Some a => a
                            | None => length (objects m)
                            end in
               if CH.stop (view m) s then oret value
               else if opens_saver s
                    then calculate_value_obj n (CH.next s SAVER)
               else
                 obind (branch_obj (calculate_value_obj n) s SAVER value)
                   (fun value =>
                 obind (branch_obj (calculate_value_obj n) s DOUBLER value)
                   (fun value =>
                 obind (branch_obj (calculate_value_obj n) s MIMIC value)
                   (fun value =>
                 obind (olift (CH.chance s LOOT)) (fun c =>
                 obind (new (CHValue.mk (loot_rate s) 0 (armory_rate s)))
                   (fun r =>
                 obind (mul_obj r (c * inject_Z (gain s))) (fun p =>
                 obind (add_obj value p) (fun value =>
                 obind (weighted_obj (calculate_value_obj n) s LOOT value)
                   (fun value =>
                 obind (bind_key s value) (fun _ => oret value)))))))))) m0).
  { unfold CH.stop. rewrite mem_view. apply body_obj_guards. }
  rewrite Hbody. clear Hbody. cbv zeta.
  destruct H as [(Hs & -> & ->)|[(Hs & Ho & st1 & H1 & ->)|(Hs & Ho & H)]].
  - (* the value is known, or the hunt is over *)
    rewrite Hs. cbn [solved].
    exists (match find (refs m) s with
            | Some a => a
            | None => length (objects m)
            end), m0.
    split; [reflexivity|].
    assert (Hcase : (exists b, find (refs m) s = Some b
                               /\ (b < length (objects m))%nat)
                    \/ find (refs m) s = None).
    { destruct (find (refs m) s) as [b|] eqn:Ef; [left | right; reflexivity].
      exists b. split; [reflexivity|].
      destruct (find_In _ _ _ Ef) as (k0 & Hin & _).
      destruct Hg as (W & _). rewrite Forall_forall in W. exact (W _ Hin). }
    split; [split; [|split; [|split; [exact V0 | split; assumption]]]|].
    + unfold CH.value. rewrite get_view.
      destruct Hcase as [(b & Ef & Hb)|Ef]; rewrite Ef; cbn [option_map].
      * apply extends_deref; assumption.
      * apply deref_new.
    + unfold m0. rewrite length_new.
      destruct Hcase as [(b & Ef & Hb)|Ef]; rewrite Ef; lia.
    + intros k Hk. change (refs m0) with (refs m).
      destruct (find (refs m) s) as [b|] eqn:Ef.
      * pose proof (bound_not_saver m s b Hg Ef) as Hns.
        destruct Hk as [s' _ _|s' k' _ Hsv _]; [exact Ef | congruence].
      * exfalso. unfold CH.stop in Hs. rewrite mem_view, Ef in Hs.
        cbn [orb] in Hs. destruct Hk; congruence.
  - (* the saver is opened first *)
    rewrite Hs, Ho. unfold returns in H1. rewrite <- V0 in H1.
    destruct (IH _ _ _ _ _ G0 H1) as (a & m' & E & (D & L & V & G & X) & Hown).
    exists a, m'. split; [exact E|]. cbn [solved].
    split; [repeat split; try assumption; try apply G;
            apply (extends_trans _ m0 _ X0 X)|].
    intros k Hk. apply stop_false in Hs. destruct Hs as [_ Hgo].
    destruct Hk as [s' _ Hns|s' k' _ _ Hk]; [congruence | auto].
  - (* the branches *)
    rewrite Hs, Ho.
    destruct H as (v1 & st1 & v2 & st2 & v3 & st3 & c & st4
                   & H1 & H2 & H3 & Ec & H4 & ->).
    pose proof (proj1 (stop_false _ _) Hs) as [Hget Hgo].
    pose proof (find_unbound m s Hget) as Hfind. rewrite Hfind.
    (* no branch binds [s] *)
    pose proof (branch_by_fresh _ _ _ _ _ _ H1) as F1.
    pose proof (branch_by_fresh _ _ _ _ _ _ H2) as F2.
    pose proof (branch_by_fresh _ _ _ _ _ _ H3) as F3.
    assert (H4' : branch_by (returns (calculate_value n)) s LOOT
                    (CHValue.add v3 (reward s c))
                    (mkStore (solved st3) (Chance s LOOT :: trace st3)) v st4)
      by exact H4.
    pose proof (branch_by_fresh _ _ _ _ _ _ H4') as F4.
    cbn [solved] in F1, F4.
    pose proof (grows_trans _ _ _ _ (grows_trans _ _ _ _
                  (grows_trans _ _ _ _ F1 F2) F3) F4) as F.
    assert (Hget4 : CH.get (solved st4) s = None)
      by (apply (grows_fresh _ _ _ _ F); [lra | exact Hget]).
    (* the objects *)
    assert (L0 : (length (objects m) < length (objects m0))%nat)
      by (unfold m0; rewrite length_new; lia).
    destruct (branch_obj_follows s SAVER _
                (mkStore (view m) (Call s :: tr)) _ _ m0 _ G0
                (eq_sym V0) L0 (deref_new m _) H1)
      as (a1 & m1 & E1 & (D1 & L1 & V1 & G1 & X1)).
    destruct (branch_obj_follows s DOUBLER _ _ _ _ m1 _ G1
                (eq_sym V1) L1 D1 H2)
      as (a2 & m2 & E2 & (D2 & L2 & V2 & G2 & X2)).
    destruct (branch_obj_follows s MIMIC _ _ _ _ m2 _ G2
                (eq_sym V2) L2 D2 H3)
      as (a3 & m3 & E3 & (D3 & L3 & V3 & G3 & X3)).
    set (m3a := with_new m3 (CHValue.mk (loot_rate s) 0 (armory_rate s))).
    set (m3b := with_new m3a (CHValue.mul (deref m3a (length (objects m3)))
                                (c * inject_Z (gain s)))).
    set (m3c := with_new m3b (CHValue.add (deref m3b a3)
                                (deref m3b (length (objects m3a))))).
    assert (G3a : well_formed m3a) by (apply well_formed_new; exact G3).
    assert (G3b : well_formed m3b) by (apply well_formed_new; exact G3a).
    assert (G3c : well_formed m3c) by (apply well_formed_new; exact G3b).
    assert (X3c : extends m3 m3c).
    { apply (extends_trans _ m3a); [apply extends_new|].
      apply (extends_trans _ m3b); apply extends_new. }
    assert (V3c : view m3c = solved st3).
    { unfold m3c, m3b, m3a. rewrite !view_new by assumption. exact V3. }
    assert (D3c : deref m3c (length (objects m3b))
                  = CHValue.add v3 (reward s c)).
    { unfold m3c. rewrite deref_new. f_equal.
      - rewrite (extends_deref m3 m3b a3); [exact D3 | | exact L3].
        apply (extends_trans _ m3a); apply extends_new.
      - unfold m3b. rewrite deref_new. unfold m3a. rewrite deref_new.
        reflexivity. }
    assert (L3c : (length (objects m3b) < length (objects m3c))%nat)
      by (unfold m3c; rewrite length_new; lia).
    destruct (weighted_obj_follows s LOOT _
                (mkStore (solved st3) (Chance s LOOT :: trace st3)) _ _
                m3c _ G3c (eq_sym V3c) L3c D3c H4)
      as (a4 & m4 & E4 & (D4 & L4 & V4 & G4 & X4) & U4).
    set (m' := mkMemory (objects m4) ((s, a4) :: refs m4)).
    exists a4, m'. split.
    { unfold obind at 1. rewrite E1. unfold obind at 1. rewrite E2.
      unfold obind at 1. rewrite E3. unfold obind at 1, olift. rewrite Ec.
      unfold obind at 1, new. fold (with_new m3 (CHValue.mk (loot_rate s) 0
                                                  (armory_rate s))).
      fold m3a. unfold obind at 1. rewrite mul_obj_new. fold m3b.
      unfold obind at 1. rewrite add_obj_new. fold m3c.
      unfold obind at 1. rewrite E4. reflexivity. }
    assert (Hfind4 : find (refs m4) s = None).
    { apply find_unbound. rewrite V4. exact Hget4. }
    assert (X : extends m m4).
    { apply (extends_trans _ m0 _ X0). apply (extends_trans _ m1 _ X1).
      apply (extends_trans _ m2 _ X2). apply (extends_trans _ m3 _ X3).
      apply (extends_trans _ m3c _ X3c). exact X4. }
    cbn [solved].
    split; [split; [exact D4 | split; [exact L4 | split; [|split]]]|].
    + (* the dictionary *)
      unfold view, m'. cbn [refs map fst snd]. unfold CH.set. f_equal.
      * f_equal. exact D4.
      * exact V4.
    + (* a well_formed memory *)
      destruct G4 as (W4 & I4 & C4). unfold well_formed, m'. cbn [objects refs].
      split; [constructor; [exact L4 | exact W4]|].
      split; [|constructor; [exact Ho | exact C4]].
      intros k k' a [Hk|Hk] [Hk'|Hk'].
      * injection Hk as <- _. injection Hk' as <- _. apply eqb_refl.
      * injection Hk as _ <-. exfalso. exact (U4 _ Hk').
      * injection Hk' as _ <-. exfalso. exact (U4 _ Hk).
      * exact (I4 _ _ _ Hk Hk').
    + (* the memory extended *)
      destruct X as [Xo Xk]. split; [exact Xo|].
      intros k a Hk. unfold m'. cbn [refs find].
      destruct (CH.eqb s k) eqn:E; [|apply Xk; exact Hk].
      rewrite (find_eqb _ s k E) in Hfind4.
      rewrite (Xk _ _ Hk) in Hfind4. discriminate.
    + (* the owner *)
      intros k Hk. destruct Hk as [s' _ _|s' k' _ Hsv _]; [|congruence].
      unfold m'. cbn [refs find]. rewrite eqb_refl. reflexivity.
Qed.

End Simulation.

(** Whenever the solver on values returns, from the dictionary a well-formed
    memory stands for, the solver on objects returns an object that holds the
    same value, in a well-formed memory that stands for the new dictionary. *)
Lemma calculate_value_obj_simulates (n : nat) :
  forall s m tr v st',
    well_formed m -> calculate_value n s (mkStore (view m) tr) = Ok (v, st') ->
    exists a m',
      calculate_value_obj n s m = Ok (a, m')
      /\ simulates s m v (solved st') a m'.
Proof.
  induction n as [|n IH]; intros s m tr v st' Hg H; [discriminate|].
  cbn [calculate_value] in H. apply activation_Ok in H.
  cbn [calculate_value_obj].
  apply (body_obj_simulates n IH s m tr v st' Hg H).
Qed.

Lemma owner_of_owner (s k : CH.t) : owner_of s = Some k -> owner s k.
Proof.
  unfold owner_of. destruct (CH.stop_default s) eqn:Hgo; [discriminate|].
  destruct (opens_saver s) eqn:Ho.
  - destruct (CH.stop_default (CH.next s SAVER)) eqn:Hgo'; [discriminate|].
    destruct (opens_saver (CH.next s SAVER)) eqn:Ho'; [discriminate|].
    cbn [orb]. intros H. injection H as <-.
    apply owner_saver; try assumption. apply owner_here; assumption.
  - intros H. injection H as <-. apply owner_here; assumption.
Qed.

Lemma table_state_counts (s : CH.t) :
  table_state s = true ->
  counts s /\ CH.chests s <= inject_Z (Z.of_nat 30)
  /\ exists k, owner_of s = Some k.
Proof.
  unfold table_state. rewrite !andb_true_iff, !Qeq_bool_iff, !Z.leb_le.
  intros [[[[[[[Hc Hm] H1] H2] H3] H4] H5] Ho].
  split; [|split].
  - split; [repeat split; try assumption; lra|].
    split; [exists 30%Z; exact Hc | exists 4%Z; exact Hm].
  - change (inject_Z (Z.of_nat 30)) with 30. lra.
  - destruct (owner_of s) as [k|]; [exists k; reflexivity | discriminate].
Qed.

(** *** Assignments to an object *)

Lemma length_update (l : list CHValue.t) (a : nat) (v : CHValue.t) :
  length (update l a v) = length l.
Proof.
  revert a. induction l as [|x l IH]; intros [|a]; cbn [update length];
    try reflexivity. rewrite IH. reflexivity.
Qed.

Lemma nth_update (l : list CHValue.t) (a b : nat) (v d : CHValue.t) :
  (a < length l)%nat ->
  nth b (update l a v) d = if Nat.eqb b a then v else nth b l d.
Proof.
  revert a b. induction l as [|x l IH]; intros a b Ha; [cbn in Ha; lia|].
  destruct a as [|a], b as [|b]; cbn [update nth Nat.eqb]; try reflexivity.
  apply IH. cbn [length] in Ha. lia.
Qed.

Lemma well_formed_adjusted (m : memory) (a : nat) :
  well_formed m -> well_formed (with_adjusted m a).
Proof.
  intros (W & I & C). split; [|split; assumption].
  cbn [with_adjusted objects refs]. rewrite length_update. exact W.
Qed.

Lemma deref_adjusted (m : memory) (a b : nat) :
  (a < length (objects m))%nat ->
  deref (with_adjusted m a) b
  = if Nat.eqb b a then adjusted (deref m a) else deref m b.
Proof. intros Ha. unfold deref at 1. cbn [with_adjusted objects].
  apply nth_update. exact Ha. Qed.

(** *** A state solved, from a well-formed memory *)

Lemma calculate_value_obj_returns (n : nat) (s : CH.t) (m : memory) :
  well_formed m -> counts s -> CH.chests s <= inject_Z (Z.of_nat n) ->
  exists v st' a m',
    calculate_value (S n) s (mkStore (view m) []) = Ok (v, st')
    /\ calculate_value_obj (S n) s m = Ok (a, m')
    /\ simulates s m v (solved st') a m'.
Proof.
  intros Hg HC Hn.
  destruct (calculate_value_counts n s (mkStore (view m) []) HC Hn)
    as (v & st' & tr & E & _).
  destruct (calculate_value_obj_simulates (S n) s m [] v st' Hg E)
    as (a & m' & E' & H).
  exists v, st', a, m'. auto.
Qed.

(** One row: it returns, the memory stays well-formed and keeps its bindings,
    the row is the object returned, which is the one of the owner, and the
    other objects are as they were, the one returned being adjusted. *)
Lemma row_returns (n : nat) (s : CH.t) (m : memory) :
  well_formed m -> counts s -> CH.chests s <= inject_Z (Z.of_nat n) ->
  exists a m',
    row (S n) s m = Ok (deref m' a, m')
    /\ well_formed m'
    /\ (forall k b, find (refs m) k = Some b -> find (refs m') k = Some b)
    /\ (forall k, owner s k -> find (refs m') k = Some a)
    /\ (forall b, (b < length (objects m))%nat ->
          deref m' b
          = if Nat.eqb b a then adjusted (deref m b) else deref m b).
Proof.
  intros Hg HC Hn.
  destruct (calculate_value_obj_returns n s m Hg HC Hn)
    as (v & st' & a & m1 & _ & E & (D & L & V & G & X) & Hown).
  exists a, (with_adjusted m1 a). split.
  { unfold row, obind. rewrite E. reflexivity. }
  split; [apply well_formed_adjusted; exact G|].
  split; [exact (proj2 X)|]. split; [exact Hown|].
  intros b Hb. rewrite (deref_adjusted m1 a b L).
  rewrite (extends_deref m m1 b X Hb).
  destruct (Nat.eqb_spec b a) as [->|]; [|reflexivity].
  rewrite (extends_deref m m1 a X Hb). reflexivity.
Qed.

Lemma bound_object (m : memory) (k : CH.t) (a : nat) :
  well_formed m -> find (refs m) k = Some a -> (a < length (objects m))%nat.
Proof.
  intros (W & _) H. destruct (find_In _ _ _ H) as (k0 & Hin & _).
  rewrite Forall_forall in W. exact (W _ Hin).
Qed.

(** In a well-formed memory, an object is bound to equal states only. *)
Lemma bound_same (m : memory) (k k' : CH.t) (a : nat) :
  well_formed m -> find (refs m) k = Some a -> find (refs m) k' = Some a ->
  CH.eqb k k' = true.
Proof.
  intros (_ & I & _) H H'.
  destruct (find_In _ _ _ H) as (k0 & Hin & Hk).
  destruct (find_In _ _ _ H') as (k0' & Hin' & Hk').
  pose proof (I _ _ _ Hin Hin') as E.
  apply (eqb_trans k k0 k'); [apply eqb_sym; exact Hk|].
  apply (eqb_trans k0 k0' k'); assumption.
Qed.

(** A row of another owner leaves the object of [K] as it is. *)
Lemma row_other (s K : CH.t) (aK : nat) (m : memory) :
  well_formed m -> table_state s = true -> other_owner K s = true ->
  find (refs m) K = Some aK ->
  exists r m',
    row 31 s m = Ok (r, m')
    /\ well_formed m' /\ find (refs m') K = Some aK
    /\ deref m' aK = deref m aK.
Proof.
  intros Hg Ht Ho HK.
  destruct (table_state_counts s Ht) as (HC & Hn & _).
  destruct (row_returns 30 s m Hg HC Hn) as (a & m' & E & G & Kp & Hown & Hd).
  exists (deref m' a), m'. split; [exact E|]. split; [exact G|].
  split; [apply Kp; exact HK|].
  rewrite (Hd aK (bound_object m K aK Hg HK)).
  destruct (Nat.eqb_spec aK a) as [->|]; [|reflexivity].
  exfalso. unfold other_owner in Ho.
  destruct (owner_of s) as [k|] eqn:Ek; [|discriminate].
  pose proof (Hown k (owner_of_owner s k Ek)) as Hk.
  pose proof (bound_same m' k K a G Hk (Kp _ _ HK)) as Heq.
  rewrite Heq in Ho. discriminate.
Qed.

(** A row of the owner [K] is the object of [K], adjusted once more. *)
Lemma row_same (s k K : CH.t) (aK : nat) (m : memory) :
  well_formed m -> table_state s = true -> owner s k -> CH.eqb k K = true ->
  find (refs m) K = Some aK ->
  exists m',
    row 31 s m = Ok (adjusted (deref m aK), m')
    /\ well_formed m' /\ find (refs m') K = Some aK
    /\ deref m' aK = adjusted (deref m aK).
Proof.
  intros Hg Ht Hk Heq HK.
  destruct (table_state_counts s Ht) as (HC & Hn & _).
  destruct (row_returns 30 s m Hg HC Hn) as (a & m' & E & G & Kp & Hown & Hd).
  assert (Ha : a = aK).
  { pose proof (Hown k Hk) as H1. rewrite (find_eqb _ k K Heq) in H1.
    rewrite (Kp _ _ HK) in H1. injection H1 as <-. reflexivity. }
  subst a.
  assert (HdK : deref m' aK = adjusted (deref m aK)).
  { rewrite (Hd aK (bound_object m K aK Hg HK)), Nat.eqb_refl. reflexivity. }
  exists m'. rewrite <- HdK. split; [exact E|]. split; [exact G|].
  split; [apply Kp; exact HK | reflexivity].
Qed.

(** A row binds the owner of its state. *)
Lemma row_binds (s k : CH.t) (m : memory) :
  well_formed m -> table_state s = true -> owner s k ->
  exists a m',
    row 31 s m = Ok (deref m' a, m')
    /\ well_formed m' /\ find (refs m') k = Some a
    /\ (forall k' b, find (refs m) k' = Some b -> find (refs m') k' = Some b).
Proof.
  intros Hg Ht Hk.
  destruct (table_state_counts s Ht) as (HC & Hn & _).
  destruct (row_returns 30 s m Hg HC Hn) as (a & m' & E & G & Kp & Hown & Hd).
  exists a, m'. auto.
Qed.

(** *** The rows of the table *)

Lemma rows_app (n : nat) (l l' : list CH.t) (m : memory) rs m1 rs' m2 :
  rows n l m = Ok (rs, m1) -> rows n l' m1 = Ok (rs', m2) ->
  rows n (l ++ l') m = Ok (rs ++ rs', m2).
Proof.
  revert m rs. induction l as [|s l IH]; intros m rs H H'.
  - injection H as <- <-. exact H'.
  - cbn [rows app] in H |- *. unfold obind in H |- *.
    destruct (row n s m) as [[r ma]| |]; try discriminate.
    destruct (rows n l ma) as [[rs0 mb]| |] eqn:E0; try discriminate.
    injection H as <- <-. rewrite (IH ma rs0 E0 H'). reflexivity.
Qed.

Lemma rows_one (n : nat) (s : CH.t) (m : memory) r m' :
  row n s m = Ok (r, m') -> rows n [s] m = Ok ([r], m').
Proof. intros H. cbn [rows]. unfold obind. rewrite H. reflexivity. Qed.

(** Rows of states of the table: they return, and the memory stays
    well-formed and keeps its bindings. *)
Lemma rows_return (l : list CH.t) :
  forall m, forallb table_state l = true -> well_formed m ->
    exists rs m',
      rows 31 l m = Ok (rs, m') /\ length rs = length l /\ well_formed m'
      /\ (forall k b, find (refs m) k = Some b -> find (refs m') k = Some b).
Proof.
  induction l as [|s l IH]; intros m Hl Hg.
  - exists [], m.
    split; [reflexivity | split; [reflexivity | split; [exact Hg | auto]]].
  - cbn [forallb] in Hl. apply andb_true_iff in Hl. destruct Hl as [Hs Hl].
    destruct (table_state_counts s Hs) as (HC & Hn & _).
    destruct (row_returns 30 s m Hg HC Hn) as (a & m1 & E & G & Kp & _).
    destruct (IH m1 Hl G) as (rs & m' & E' & Len & G' & Kp').
    exists (deref m1 a :: rs), m'. split.
    { cbn [rows]. unfold obind. rewrite E, E'. reflexivity. }
    split; [cbn [length]; rewrite Len; reflexivity|].
    split; [exact G' | auto].
Qed.

(** Rows of other owners leave the object of [K] as it is. *)
Lemma rows_others (K : CH.t) (aK : nat) (l : list CH.t) :
  forall m,
    forallb table_state l = true -> forallb (other_owner K) l = true ->
    well_formed m -> find (refs m) K = Some aK ->
    exists rs m',
      rows 31 l m = Ok (rs, m') /\ length rs = length l /\ well_formed m'
      /\ find (refs m') K = Some aK /\ deref m' aK = deref m aK.
Proof.
  induction l as [|s l IH]; intros m Hl Ho Hg HK.
  - exists [], m.
    split; [reflexivity | split; [reflexivity | split; [exact Hg | auto]]].
  - cbn [forallb] in Hl, Ho. apply andb_true_iff in Hl, Ho.
    destruct Hl as [Hs Hl], Ho as [Hos Ho].
    destruct (row_other s K aK m Hg Hs Hos HK) as (r & m1 & E & G & HK1 & D1).
    destruct (IH m1 Hl Ho G HK1) as (rs & m' & E' & Len & G' & HK' & D').
    exists (r :: rs), m'. split.
    { cbn [rows]. unfold obind. rewrite E, E'. reflexivity. }
    split; [cbn [length]; rewrite Len; reflexivity|].
    split; [exact G'|]. split; [exact HK'|]. rewrite D', D1. reflexivity.
Qed.

(** Two rows of the same owner, with rows of other owners in between: the
    second row is the first one, adjusted once more. *)
Lemma rows_same_owner (s1 s2 K k2 : CH.t) (pre mid post : list CH.t)
    (m : memory) :
  well_formed m ->
  forallb table_state (pre ++ s1 :: mid ++ s2 :: post) = true ->
  owner s1 K -> owner s2 k2 -> CH.eqb k2 K = true ->
  forallb (other_owner K) mid = true ->
  exists rs m' r,
    rows 31 (pre ++ s1 :: mid ++ s2 :: post) m = Ok (rs, m')
    /\ length rs = length (pre ++ s1 :: mid ++ s2 :: post)
    /\ well_formed m'
    /\ nth_error rs (length pre) = Some r
    /\ nth_error rs (length pre + S (length mid)) = Some (adjusted r).
Proof.
  intros Hg Hl H1 H2 Heq Hmid.
  rewrite forallb_app in Hl. apply andb_true_iff in Hl.
  destruct Hl as [Hpre Hl]. cbn [forallb] in Hl.
  apply andb_true_iff in Hl. destruct Hl as [Hs1 Hl].
  rewrite forallb_app in Hl. apply andb_true_iff in Hl.
  destruct Hl as [Hmid' Hl]. cbn [forallb] in Hl.
  apply andb_true_iff in Hl. destruct Hl as [Hs2 Hpost].
  destruct (rows_return pre m Hpre Hg) as (rs0 & m0 & E0 & L0 & G0 & _).
  destruct (row_binds s1 K m0 G0 Hs1 H1) as (a & m1 & E1 & G1 & HK1 & _).
  destruct (rows_others K a mid m1 Hmid' Hmid G1 HK1)
    as (rs2 & m2 & E2 & L2 & G2 & HK2 & D2).
  destruct (row_same s2 k2 K a m2 G2 Hs2 H2 Heq HK2)
    as (m3 & E3 & G3 & HK3 & D3).
  destruct (rows_return post m3 Hpost G3) as (rs4 & m4 & E4 & L4 & G4 & _).
  rewrite D2 in E3.
  exists (rs0 ++ [deref m1 a] ++ rs2 ++ [adjusted (deref m1 a)] ++ rs4), m4,
    (deref m1 a).
  split.
  { apply (rows_app 31 pre _ m rs0 m0 _ m4 E0).
    apply (rows_app 31 [s1] _ m0 [deref m1 a] m1 _ m4 (rows_one _ _ _ _ _ E1)).
    apply (rows_app 31 mid _ m1 rs2 m2 _ m4 E2).
    apply (rows_app 31 [s2] _ m2 [adjusted (deref m1 a)] m3 _ m4
             (rows_one _ _ _ _ _ E3)).
    exact E4. }
  split.
  { rewrite !length_app. cbn [length]. rewrite !length_app. cbn [length].
    rewrite L0, L2, L4. reflexivity. }
  split; [exact G4|]. split.
  - rewrite nth_error_app2 by lia. rewrite L0, Nat.sub_diag. reflexivity.
  - rewrite nth_error_app2 by lia.
    replace (length pre + S (length mid) - length rs0)%nat
      with (S (length rs2)) by lia.
    cbn [app nth_error]. rewrite nth_error_app2 by lia.
    rewrite Nat.sub_diag. reflexivity.
Qed.

Lemma well_formed_empty : well_formed empty_memory.
Proof.
  split; [constructor|]. split; [intros k k' a []|constructor].
Qed.

(** Rows 37 and 39 of the table (and 38 and 40) open the saver first and reach
    the same state: with skip priority and no doubler, no crystal save and
    one crystal save lead to the same hunt. *)
Lemma csv_states_36 :
  csv_states
  = firstn 36 csv_states
    ++ nth 36 csv_states main_ch
       :: [nth 37 csv_states main_ch]
       ++ nth 38 csv_states main_ch :: skipn 39 csv_states.
Proof. vm_compute. reflexivity. Qed.

Lemma csv_states_37 :
  csv_states
  = firstn 37 csv_states
    ++ nth 37 csv_states main_ch
       :: [nth 38 csv_states main_ch]
       ++ nth 39 csv_states main_ch :: skipn 40 csv_states.
Proof. vm_compute. reflexivity. Qed.

Lemma csv_states_59 : csv_states = firstn 59 csv_states ++ [main_ch_ad].
Proof. vm_compute. reflexivity. Qed.

Lemma csv_states_table : forallb table_state csv_states = true.
Proof. vm_compute. reflexivity. Qed.

Lemma make_csv_same_owner (i : nat) (m : memory) :
  (i = 36 \/ i = 37)%nat -> well_formed m ->
  exists table m' r,
    make_csv 31 m = Ok (table, m')
    /\ length table = 60%nat /\ well_formed m'
    /\ nth_error table i = Some r
    /\ nth_error table (i + 2) = Some (adjusted r).
Proof.
  intros Hi Hg. unfold make_csv.
  destruct Hi as [-> | ->].
  - assert (H1 : owner (nth 36 csv_states main_ch)
                   (CH.next (nth 36 csv_states main_ch) SAVER))
      by (apply owner_of_owner; vm_compute; reflexivity).
    assert (H2 : owner (nth 38 csv_states main_ch)
                   (CH.next (nth 38 csv_states main_ch) SAVER))
      by (apply owner_of_owner; vm_compute; reflexivity).
    assert (H3 : CH.eqb (CH.next (nth 38 csv_states main_ch) SAVER)
                   (CH.next (nth 36 csv_states main_ch) SAVER) = true)
      by (vm_compute; reflexivity).
    assert (H4 : forallb (other_owner
                            (CH.next (nth 36 csv_states main_ch) SAVER))
                   [nth 37 csv_states main_ch] = true)
      by (vm_compute; reflexivity).
    pose proof csv_states_table as H0. rewrite csv_states_36 in H0.
    destruct (rows_same_owner _ _ _ _ _ _ _ m Hg H0 H1 H2 H3 H4)
      as (rs & m' & r & E & L & G & N1 & N2).
    rewrite <- csv_states_36 in E, L.
    exists rs, m', r. split; [exact E|]. split; [exact L|].
    split; [exact G|]. split; [exact N1 | exact N2].
  - assert (H1 : owner (nth 37 csv_states main_ch)
                   (CH.next (nth 37 csv_states main_ch) SAVER))
      by (apply owner_of_owner; vm_compute; reflexivity).
    assert (H2 : owner (nth 39 csv_states main_ch)
                   (CH.next (nth 39 csv_states main_ch) SAVER))
      by (apply owner_of_owner; vm_compute; reflexivity).
    assert (H3 : CH.eqb (CH.next (nth 39 csv_states main_ch) SAVER)
                   (CH.next (nth 37 csv_states main_ch) SAVER) = true)
      by (vm_compute; reflexivity).
    assert (H4 : forallb (other_owner
                            (CH.next (nth 37 csv_states main_ch) SAVER))
                   [nth 38 csv_states main_ch] = true)
      by (vm_compute; reflexivity).
    pose proof csv_states_table as H0. rewrite csv_states_37 in H0.
    destruct (rows_same_owner _ _ _ _ _ _ _ m Hg H0 H1 H2 H3 H4)
      as (rs & m' & r & E & L & G & N1 & N2).
    rewrite <- csv_states_37 in E, L.
    exists rs, m', r. split; [exact E|]. split; [exact L|].
    split; [exact G|]. split; [exact N1 | exact N2].
Qed.

(** X14.  Values and objects.  [calculate_value_obj] is the solver on objects:
    it returns the object, not a copy of the value, and the dictionary binds
    objects.  From a memory the solver has built, whenever the solver on values
    returns [v] from the dictionary the memory stands for, the solver on
    objects returns an object that holds [v], in a memory that stands for the
    dictionary the solver on values leaves; the objects that were there are
    unchanged and the bindings kept; and when the hunt of [s] goes on and the
    saver is not opened first, the object returned is the very object bound to
    [s] in the dictionary. *)
Theorem objects_follow_values (n : nat) (s : CH.t) (m : memory)
    (tr : list event) (v : CHValue.t) (st' : store) :
  well_formed m ->
  calculate_value n s (mkStore (view m) tr) = Ok (v, st') ->
  exists a m',
    calculate_value_obj n s m = Ok (a, m')
    /\ deref m' a = v
    /\ view m' = solved st'
    /\ well_formed m'
    /\ (forall b, (b < length (objects m))%nat -> deref m' b = deref m b)
    /\ (forall k b, find (refs m) k = Some b -> find (refs m') k = Some b)
    /\ (CH.stop_default s = false -> opens_saver s = false ->
        find (refs m') s = Some a).
Proof.
  intros Hg H.
  destruct (calculate_value_obj_simulates n s m tr v st' Hg H)
    as (a & m' & E & (D & L & V & G & X) & Hown).
  exists a, m'. split; [exact E|]. split; [exact D|]. split; [exact V|].
  split; [exact G|].
  split; [intros b Hb; apply extends_deref; assumption|].
  split; [exact (proj2 X)|].
  intros Hgo Ho. apply Hown. apply owner_here; assumption.
Qed.

(** Two chests, one of them a mimic, and one save, from the empty memory. *)
Lemma objects_follow_values_witness :
  exists v st' a m',
    calculate_value 3 (CH.init 2 1 0 1 false 0 0 0 false false true)
      (mkStore (view empty_memory) []) = Ok (v, st')
    /\ calculate_value_obj 3 (CH.init 2 1 0 1 false 0 0 0 false false true)
         empty_memory = Ok (a, m')
    /\ deref m' a = v
    /\ view m' = solved st'
    /\ well_formed m'
    /\ (forall b, (b < length (objects empty_memory))%nat ->
          deref m' b = deref empty_memory b)
    /\ (forall k b, find (refs empty_memory) k = Some b ->
          find (refs m') k = Some b)
    /\ (CH.stop_default (CH.init 2 1 0 1 false 0 0 0 false false true) = false ->
        opens_saver (CH.init 2 1 0 1 false 0 0 0 false false true) = false ->
        find (refs m') (CH.init 2 1 0 1 false 0 0 0 false false true) = Some a).
Proof.
  destruct (calculate_value 3 (CH.init 2 1 0 1 false 0 0 0 false false true)
              (mkStore (view empty_memory) [])) as [[v st']| |] eqn:E;
    [|vm_compute in E; discriminate..].
  destruct (objects_follow_values _ _ _ _ _ _ well_formed_empty E)
    as (a & m' & H).
  exists v, st', a, m'. split; [reflexivity | exact H].
Defined.

(** X15.  The table adjusts twice.  [make_csv] assigns to [value.loot] of the
    object [calculate_value] returns, which is the object of the cache.  Of the
    60 rows of values, rows 37 and 39 (counted from 1; skip priority, a saver,
    no doubler, armory off; no crystal save and one crystal save) open the
    saver first and reach the same state, so they are given the same object:
    the value written in row 39 is the one written in row 37 with the
    adjustment applied once more.  The same holds for rows 38 and 40 (armory
    on).  This holds from every memory the solver has built, the empty one
    included.  (Lists count from 0: [nth_error table 36] is row 37.) *)
Theorem make_csv_adjusts_twice (m : memory) :
  well_formed m ->
  exists table m' r r',
    make_csv 31 m = Ok (table, m')
    /\ length table = 60%nat
    /\ nth_error table 36 = Some r
    /\ nth_error table 38 = Some (adjusted r)
    /\ nth_error table 37 = Some r'
    /\ nth_error table 39 = Some (adjusted r').
Proof.
  intros Hg.
  destruct (make_csv_same_owner 36 m (or_introl eq_refl) Hg)
    as (table & m' & r & E & L & _ & N1 & N2).
  destruct (make_csv_same_owner 37 m (or_intror eq_refl) Hg)
    as (table' & m'' & r' & E' & _ & _ & N1' & N2').
  rewrite E in E'. injection E' as <- <-.
  exists table, m', r, r'. auto 10.
Qed.

(** From the empty memory. *)
Lemma make_csv_adjusts_twice_witness :
  exists table m' r r',
    make_csv 31 empty_memory = Ok (table, m')
    /\ length table = 60%nat
    /\ nth_error table 36 = Some r
    /\ nth_error table 38 = Some (adjusted r)
    /\ nth_error table 37 = Some r'
    /\ nth_error table 39 = Some (adjusted r').
Proof.
  apply (make_csv_adjusts_twice empty_memory). exact well_formed_empty.
Defined.

(** X16.  The script.  Its two states are solved, their loot is adjusted and
    the values are printed; then the table is made.  The state [ch_ad] is also
    the state of the last row of the table (row 60), which is given the object
    of the cache that the script has adjusted already: the value written in the
    last row is the printed [value_ad] with the adjustment applied once more,
    where [value_ad] is the value of [ch_ad] (that of the recursion without the
    cache) adjusted once.  The two differ: the loot written in the last row
    exceeds the loot printed. *)
Theorem main_adjusts_twice :
  exists value value_ad table m',
    main 31 empty_memory = Ok (value, value_ad, table, m')
    /\ length table = 60%nat
    /\ nth_error csv_states 59 = Some main_ch_ad
    /\ nth_error table 59 = Some (adjusted value_ad)
    /\ (exists v, value_ad = adjusted v /\ value_of main_ch_ad v)
    /\ CHValue.loot value_ad < CHValue.loot (adjusted value_ad).
Proof.
  (* the two states of the script *)
  assert (T1 : table_state main_ch = true) by (vm_compute; reflexivity).
  assert (T2 : table_state main_ch_ad = true) by (vm_compute; reflexivity).
  destruct (table_state_counts _ T1) as (C1 & N1 & _).
  destruct (table_state_counts _ T2) as (C2 & N2 & _).
  destruct (calculate_value_obj_returns 30 main_ch empty_memory
              well_formed_empty C1 N1)
    as (v1 & st1 & a1 & m1 & Ev1 & Eo1 & (D1 & L1 & V1 & G1 & X1) & O1).
  destruct (calculate_value_faithful _ _ _ _ _ Ev1 faithful_empty) as [Ex1 _].
  destruct (calculate_value_obj_returns 30 main_ch_ad m1 G1 C2 N2)
    as (v2 & st2 & a2 & m2 & Ev2 & Eo2 & (D2 & L2 & V2 & G2 & X2) & O2).
  rewrite V1 in Ev2.
  destruct (calculate_value_faithful _ _ _ _ _ Ev2 Ex1) as [_ Val2].
  assert (K1 : find (refs m2) main_ch = Some a1).
  { apply (proj2 X2). apply O1. apply owner_of_owner. vm_compute. reflexivity. }
  assert (K2 : find (refs m2) main_ch_ad = Some a2).
  { apply O2. apply owner_of_owner. vm_compute. reflexivity. }
  assert (Hne : a2 <> a1).
  { intros ->. pose proof (bound_same m2 _ _ _ G2 K1 K2) as H.
    vm_compute in H. discriminate. }
  (* the adjustments *)
  set (m3 := with_adjusted (with_adjusted m2 a1) a2).
  assert (L1' : (a1 < length (objects m2))%nat)
    by (apply (bound_object m2 main_ch); assumption).
  assert (G3 : well_formed m3)
    by (apply well_formed_adjusted, well_formed_adjusted; exact G2).
  assert (D3 : deref m3 a2 = adjusted v2).
  { unfold m3. rewrite deref_adjusted, Nat.eqb_refl.
    - rewrite (deref_adjusted m2 a1 a2 L1').
      destruct (Nat.eqb_spec a2 a1); [contradiction|]. rewrite D2. reflexivity.
    - cbn [with_adjusted objects]. rewrite length_update. exact L2. }
  assert (K3 : find (refs m3) main_ch_ad = Some a2) by exact K2.
  (* the table *)
  assert (F1 : forallb table_state (firstn 59 csv_states) = true)
    by (vm_compute; reflexivity).
  assert (F2 : forallb (other_owner main_ch_ad) (firstn 59 csv_states) = true)
    by (vm_compute; reflexivity).
  destruct (rows_others main_ch_ad a2 (firstn 59 csv_states) m3 F1 F2 G3 K3)
    as (rs & m4 & E4 & Len4 & G4 & K4 & D4).
  assert (Hown : owner main_ch_ad main_ch_ad)
    by (apply owner_of_owner; vm_compute; reflexivity).
  destruct (row_same main_ch_ad main_ch_ad main_ch_ad a2 m4 G4 T2 Hown
              (eqb_refl _) K4)
    as (m5 & E5 & G5 & K5 & D5).
  rewrite D4, D3 in E5.
  assert (Etable : make_csv 31 m3
                   = Ok (rs ++ [adjusted (adjusted v2)], m5)).
  { unfold make_csv. rewrite csv_states_59.
    apply (rows_app 31 _ _ m3 rs m4 _ m5 E4).
    apply rows_one. exact E5. }
  exists (deref m3 a1), (deref m3 a2), (rs ++ [adjusted (adjusted v2)]), m5.
  split.
  { unfold main. unfold obind at 1. rewrite Eo1.
    unfold obind at 1. rewrite Eo2.
    unfold obind at 1, adjust at 1. fold (with_adjusted m2 a1).
    unfold obind at 1, adjust at 1. fold (with_adjusted (with_adjusted m2 a1) a2).
    fold m3. unfold obind at 1, read at 1. unfold obind at 1, read at 1.
    unfold obind at 1. rewrite Etable. reflexivity. }
  assert (Len59 : length rs = 59%nat) by (rewrite Len4; reflexivity).
  split; [rewrite length_app, Len59; reflexivity|].
  split; [reflexivity|].
  split.
  { rewrite nth_error_app2 by lia.
    rewrite Len59, D3. reflexivity. }
  split; [exists v2; split; [exact D3 | exact Val2]|].
  (* the adjustment changes the loot *)
  destruct Val2 as (n & w & Ew & (S1 & S2 & _)).
  assert (HI : Inv main_ch_ad) by (vm_compute; repeat split; discriminate).
  assert (Hl : 0 < CHValue.loot w).
  { apply (uncached_loot_pos n main_ch_ad w (24 # 29) HI);
      [reflexivity | reflexivity | reflexivity | reflexivity | exact Ew]. }
  assert (Hp : (1 # 593775) <= CHValue.perfect w).
  { assert (Ep : exists p,
               path_chance (DOUBLER :: SAVER :: repeat LOOT 24) main_ch_ad
               = Some p /\ (1 # 593775) <= p).
    { eexists. split; [vm_compute; reflexivity|].
      unfold Qle. vm_compute. discriminate. }
    destruct Ep as (p & Ep & Hle).
    apply Qle_trans with p; [exact Hle|].
    apply (uncached_path_bound _ n main_ch_ad w p HI Ep Ew). }
  rewrite D3. rewrite <- S1 in Hl. rewrite <- S2 in Hp.
  unfold adjusted. cbn [CHValue.loot CHValue.perfect].
  set (l := CHValue.loot v2) in *. set (q := CHValue.perfect v2) in *.
  assert (Hq : 0 < q) by lra.
  assert (H1 : 0 < q * l) by (apply Qmult_lt_0_compat; assumption).
  assert (H2 : 0 < q * (q * l)) by (apply Qmult_lt_0_compat; assumption).
  setoid_replace (l + 3 * q * l + 3 * q * (l + 3 * q * l))
    with (l + 3 * q * l + (3 * (q * l) + 9 * (q * (q * l)))) by ring.
  lra.
Qed.

(** ** The displayed numbers: [format] *)

Lemma digits_fuel_spec (fuel : nat) :
  forall p, (0 < p < 2 ^ Z.of_nat fuel)%Z ->
    (1 <= digits_fuel fuel p
     /\ 10 ^ (digits_fuel fuel p - 1) <= p < 10 ^ digits_fuel fuel p)%Z.
Proof.
  induction fuel as [|fuel IH]; intros p [Hp Hlt].
  - cbn in Hlt. lia.
  - cbn [digits_fuel]. destruct (Z.ltb_spec p 10) as [Hs|Hs].
    + cbn. lia.
    + rewrite Nat2Z.inj_succ, Z.pow_succ_r in Hlt by lia.
      assert (Hq : (0 < p / 10 < 2 ^ Z.of_nat fuel)%Z).
      { split.
        - apply Z.div_str_pos. lia.
        - apply Z.div_lt_upper_bound; lia. }
      destruct (IH (p / 10)%Z Hq) as (Hd & Hlo & Hhi).
      set (d := digits_fuel fuel (p / 10)) in *.
      pose proof (Z.mul_div_le p 10 ltac:(lia)) as H1.
      pose proof (Z.mul_succ_div_gt p 10 ltac:(lia)) as H2.
      replace (1 + d - 1)%Z with (Z.succ (d - 1)) by lia.
      replace (1 + d)%Z with (Z.succ d) by lia.
      rewrite !Z.pow_succ_r by lia. lia.
Qed.

Lemma digits_spec (p : Z) :
  (0 < p)%Z -> (1 <= digits p /\ 10 ^ (digits p - 1) <= p < 10 ^ digits p)%Z.
Proof.
  intros Hp. unfold digits. apply digits_fuel_spec.
  split; [exact Hp|].
  rewrite Z2Nat.id by (pose proof (Z.log2_nonneg p); lia).
  apply Z.log2_spec. exact Hp.
Qed.

Lemma Qpower10_pos (e : Z) : 0 < 10 ^ e.
Proof. apply Qpower_0_lt. reflexivity. Qed.

Lemma Qpower10_inject (n : Z) : (0 <= n)%Z -> inject_Z (10 ^ n) == 10 ^ n.
Proof. intros H. apply (Zpower_Qpower 10 n H). Qed.

(** The decimal exponent of a positive fraction, from the digits of its
    numerator and denominator. *)
Lemma digits_fraction (p q : Z) :
  (0 < p)%Z -> (0 < q)%Z ->
  10 ^ (digits p - digits q - 1) * inject_Z q <= inject_Z p
  /\ inject_Z p < 10 ^ (digits p - digits q + 1) * inject_Z q.
Proof.
  intros Hp Hq.
  destruct (digits_spec p Hp) as (Dp & Lp & Up).
  destruct (digits_spec q Hq) as (Dq & Lq & Uq).
  set (a := digits p) in *. set (b := digits q) in *.
  assert (LpQ : 10 ^ (a - 1) <= inject_Z p).
  { rewrite <- Qpower10_inject by lia. rewrite <- Zle_Qle. exact Lp. }
  assert (UpQ : inject_Z p < 10 ^ a).
  { rewrite <- Qpower10_inject by lia. rewrite <- Zlt_Qlt. exact Up. }
  assert (LqQ : 10 ^ (b - 1) <= inject_Z q).
  { rewrite <- Qpower10_inject by lia. rewrite <- Zle_Qle. exact Lq. }
  assert (UqQ : inject_Z q < 10 ^ b).
  { rewrite <- Qpower10_inject by lia. rewrite <- Zlt_Qlt. exact Uq. }
  assert (Ea : 10 ^ (a - 1) == 10 ^ (a - b - 1) * 10 ^ b).
  { rewrite <- Qpower_plus by discriminate.
    replace (a - b - 1 + b)%Z with (a - 1)%Z by lia. reflexivity. }
  assert (Eb : 10 ^ a == 10 ^ (a - b + 1) * 10 ^ (b - 1)).
  { rewrite <- Qpower_plus by discriminate.
    replace (a - b + 1 + (b - 1))%Z with a by lia. reflexivity. }
  pose proof (Qpower10_pos (a - b - 1)) as P1.
  pose proof (Qpower10_pos (a - b + 1)) as P2.
  split.
  - apply Qle_trans with (10 ^ (a - b - 1) * 10 ^ b).
    + apply Qmult_le_l; [exact P1 | apply Qlt_le_weak; exact UqQ].
    + rewrite <- Ea. exact LpQ.
  - apply Qlt_le_trans with (10 ^ a); [exact UpQ|].
    rewrite Eb. apply Qmult_le_l; [exact P2 | exact LqQ].
Qed.

Lemma Qabs_fraction (x : Q) :
  ~ x == 0 ->
  (0 < Qnum (Qabs x))%Z
  /\ Qabs x == inject_Z (Qnum (Qabs x)) / inject_Z (Zpos (Qden (Qabs x))).
Proof.
  intros Hx. split.
  - destruct x as [n d]. cbn [Qabs Qnum].
    assert (n <> 0%Z).
    { intros ->. apply Hx. reflexivity. }
    lia.
  - destruct (Qabs x) as [n d]. cbn [Qnum Qden]. apply Qmake_Qdiv.
Qed.

(** [x.adjusted()] is the exponent of the leading digit. *)
Lemma adjusted_exponent_spec (x : Q) :
  ~ x == 0 ->
  10 ^ adjusted_exponent x <= Qabs x
  /\ Qabs x < 10 ^ (adjusted_exponent x + 1).
Proof.
  intros Hx. destruct (Qabs_fraction x Hx) as [Hp Ea].
  unfold adjusted_exponent.
  set (a := Qabs x) in *. set (p := Qnum a) in *.
  set (q := Zpos (Qden a)) in *.
  assert (Hq : (0 < q)%Z) by reflexivity.
  destruct (digits_fraction p q Hp Hq) as [L U].
  set (e0 := (digits p - digits q)%Z) in *.
  assert (Hq' : 0 < inject_Z q) by (unfold Qlt; cbn; lia).
  assert (La : 10 ^ (e0 - 1) <= a).
  { rewrite Ea. apply Qle_shift_div_l; assumption. }
  assert (Ua : a < 10 ^ (e0 + 1)).
  { rewrite Ea. apply Qlt_shift_div_r; assumption. }
  cbv zeta. destruct (Qle_bool (10 ^ e0) a) eqn:E.
  - apply Qle_bool_iff in E. split; assumption.
  - assert (E' : a < 10 ^ e0).
    { apply Qnot_le_lt. intros H. apply Qle_bool_iff in H. congruence. }
    split; [exact La|].
    replace (e0 - 1 + 1)%Z with e0 by lia. exact E'.
Qed.

(** Rounding to the nearest integer moves a number by a half at most. *)
Lemma round_half_even_close (y : Q) :
  Qabs (inject_Z (round_half_even y) - y) <= 1 # 2.
Proof.
  unfold round_half_even.
  pose proof (Qfloor_le y) as Hlo. pose proof (Qlt_floor y) as Hhi.
  set (f := Qfloor y) in *. rewrite inject_Z_plus in Hhi.
  change (inject_Z 1) with 1 in Hhi.
  assert (Hup : inject_Z (f + 1) == inject_Z f + 1)
    by (rewrite inject_Z_plus; reflexivity).
  apply Qabs_Qle_condition.
  destruct (Qcompare_spec (y - inject_Z f) (1 # 2)) as [E|E|E].
  - destruct (Z.even f); rewrite ?Hup; split; lra.
  - split; lra.
  - rewrite Hup. split; lra.
Qed.

Lemma digits_le (p m : Z) :
  (0 <= p < 10 ^ m)%Z -> (0 <= m)%Z -> (digits p <= Z.max 1 m)%Z.
Proof.
  intros [Hp Hlt] Hm.
  destruct (Z.eq_dec p 0) as [->|Hn]; [vm_compute digits; lia|].
  destruct (digits_spec p ltac:(lia)) as (Hd & Hlo & _).
  assert (H : (10 ^ (digits p - 1) < 10 ^ m)%Z) by lia.
  apply Z.pow_lt_mono_r_iff in H; lia.
Qed.

(** The displayed numbers, on some values: four significant digits, ties to
    even, a carry into a fifth digit, small numbers, negative numbers, more
    digits than the precision. *)
Lemma format_examples :
  option_map Qred (format (123456 # 100) 4) = Some (1235 # 1)
  /\ option_map Qred (format (12345 # 10) 4) = Some (1234 # 1)
  /\ option_map Qred (format (99996 # 10000) 4) = Some (10 # 1)
  /\ option_map Qred (format (5 # 1000) 4) = Some (1 # 200)
  /\ option_map Qred (format (123449 # 100000000) 4) = Some (617 # 500000)
  /\ option_map Qred (format (- (26 # 5)) 4) = Some (- (26 # 5))
  /\ format 0 4 = Some 0
  /\ format (1 # 3) 29 = None.
Proof. vm_compute. repeat split; reflexivity. Qed.

(** The rounded coefficient has one digit more than asked for at most. *)
Lemma round_half_even_digits (y : Q) (k : Z) :
  (0 <= k)%Z -> Qabs y < 10 ^ (k + 1) ->
  (digits (Z.abs (round_half_even y)) <= k + 2)%Z.
Proof.
  intros Hk Hy. pose proof (round_half_even_close y) as C.
  set (n := round_half_even y) in *.
  assert (Hn : inject_Z (Z.abs n) < inject_Z (10 ^ (k + 1) + 1)).
  { rewrite inject_Z_plus, Qpower10_inject by lia.
    change (inject_Z 1) with 1.
    apply Qabs_Qle_condition in C. destruct C as [C1 C2].
    apply Qabs_Qlt_condition in Hy. destruct Hy as [Y1 Y2].
    destruct (Z.abs_spec n) as [[_ ->]|[_ ->]].
    - lra.
    - rewrite inject_Z_opp. lra. }
  rewrite <- Zlt_Qlt in Hn.
  assert (Hp : (10 ^ (k + 1) < 10 ^ (k + 2))%Z)
    by (apply Z.pow_lt_mono_r; lia).
  pose proof (digits_le (Z.abs n) (k + 2) ltac:(lia) ltac:(lia)). lia.
Qed.

(** X19.  [format].  With [sig_figs <= 27], one digit short of the precision,
    [format(x, sig_figs)] returns for every [x <> 0] whose leading digit
    leaves room in the exponents of the context: its exponent [a]
    ([10^a <= |x| < 10^(a+1)], the [a] of [x.adjusted()]) is below [Emax],
    and the unit [10^(a - (sig_figs - 1))] is not below [10^Etiny].  The
    result is then a multiple of that unit within half a unit of [x], that
    is, [x] rounded to [sig_figs] significant digits.  (Without a digit to
    keep, [sig_figs < 1], the unit is [10^a].) *)
Theorem format_rounds (x : Q) (sig_figs : Z) :
  ~ x == 0 -> (sig_figs <= 27)%Z ->
  (Etiny <= adjusted_exponent x - Z.max 0 (sig_figs - 1))%Z ->
  (adjusted_exponent x < Emax)%Z ->
  exists (a n : Z) (y : Q),
    format x sig_figs = Some y
    /\ a = adjusted_exponent x
    /\ 10 ^ a <= Qabs x /\ Qabs x < 10 ^ (a + 1)
    /\ y == inject_Z n * 10 ^ (a - Z.max 0 (sig_figs - 1))
    /\ Qabs (y - x) <= (1 # 2) * 10 ^ (a - Z.max 0 (sig_figs - 1)).
Proof.
  intros Hx Hs Hlo Hhi. destruct (adjusted_exponent_spec x Hx) as [L U].
  unfold format.
  destruct (Qeq_bool x 0) eqn:E.
  { apply Qeq_bool_iff in E. contradiction. }
  set (a := adjusted_exponent x) in *.
  set (k := Z.max 0 (sig_figs - 1)) in *.
  set (e := (a - k)%Z).
  pose proof (Qpower10_pos e) as P.
  assert (P' : 0 <= 10 ^ e) by (apply Qlt_le_weak; exact P).
  set (n := round_half_even (x / 10 ^ e)).
  exists a, n, (inject_Z n * 10 ^ e).
  cbv zeta.
  assert (G0 : (e <? Etiny)%Z || (Emax <? e)%Z = false).
  { apply orb_false_iff. split; apply Z.ltb_ge; unfold e, k in *; lia. }
  rewrite G0.
  assert (G3 : (a >? Emax)%Z = false).
  { rewrite Z.gtb_ltb. apply Z.ltb_ge. lia. }
  rewrite G3.
  assert (G1 : (a - e + 1 >? prec)%Z = false).
  { rewrite Z.gtb_ltb. apply Z.ltb_ge. unfold prec, e, k. lia. }
  rewrite G1.
  assert (Hy : Qabs (x / 10 ^ e) < 10 ^ (k + 1)).
  { unfold Qdiv. rewrite Qabs_Qmult, Qabs_Qinv, (Qabs_pos (10 ^ e)) by exact P'.
    apply Qlt_shift_div_r; [exact P|].
    rewrite <- Qpower_plus by discriminate.
    replace (k + 1 + e)%Z with (a + 1)%Z by (unfold e; lia). exact U. }
  pose proof (round_half_even_digits (x / 10 ^ e) k ltac:(unfold k; lia) Hy)
    as Hd.
  fold n in Hd.
  assert (G4 : (e + digits (Z.abs n) - 1 >? Emax)%Z = false).
  { rewrite Z.gtb_ltb. apply Z.ltb_ge. unfold e. lia. }
  rewrite G4.
  assert (G2 : (digits (Z.abs n) >? prec)%Z = false).
  { rewrite Z.gtb_ltb. apply Z.ltb_ge. unfold prec, k in *. lia. }
  rewrite G2.
  split; [reflexivity|]. split; [reflexivity|].
  split; [exact L|]. split; [exact U|].
  split; [reflexivity|].
  pose proof (round_half_even_close (x / 10 ^ e)) as C. fold n in C.
  set (r := inject_Z n) in *.
  assert (Ex : r * 10 ^ e - x == (r - x / 10 ^ e) * 10 ^ e).
  { field. intros H. rewrite H in P. exact (Qlt_irrefl 0 P). }
  rewrite Ex, Qabs_Qmult, (Qabs_pos (10 ^ e)) by exact P'.
  apply Qmult_le_compat_r; [exact C | exact P'].
Qed.

(** A loot of 5.19873, displayed with four digits: 5.199. *)
Lemma format_rounds_witness :
  exists (a n : Z) (y : Q),
    format (519873 # 100000) 4 = Some y
    /\ a = adjusted_exponent (519873 # 100000)
    /\ 10 ^ a <= Qabs (519873 # 100000)
    /\ Qabs (519873 # 100000) < 10 ^ (a + 1)
    /\ y == inject_Z n * 10 ^ (a - Z.max 0 (4 - 1))
    /\ Qabs (y - (519873 # 100000)) <= (1 # 2) * 10 ^ (a - Z.max 0 (4 - 1)).
Proof.
  apply (format_rounds (519873 # 100000) 4).
  - vm_compute. discriminate.
  - lia.
  - vm_compute. discriminate.
  - vm_compute. reflexivity.
Defined.

(** X20.  [format], the error.  More significant digits than the precision of
    the context cannot be asked for: with [sig_figs > 28], [format(x,
    sig_figs)] raises [InvalidOperation] for every [x <> 0]. *)
Theorem format_too_many_digits (x : Q) (sig_figs : Z) :
  ~ x == 0 -> (28 < sig_figs)%Z -> format x sig_figs = None.
Proof.
  intros Hx Hs. unfold format.
  destruct (Qeq_bool x 0) eqn:E.
  { apply Qeq_bool_iff in E. contradiction. }
  cbv zeta.
  assert (G : (adjusted_exponent x
               - (adjusted_exponent x - Z.max 0 (sig_figs - 1)) + 1
               >? prec)%Z = true).
  { apply Z.gtb_lt. unfold prec. lia. }
  rewrite G.
  destruct ((_ <? Etiny)%Z || _)%bool; [reflexivity|].
  destruct (adjusted_exponent x >? Emax)%Z; reflexivity.
Qed.

Lemma format_too_many_digits_witness : format (1 # 3) 29 = None.
Proof.
  apply (format_too_many_digits (1 # 3) 29).
  - vm_compute. discriminate.
  - lia.
Defined.

(** * The program in the decimal context *)

(** ** Rounding to the context *)

Lemma round_half_even_comp (y y' : Q) :
  y == y' -> round_half_even y = round_half_even y'.
Proof.
  intros E. unfold round_half_even. rewrite (Qfloor_comp _ _ E).
  assert (C : (y - inject_Z (Qfloor y') ?= 1 # 2)
              = (y' - inject_Z (Qfloor y') ?= 1 # 2))
    by (rewrite E; reflexivity).
  rewrite C. reflexivity.
Qed.

Lemma Qfloor_between (y : Q) (k : Z) :
  inject_Z k <= y -> y < inject_Z k + 1 -> Qfloor y = k.
Proof.
  intros L U. pose proof (Qfloor_le y) as F1. pose proof (Qlt_floor y) as F2.
  rewrite inject_Z_plus in F2. change (inject_Z 1) with 1 in F2.
  assert (A : inject_Z (Qfloor y) < inject_Z (k + 1)).
  { rewrite inject_Z_plus. change (inject_Z 1) with 1. lra. }
  assert (B : inject_Z k < inject_Z (Qfloor y + 1)).
  { rewrite inject_Z_plus. change (inject_Z 1) with 1. lra. }
  rewrite <- Zlt_Qlt in A, B. lia.
Qed.

Lemma round_half_even_Z (k : Z) : round_half_even (inject_Z k) = k.
Proof.
  unfold round_half_even. rewrite Qfloor_Z.
  destruct (Qcompare_spec (inject_Z k - inject_Z k) (1 # 2)) as [E|E|E].
  - exfalso. lra.
  - reflexivity.
  - exfalso. lra.
Qed.

Lemma round_half_even_upper (y : Q) (k : Z) :
  y <= inject_Z k -> (round_half_even y <= k)%Z.
Proof.
  intros H. unfold round_half_even.
  pose proof (Qfloor_le y) as F1.
  assert (Hf : (Qfloor y <= k)%Z).
  { rewrite Zle_Qle. lra. }
  cbv zeta.
  destruct (Qcompare_spec (y - inject_Z (Qfloor y)) (1 # 2)) as [E|E|E].
  - assert (Hn : Qfloor y <> k) by (intros N; rewrite N in E; lra).
    destruct (Z.even _); lia.
  - exact Hf.
  - assert (Hn : Qfloor y <> k) by (intros N; rewrite N in E; lra). lia.
Qed.

Lemma round_half_even_lower (y : Q) (k : Z) :
  inject_Z k <= y -> (k <= round_half_even y)%Z.
Proof.
  intros H. unfold round_half_even.
  assert (Hf : (k <= Qfloor y)%Z).
  { rewrite <- (Qfloor_Z k). apply Qfloor_resp_le. exact H. }
  destruct (_ ?= _); [destruct (Z.even _)| |]; lia.
Qed.

(** Up to a half above an even number, the rounding goes down. *)
Lemma round_half_even_down (y : Q) (k : Z) :
  inject_Z k <= y -> y <= inject_Z k + (1 # 2) -> Z.even k = true ->
  round_half_even y = k.
Proof.
  intros L U Ev. unfold round_half_even.
  rewrite (Qfloor_between y k) by lra. rewrite Ev.
  destruct (Qcompare_spec (y - inject_Z k) (1 # 2)) as [E|E|E];
    try reflexivity.
  exfalso. lra.
Qed.

Lemma Qpower10_nonneg (e : Z) : 0 <= 10 ^ e.
Proof. apply Qlt_le_weak, Qpower10_pos. Qed.

Lemma Qpower10_neq (e : Z) : ~ 10 ^ e == 0.
Proof.
  intros H. pose proof (Qpower10_pos e) as P. rewrite H in P.
  exact (Qlt_irrefl 0 P).
Qed.

Lemma Qpower10_le (a b : Z) : (a <= b)%Z -> 10 ^ a <= 10 ^ b.
Proof. intros H. apply Qpower_le_compat_l; [exact H | discriminate]. Qed.

Lemma Qpower10_lt_inv (a b : Z) : 10 ^ a < 10 ^ b -> (a < b)%Z.
Proof.
  intros H. apply (Qpower_lt_compat_l_inv 10); [exact H | reflexivity].
Qed.

Lemma Qpower10_split (a b : Z) : 10 ^ (a + b) == 10 ^ a * 10 ^ b.
Proof. apply Qpower_plus. discriminate. Qed.

(** Dividing by a power of ten is multiplying by the opposite power. *)
Lemma Qdiv_power10 (x : Q) (e : Z) : x / 10 ^ e == x * 10 ^ (- e).
Proof. unfold Qdiv. rewrite Qpower_opp. reflexivity. Qed.

(** The exponent of the leading digit is the only one between whose powers
    the number lies. *)
Lemma adjusted_exponent_unique (x : Q) (a : Z) :
  10 ^ a <= Qabs x -> Qabs x < 10 ^ (a + 1) -> adjusted_exponent x = a.
Proof.
  intros L U.
  assert (Hx : ~ x == 0).
  { intros E. rewrite E in L. pose proof (Qpower10_pos a) as P.
    change (Qabs 0) with 0 in L. lra. }
  destruct (adjusted_exponent_spec x Hx) as [L' U'].
  assert (A : (a < adjusted_exponent x + 1)%Z).
  { apply Qpower10_lt_inv. eapply Qle_lt_trans; eassumption. }
  assert (B : (adjusted_exponent x < a + 1)%Z).
  { apply Qpower10_lt_inv. eapply Qle_lt_trans; eassumption. }
  lia.
Qed.

Lemma adjusted_exponent_comp (x y : Q) :
  ~ x == 0 -> x == y -> adjusted_exponent x = adjusted_exponent y.
Proof.
  intros Hx E. assert (Hy : ~ y == 0) by (rewrite <- E; exact Hx).
  destruct (adjusted_exponent_spec y Hy) as [L U].
  apply adjusted_exponent_unique; rewrite E; assumption.
Qed.

Lemma adjusted_exponent_below (x : Q) (b : Z) :
  ~ x == 0 -> Qabs x < 10 ^ b -> (adjusted_exponent x < b)%Z.
Proof.
  intros Hx H. destruct (adjusted_exponent_spec x Hx) as [L _].
  apply Qpower10_lt_inv. eapply Qle_lt_trans; eassumption.
Qed.

Lemma round_zero (x : Q) : x == 0 -> Dec.round x = 0.
Proof.
  intros E. unfold Dec.round. apply Qeq_bool_iff in E. rewrite E. reflexivity.
Qed.

Lemma round_nonzero (x : Q) :
  ~ x == 0 ->
  Dec.round x
  = inject_Z (round_half_even (x / 10 ^ Dec.quantum x)) * 10 ^ Dec.quantum x.
Proof.
  intros Hx. unfold Dec.round. destruct (Qeq_bool x 0) eqn:E.
  - apply Qeq_bool_iff in E. contradiction.
  - reflexivity.
Qed.

(** The rounding does not tell equal rationals apart. *)
Lemma round_comp (x y : Q) : x == y -> Dec.round x == Dec.round y.
Proof.
  intros E. destruct (Qeq_dec x 0) as [Z|NZ].
  - rewrite (round_zero x Z), (round_zero y) by (rewrite <- E; exact Z).
    reflexivity.
  - assert (NZ' : ~ y == 0) by (rewrite <- E; exact NZ).
    rewrite (round_nonzero x NZ), (round_nonzero y NZ').
    unfold Dec.quantum. rewrite <- (adjusted_exponent_comp x y NZ E).
    set (q := Z.max _ _).
    rewrite (round_half_even_comp (x / 10 ^ q) (y / 10 ^ q))
      by (rewrite E; reflexivity).
    reflexivity.
Qed.

#[export] Instance round_Proper : Proper (Qeq ==> Qeq) Dec.round.
Proof. intros x y E. apply round_comp. exact E. Qed.

Lemma round_nonneg (x : Q) : 0 <= x -> 0 <= Dec.round x.
Proof.
  intros H. destruct (Qeq_dec x 0) as [Z|NZ].
  - rewrite (round_zero x Z). lra.
  - rewrite (round_nonzero x NZ). set (q := Dec.quantum x).
    pose proof (Qpower10_pos q) as P.
    apply Qmult_le_0_compat; [|lra].
    change 0 with (inject_Z 0). rewrite <- Zle_Qle.
    apply round_half_even_lower. change (inject_Z 0) with 0.
    apply Qle_shift_div_l; [exact P | lra].
Qed.

(** The rounding moves a number by half a unit of its last digit at most. *)
Lemma round_close (x : Q) :
  ~ x == 0 -> Qabs (Dec.round x - x) <= (1 # 2) * 10 ^ Dec.quantum x.
Proof.
  intros NZ. rewrite (round_nonzero x NZ). set (q := Dec.quantum x).
  pose proof (Qpower10_pos q) as P. pose proof (Qpower10_nonneg q) as P'.
  pose proof (round_half_even_close (x / 10 ^ q)) as C.
  set (r := inject_Z (round_half_even (x / 10 ^ q))) in *.
  assert (Ex : r * 10 ^ q - x == (r - x / 10 ^ q) * 10 ^ q).
  { field. apply Qpower10_neq. }
  rewrite Ex, Qabs_Qmult, (Qabs_pos (10 ^ q)) by exact P'.
  apply Qmult_le_compat_r; [exact C | exact P'].
Qed.

(** A whole number of fewer than 29 digits is a number of the context. *)
Lemma round_whole (x : Q) :
  whole x -> Qabs x < 10 ^ 28 -> Dec.round x == x.
Proof.
  intros [z Ez] Hb. destruct (Qeq_dec x 0) as [Z|NZ].
  - rewrite (round_zero x Z), Z. reflexivity.
  - rewrite (round_nonzero x NZ).
    pose proof (adjusted_exponent_below x 28 NZ Hb) as Ha.
    set (q := Dec.quantum x).
    assert (Hq : (q <= 0)%Z).
    { unfold q, Dec.quantum, prec, Etiny, Emin, prec. lia. }
    assert (E : x / 10 ^ q == inject_Z (z * 10 ^ (- q))).
    { rewrite Qdiv_power10, inject_Z_mult, Qpower10_inject by lia.
      rewrite Ez. reflexivity. }
    rewrite (round_half_even_comp _ _ E), round_half_even_Z.
    rewrite inject_Z_mult, Qpower10_inject by lia.
    rewrite <- Qmult_assoc, <- Qpower10_split.
    replace (- q + q)%Z with 0%Z by lia. rewrite Ez.
    change (10 ^ 0) with 1. ring.
Qed.

Lemma representable_0 : Dec.representable 0.
Proof.
  exists 0%Z, 0%Z. repeat split.
  - vm_compute. discriminate.
  - unfold Etiny, Emin, prec. lia.
Qed.

Lemma representable_1 : Dec.representable 1.
Proof.
  exists 1%Z, 0%Z. repeat split.
  - vm_compute. discriminate.
  - unfold Etiny, Emin, prec. lia.
Qed.

(** The scaled number has 28 digits before the point at most. *)
Lemma scaled_bound (x : Q) :
  ~ x == 0 -> Qabs (x / 10 ^ Dec.quantum x) < 10 ^ 28.
Proof.
  intros NZ. destruct (adjusted_exponent_spec x NZ) as [_ U].
  set (q := Dec.quantum x). pose proof (Qpower10_pos q) as P.
  unfold Qdiv. rewrite Qabs_Qmult, Qabs_Qinv, (Qabs_pos (10 ^ q))
    by (apply Qpower10_nonneg).
  apply Qlt_shift_div_r; [exact P|].
  rewrite <- Qpower10_split.
  eapply Qlt_le_trans; [exact U|]. apply Qpower10_le.
  unfold q, Dec.quantum, prec. lia.
Qed.

Lemma round_representable (x : Q) : Dec.representable (Dec.round x).
Proof.
  destruct (Qeq_dec x 0) as [Z|NZ].
  - rewrite (round_zero x Z). apply representable_0.
  - rewrite (round_nonzero x NZ). set (q := Dec.quantum x).
    exists (round_half_even (x / 10 ^ q)), q. split; [reflexivity|].
    split; [|unfold q, Dec.quantum; lia].
    pose proof (scaled_bound x NZ) as B. fold q in B.
    apply Qabs_Qlt_condition in B. destruct B as [B1 B2].
    assert (E : inject_Z (10 ^ prec) == 10 ^ 28)
      by (apply (Qpower10_inject 28); lia).
    apply Z.abs_le. split.
    + apply round_half_even_lower. rewrite inject_Z_opp, E. lra.
    + apply round_half_even_upper. rewrite E. lra.
Qed.

(** The rounding does not pass a number of the context: rounded numbers are
    in the order of the exact ones. *)
Lemma round_below (x r : Q) :
  0 <= x -> Dec.representable r -> x <= r -> Dec.round x <= r.
Proof.
  intros Hx (m & e & Er & Hm & He) Hle.
  destruct (Qeq_dec x 0) as [Z|NZ].
  { rewrite (round_zero x Z). lra. }
  assert (Hpos : 0 < x).
  { destruct (Qle_lt_or_eq _ _ Hx) as [H|H]; [exact H|].
    exfalso. apply NZ. symmetry. exact H. }
  rewrite (round_nonzero x NZ). set (q := Dec.quantum x).
  pose proof (Qpower10_pos q) as P. pose proof (Qpower10_pos e) as Pe.
  destruct (adjusted_exponent_spec x NZ) as [L U].
  rewrite (Qabs_pos x Hx) in L, U.
  destruct (Z_le_gt_dec q e) as [Hqe|Hqe].
  - (* [r] is a multiple of the unit of [x] *)
    assert (E : r == inject_Z (m * 10 ^ (e - q)) * 10 ^ q).
    { rewrite inject_Z_mult, Qpower10_inject by lia.
      rewrite <- Qmult_assoc, <- Qpower10_split.
      replace (e - q + q)%Z with e by lia. exact Er. }
    rewrite E. apply Qmult_le_compat_r; [|lra].
    rewrite <- Zle_Qle. apply round_half_even_upper.
    apply Qle_shift_div_r; [exact P|]. rewrite <- E. exact Hle.
  - (* [r] is below the leading digit of [x], unless both are its power *)
    assert (Hq : q = (adjusted_exponent x - 27)%Z).
    { unfold q, Dec.quantum, prec in *. lia. }
    assert (Hm' : inject_Z m <= 10 ^ 28).
    { rewrite <- (Qpower10_inject 28) by lia. rewrite <- Zle_Qle.
      unfold prec in Hm. lia. }
    assert (Hr : r <= 10 ^ adjusted_exponent x).
    { rewrite Er. apply Qle_trans with (10 ^ 28 * 10 ^ e).
      - apply Qmult_le_compat_r; [exact Hm' | lra].
      - rewrite <- Qpower10_split. apply Qpower10_le. lia. }
    assert (Ex : x == 10 ^ adjusted_exponent x) by lra.
    assert (E : x / 10 ^ q == inject_Z (10 ^ 27)).
    { rewrite Qdiv_power10, Qpower10_inject by lia.
      rewrite Ex at 1. rewrite <- Qpower10_split.
      replace (adjusted_exponent x + - q)%Z with 27%Z by lia. reflexivity. }
    rewrite (round_half_even_comp _ _ E), round_half_even_Z.
    rewrite Qpower10_inject by lia. rewrite <- Qpower10_split.
    replace (27 + q)%Z with (adjusted_exponent x) by lia.
    rewrite <- Ex. exact Hle.
Qed.

(** Near one: a number up to five units of the 28th digit above one rounds
    to one at most, and a number up to one moves up by half a unit of the
    28th digit after the point at most. *)
Lemma round_unit (y : Q) :
  0 <= y -> y <= 1 + 10 * Dec.half_unit ->
  Dec.round y <= 1 /\ Dec.round y <= y + Dec.half_unit.
Proof.
  intros H0 H1. unfold Dec.half_unit in *.
  destruct (Qeq_dec y 0) as [Z|NZ].
  { rewrite (round_zero y Z). split; lra. }
  destruct (Qlt_le_dec y 1) as [Hlt|Hge].
  - split; [apply round_below; [exact H0 | apply representable_1 | lra]|].
    pose proof (round_close y NZ) as C.
    assert (Ha : (adjusted_exponent y < 0)%Z).
    { apply adjusted_exponent_below; [exact NZ|].
      rewrite (Qabs_pos y H0). exact Hlt. }
    assert (Hq : (Dec.quantum y <= -28)%Z).
    { unfold Dec.quantum, prec, Etiny, Emin, prec. lia. }
    pose proof (Qpower10_le _ _ Hq) as Hp.
    change (10 ^ (-28)) with (1 # 10000000000000000000000000000) in Hp.
    apply Qabs_Qle_condition in C. destruct C as [_ C]. lra.
  - assert (Ha : adjusted_exponent y = 0%Z).
    { apply adjusted_exponent_unique; rewrite (Qabs_pos y H0).
      - exact Hge.
      - change (10 ^ (0 + 1)) with 10. lra. }
    assert (Hq : Dec.quantum y = (-27)%Z).
    { unfold Dec.quantum. rewrite Ha. reflexivity. }
    assert (E : Dec.round y == 1).
    { rewrite (round_nonzero y NZ), Hq.
      rewrite (round_half_even_down _ (10 ^ 27)%Z).
      - reflexivity.
      - rewrite Qdiv_power10. change (10 ^ (- -27)) with (inject_Z (10 ^ 27)).
        rewrite <- (Qmult_1_l (inject_Z (10 ^ 27))) at 1.
        apply Qmult_le_compat_r; [exact Hge | discriminate].
      - rewrite Qdiv_power10. change (10 ^ (- -27)) with (inject_Z (10 ^ 27)).
        assert (X : y * inject_Z (10 ^ 27)
                    <= (1 + 10 * (1 # 20000000000000000000000000000))
                       * inject_Z (10 ^ 27))
          by (apply Qmult_le_compat_r; [exact H1 | discriminate]).
        eapply Qle_trans; [exact X|]. vm_compute. discriminate.
      - reflexivity. }
    rewrite E. split; lra.
Qed.

(** ** Where the context computes exactly *)

Lemma whole_minus (x y : Q) : whole x -> whole y -> whole (x - y).
Proof.
  intros [a Ha] [b Hb]. exists (a - b)%Z.
  unfold Z.sub. rewrite inject_Z_plus, inject_Z_opp, Ha, Hb. reflexivity.
Qed.

Lemma whole_one : whole 1.
Proof. exists 1%Z. reflexivity. Qed.

Lemma whole_comp (x y : Q) : x == y -> whole x -> whole y.
Proof. intros E [z Hz]. exists z. rewrite <- E. exact Hz. Qed.

(** Whole numbers of fewer than 29 digits are added and subtracted as they
    are. *)
Lemma add_whole (x y : Q) :
  whole x -> whole y -> - 10 ^ 28 < x + y -> x + y < 10 ^ 28 ->
  Dec.add x y == x + y.
Proof.
  intros Hx Hy L U. apply round_whole; [apply whole_plus; assumption|].
  apply Qabs_Qlt_condition. split; assumption.
Qed.

Lemma sub_whole (x y : Q) :
  whole x -> whole y -> - 10 ^ 28 < x - y -> x - y < 10 ^ 28 ->
  Dec.sub x y == x - y.
Proof.
  intros Hx Hy L U. apply round_whole; [apply whole_minus; assumption|].
  apply Qabs_Qlt_condition. split; assumption.
Qed.

Lemma add_comp (x x' y y' : Q) :
  x == x' -> y == y' -> Dec.add x y == Dec.add x' y'.
Proof. intros E1 E2. unfold Dec.add. rewrite E1, E2. reflexivity. Qed.

Lemma sub_comp (x x' y y' : Q) :
  x == x' -> y == y' -> Dec.sub x y == Dec.sub x' y'.
Proof. intros E1 E2. unfold Dec.sub. rewrite E1, E2. reflexivity. Qed.

Lemma div_defined (x y x' y' : Q) :
  x == x' -> y == y' -> ~ y' == 0 ->
  exists c, Dec.div x y = inr c /\ c == Dec.round (x' / y').
Proof.
  intros E1 E2 NZ. unfold Dec.div.
  destruct (Qeq_bool y 0) eqn:E.
  - apply Qeq_bool_iff in E. rewrite E2 in E. contradiction.
  - eexists. split; [reflexivity|]. rewrite E1, E2. reflexivity.
Qed.

Lemma doublers01_range (s : CH.t) :
  0 <= inject_Z (CH.doublers01 s) /\ inject_Z (CH.doublers01 s) <= 1.
Proof.
  unfold CH.doublers01. destruct (_ >? _)%Z; split; discriminate.
Qed.

Lemma inject_Z_abs_le (z b : Z) :
  (Z.abs z <= b)%Z -> - inject_Z b <= inject_Z z /\ inject_Z z <= inject_Z b.
Proof.
  intros H. rewrite <- inject_Z_opp, <- !Zle_Qle. lia.
Qed.

Section Within.

(** A state whose decimals are whole numbers, and whose counts of chests,
    mimics and savers have 28 digits at most. *)
Variable s : CH.t.
Hypothesis whole_chests : whole (CH.chests s).
Hypothesis whole_mimics : whole (CH.mimics s).
Hypothesis bound_chests : Qabs (CH.chests s) <= 10 ^ 27.
Hypothesis bound_mimics : Qabs (CH.mimics s) <= 10 ^ 27.
Hypothesis bound_savers : (Z.abs (CH.savers s) <= 10 ^ 27)%Z.

Lemma within_bounds :
  (- (1000000000000000000000000000) <= CH.chests s
   /\ CH.chests s <= 1000000000000000000000000000)
  /\ (- (1000000000000000000000000000) <= CH.mimics s
      /\ CH.mimics s <= 1000000000000000000000000000)
  /\ (- (1000000000000000000000000000) <= inject_Z (CH.savers s)
      /\ inject_Z (CH.savers s) <= 1000000000000000000000000000).
Proof.
  split; [|split].
  - apply Qabs_Qle_condition in bound_chests. exact bound_chests.
  - apply Qabs_Qle_condition in bound_mimics. exact bound_mimics.
  - apply inject_Z_abs_le in bound_savers. exact bound_savers.
Qed.

Lemma ctx_live_chests : Ctx.live_chests s == CH.live_chests s.
Proof.
  destruct within_bounds as ((C1 & C2) & _ & (S1 & S2)).
  unfold Ctx.live_chests, CH.live_chests.
  apply sub_whole; [assumption | apply whole_Z | |];
    change (10 ^ 28) with 10000000000000000000000000000;
    destruct (CH.ad s); change (inject_Z 0) with 0; lra.
Qed.

Lemma whole_live_chests : whole (CH.live_chests s).
Proof.
  unfold CH.live_chests. apply whole_minus; [assumption | apply whole_Z].
Qed.

(** The numerator of the chance of loot. *)
Lemma ctx_loot_numerator :
  Dec.sub
    (Dec.sub (Dec.sub (Ctx.live_chests s) (CH.mimics s))
       (inject_Z (if CH.ad s then 0%Z else CH.savers s)))
    (inject_Z (CH.doublers01 s))
  == CH.live_chests s - CH.mimics s
     - inject_Z (if CH.ad s then 0%Z else CH.savers s)
     - inject_Z (CH.doublers01 s).
Proof.
  destruct within_bounds as ((C1 & C2) & (M1 & M2) & (S1 & S2)).
  pose proof (doublers01_range s) as [D1 D2].
  pose proof whole_live_chests as WL.
  assert (E1 : Dec.sub (Ctx.live_chests s) (CH.mimics s)
               == CH.live_chests s - CH.mimics s).
  { rewrite (sub_comp _ (CH.live_chests s) _ (CH.mimics s) ctx_live_chests)
      by reflexivity.
    apply sub_whole; try assumption;
      change (10 ^ 28) with 10000000000000000000000000000;
      unfold CH.live_chests; destruct (CH.ad s);
      change (inject_Z 0) with 0; lra. }
  set (sv := inject_Z (if CH.ad s then 0%Z else CH.savers s)).
  assert (E2 : Dec.sub (Dec.sub (Ctx.live_chests s) (CH.mimics s)) sv
               == CH.live_chests s - CH.mimics s - sv).
  { rewrite (sub_comp _ (CH.live_chests s - CH.mimics s) _ sv E1)
      by reflexivity.
    apply sub_whole;
      [apply whole_minus; assumption | apply whole_Z | |];
      change (10 ^ 28) with 10000000000000000000000000000;
      unfold CH.live_chests, sv; destruct (CH.ad s);
      change (inject_Z 0) with 0; lra. }
  rewrite (sub_comp _ (CH.live_chests s - CH.mimics s - sv) _
             (inject_Z (CH.doublers01 s)) E2) by reflexivity.
  apply sub_whole;
    [apply whole_minus; [apply whole_minus; assumption | apply whole_Z]
    | apply whole_Z | |];
    change (10 ^ 28) with 10000000000000000000000000000;
    unfold CH.live_chests, sv; destruct (CH.ad s);
    change (inject_Z 0) with 0; lra.
Qed.

(** Where no divisor is zero, a chance is its quotient, rounded. *)
Lemma ctx_chance (t : CHType) :
  ~ CH.chests s == 0 -> ~ CH.live_chests s == 0 ->
  exists c, Ctx.chance s t = inr c /\ c == Dec.round (weight s t).
Proof.
  intros Hc Hl.
  destruct t; cbn [Ctx.chance weight];
    unfold Ctx._chance_loot, Ctx._chance_mimic, Ctx._chance_doubler.
  - apply div_defined;
      [apply ctx_loot_numerator | apply ctx_live_chests | exact Hl].
  - apply div_defined; [reflexivity | apply ctx_live_chests | exact Hl].
  - apply div_defined; [reflexivity | reflexivity | exact Hc].
  - apply div_defined; [reflexivity | apply ctx_live_chests | exact Hl].
Qed.

(** Every transition takes exactly one chest, and the mimic one mimic. *)
Lemma ctx_next_chests (t : CHType) :
  CH.chests (Ctx.next s t) == CH.chests s - 1.
Proof.
  destruct within_bounds as ((C1 & C2) & _).
  assert (E : CH.chests (Ctx.next s t) = Dec.sub (CH.chests s) 1)
    by (destruct t; reflexivity).
  rewrite E.
  apply sub_whole; [assumption | apply whole_one | |];
    change (10 ^ 28) with 10000000000000000000000000000; lra.
Qed.

Lemma ctx_next_mimics (t : CHType) :
  CH.mimics (Ctx.next s t) == CH.mimics (CH.next s t).
Proof.
  destruct within_bounds as (_ & (M1 & M2) & _).
  destruct t; try reflexivity.
  change (Dec.sub (CH.mimics s) 1 == CH.mimics s - 1).
  apply sub_whole; [assumption | apply whole_one | |];
    change (10 ^ 28) with 10000000000000000000000000000; lra.
Qed.

(** The transition of the context is the exact one. *)
Lemma ctx_next_eqb (t : CHType) :
  CH.eqb (Ctx.next s t) (CH.next s t) = true.
Proof.
  apply eqb_fields.
  split; [rewrite ctx_next_chests, next_chests; reflexivity|].
  split; [apply ctx_next_mimics|].
  destruct t; repeat split; reflexivity.
Qed.

End Within.

(** ** Countable hunts *)

Lemma countable_within (s : CH.t) :
  countable s ->
  whole (CH.chests s) /\ whole (CH.mimics s)
  /\ Qabs (CH.chests s) <= 10 ^ 27 /\ Qabs (CH.mimics s) <= 10 ^ 27
  /\ (Z.abs (CH.savers s) <= 10 ^ 27)%Z.
Proof.
  intros (((Hc & Hm & Hsv & _) & Wc & Wm) & Hf & Hb).
  unfold fits in Hf.
  assert (Hd : 0 <= activeDoublers s)
    by (unfold activeDoublers; destruct (_ >? _)%Z; lra).
  pose proof (inject_Z_nonneg _ Hsv) as Hsv'.
  split; [exact Wc|]. split; [exact Wm|].
  split; [rewrite Qabs_pos by exact Hc; exact Hb|].
  split; [rewrite Qabs_pos by exact Hm; lra|].
  assert (X : inject_Z (CH.savers s) <= inject_Z (10 ^ 27)).
  { change (inject_Z (10 ^ 27)) with (10 ^ 27). lra. }
  rewrite <- Zle_Qle in X. lia.
Qed.

Lemma valid_countable (s : CH.t) :
  valid s -> whole (CH.chests s) -> whole (CH.mimics s) ->
  CH.chests s <= 10 ^ 27 -> countable s.
Proof.
  intros Hv Wc Wm Hb. split; [|split; [apply valid_fits; exact Hv | exact Hb]].
  split; [|split; assumption].
  unfold valid in Hv. tauto.
Qed.

Lemma countable_eqb (a b : CH.t) :
  CH.eqb a b = true -> countable a -> countable b.
Proof.
  intros E. apply eqb_fields in E.
  destruct E as (Ec & Em & Esv & Es & _ & Ecs & Ed & Eds & _).
  intros (((Hc & Hm & Hsv & Hs & Hcs & Hd & Hds) & Wc & Wm) & Hf & Hb).
  unfold countable, counts, fits, activeDoublers in *.
  rewrite <- Esv, <- Es, <- Ecs, <- Ed, <- Eds.
  repeat split; try assumption.
  - rewrite <- Ec. exact Hc.
  - rewrite <- Em. exact Hm.
  - apply (whole_comp _ _ Ec Wc).
  - apply (whole_comp _ _ Em Wm).
  - rewrite <- Ec, <- Em. exact Hf.
  - rewrite <- Ec. exact Hb.
Qed.

(** On a countable hunt the stop is the exact one. *)
Lemma ctx_stop_default (s : CH.t) :
  countable s -> Ctx.stop_default s = CH.stop_default s.
Proof.
  intros (((Hc & Hm & Hsv & _) & Wc & Wm) & Hf & Hb).
  unfold fits in Hf. rewrite <- doublers01_active in Hf.
  pose proof (doublers01_range s) as [D1 D2].
  pose proof (inject_Z_nonneg _ Hsv) as Hsv'.
  change (10 ^ 27) with 1000000000000000000000000000 in Hb.
  unfold Ctx.stop_default, CH.stop_default.
  assert (E1 : Dec.add (CH.mimics s) (inject_Z (CH.savers s))
               == CH.mimics s + inject_Z (CH.savers s)).
  { apply add_whole; [assumption | apply whole_Z | |];
      change (10 ^ 28) with 10000000000000000000000000000; lra. }
  assert (E2 : Dec.add (Dec.add (CH.mimics s) (inject_Z (CH.savers s)))
                 (inject_Z (CH.doublers01 s))
               == CH.mimics s + inject_Z (CH.savers s)
                  + inject_Z (CH.doublers01 s)).
  { rewrite (add_comp _ _ _ (inject_Z (CH.doublers01 s)) E1)
      by reflexivity.
    apply add_whole;
      [apply whole_plus; [assumption | apply whole_Z] | apply whole_Z | |];
      change (10 ^ 28) with 10000000000000000000000000000; lra. }
  cbv zeta. rewrite (Qle_bool_eq _ (CH.chests s) _ _ (Qeq_refl _) E2).
  reflexivity.
Qed.

Lemma ctx_stop (d : CH.dict) (s : CH.t) :
  countable s -> Ctx.stop d s = CH.stop d s.
Proof.
  intros H. unfold Ctx.stop, CH.stop. rewrite (ctx_stop_default s H).
  reflexivity.
Qed.

Lemma countable_next_eqb (s : CH.t) (t : CHType) :
  countable s -> CH.eqb (Ctx.next s t) (CH.next s t) = true.
Proof.
  intros H. destruct (countable_within s H) as (A & B & C & D & E).
  apply ctx_next_eqb; assumption.
Qed.

(** Every transition the solver takes keeps the hunt countable. *)
Lemma countable_next (s : CH.t) (t : CHType) :
  countable s -> explores s t = true -> countable (Ctx.next s t).
Proof.
  intros H Hex.
  apply (countable_eqb (CH.next s t));
    [apply eqb_sym, countable_next_eqb; exact H|].
  destruct H as (HC & HF & Hb).
  destruct (fits_next s t (conj HC HF) Hex) as [HC' HF'].
  split; [exact HC'|]. split; [exact HF'|].
  rewrite next_chests. lra.
Qed.

(** While the hunt goes on, every chance is a quotient between zero and
    one, rounded. *)
Lemma countable_chance (s : CH.t) (t : CHType) :
  countable s -> CH.stop_default s = false ->
  exists c w,
    Ctx.chance s t = inr c /\ c == Dec.round w
    /\ w = weight s t /\ 0 <= w /\ w <= 1.
Proof.
  intros H Hgo. destruct (countable_within s H) as (A & B & C & D & E).
  destruct H as (((Hc & Hm & Hsv & _) & _) & _).
  destruct (going_live s Hm Hsv Hgo) as (Hpos & Hl & _).
  destruct (ctx_chance s A B C D E t) as (c & Ec & Hcw);
    [lra | lra |].
  destruct (chance_range s t Hm Hsv Hgo) as (w & Ew & W0 & W1).
  assert (He : 0 < effectiveChests s)
    by (rewrite <- live_chests_effective; exact Hl).
  rewrite (chance_weight s t Hpos He) in Ew. injection Ew as <-.
  exists c, (weight s t). auto.
Qed.

(** ** Termination in the context *)

Section CtxFinishes.

Variable self : CH.t -> M CHValue.t.
Variable s : CH.t.
Hypothesis children :
  forall t, finishes (self (Ctx.next s t)) (fun _ => True).

Lemma ctx_finishes_recurse (t : CHType) :
  finishes (Ctx.recurse self s t) (fun _ => True).
Proof.
  unfold Ctx.recurse, Ctx.next_of.
  apply finishes_bind with (R := fun s' => s' = Ctx.next s t).
  - apply finishes_bind with (R := fun _ => True).
    + apply finishes_log.
    + intros _ _. apply finishes_ret. reflexivity.
  - intros s' ->. apply children.
Qed.

Lemma ctx_finishes_weighted (t : CHType) (value : CHValue.t) :
  finishes (Ctx.weighted self s t value) (fun _ => True).
Proof.
  unfold Ctx.weighted, Ctx.chance_of.
  apply finishes_bind with (R := fun _ => True).
  { apply finishes_bind with (R := fun _ => True);
      [apply finishes_log | intros _ _; apply finishes_lift]. }
  intros c _. apply finishes_bind with (R := fun _ => True).
  { apply ctx_finishes_recurse. }
  intros v _. apply finishes_ret. exact I.
Qed.

Lemma ctx_finishes_double_mimic_loot (value : CHValue.t) :
  finishes (Ctx.double_mimic_loot self s value) (fun _ => True).
Proof.
  unfold Ctx.double_mimic_loot.
  apply finishes_bind with (R := fun _ => True).
  { destruct (CH.doublers s >? 0)%Z;
      [apply ctx_finishes_weighted | apply finishes_ret; exact I]. }
  intros value1 _. apply finishes_bind with (R := fun _ => True).
  { destruct (Qgtb _ _ && _);
      [apply ctx_finishes_weighted | apply finishes_ret; exact I]. }
  intros value2 _. apply finishes_bind with (R := fun _ => True).
  { unfold Ctx.chance_of. apply finishes_bind with (R := fun _ => True);
      [apply finishes_log | intros _ _; apply finishes_lift]. }
  intros c _. apply finishes_bind with (R := fun _ => True).
  { apply ctx_finishes_weighted. }
  intros value3 _. apply finishes_bind with (R := fun _ => True).
  { apply finishes_set_solved. }
  intros _ _. apply finishes_ret. exact I.
Qed.

End CtxFinishes.

Lemma ctx_finishes_activation (self : CH.t -> M CHValue.t) (s : CH.t) :
  (Ctx.stop_default s = false ->
   forall t, finishes (self (Ctx.next s t)) (fun _ => True)) ->
  finishes (Ctx.activation self s) (fun _ => True).
Proof.
  intros Hch. unfold Ctx.activation.
  apply finishes_bind with (R := fun _ => True). { apply finishes_log. }
  intros _ _. apply finishes_bind with (R := fun _ => True).
  2:{ intros v _. apply finishes_bind with (R := fun _ => True).
      - apply finishes_log.
      - intros _ _. apply finishes_ret. exact I. }
  unfold Ctx.body. apply finishes_bind with (R := fun _ => True).
  { apply finishes_get_solved. }
  intros d _. unfold Ctx.stop.
  destruct (CH.mem d s); cbn [orb]; [apply finishes_ret; exact I|].
  destruct (Ctx.stop_default s); [apply finishes_ret; exact I|].
  specialize (Hch eq_refl).
  destruct (CH.savers s >? 0)%Z; [destruct (CH.ad s)|].
  - destruct (_ && _); [apply ctx_finishes_recurse; assumption|].
    destruct (_ && _); [apply ctx_finishes_recurse; assumption|].
    destruct (_ <=? _)%Z; [apply ctx_finishes_recurse; assumption|].
    apply ctx_finishes_double_mimic_loot; assumption.
  - apply finishes_bind with (R := fun _ => True).
    + apply ctx_finishes_weighted; assumption.
    + intros v _. apply ctx_finishes_double_mimic_loot; assumption.
  - apply ctx_finishes_double_mimic_loot; assumption.
Qed.

(** Without chests the hunt is over, whatever the other counts. *)
Lemma ctx_stop_default_no_chests (s : CH.t) :
  CH.chests s <= 0 -> Ctx.stop_default s = true.
Proof.
  intros H. unfold Ctx.stop_default. apply orb_true_iff. right.
  apply Qle_bool_iff. exact H.
Qed.

Lemma ctx_going_chests (s : CH.t) :
  Ctx.stop_default s = false -> 0 < CH.chests s.
Proof.
  intros H. apply Qnot_le_lt. intros N.
  rewrite (ctx_stop_default_no_chests s N) in H. discriminate.
Qed.

(** A whole number of chests, counted down one by one. *)
Lemma ctx_next_chests_whole (s : CH.t) (t : CHType) :
  whole (CH.chests s) -> Qabs (CH.chests s) <= 10 ^ 27 ->
  CH.chests (Ctx.next s t) == CH.chests s - 1.
Proof.
  intros W B.
  assert (E : CH.chests (Ctx.next s t) = Dec.sub (CH.chests s) 1)
    by (destruct t; reflexivity).
  rewrite E. apply Qabs_Qle_condition in B. destruct B as [B1 B2].
  change (10 ^ 27) with 1000000000000000000000000000 in B1, B2.
  apply sub_whole; [assumption | apply whole_one | |];
    change (10 ^ 28) with 10000000000000000000000000000; lra.
Qed.

(** A result of fewer than 29 digits before the point is rounded by a half
    at most. *)
Lemma round_half (y : Q) :
  Qabs y < 10 ^ 28 -> Qabs (Dec.round y - y) <= 1 # 2.
Proof.
  intros B. destruct (Qeq_dec y 0) as [Z|NZ].
  - rewrite (round_zero y Z), Z. discriminate.
  - pose proof (round_close y NZ) as C.
    pose proof (adjusted_exponent_below y 28 NZ B) as Ha.
    assert (Hq : (Dec.quantum y <= 0)%Z).
    { unfold Dec.quantum, prec, Etiny, Emin, prec. lia. }
    pose proof (Qpower10_le _ _ Hq) as Hp. change (10 ^ 0) with 1 in Hp.
    eapply Qle_trans; [exact C|]. lra.
Qed.

(** Every transition takes one chest, up to the rounding of the count. *)
Lemma ctx_next_chests_near (s : CH.t) (t : CHType) :
  Qabs (CH.chests s) <= 10 ^ 27 ->
  CH.chests (Ctx.next s t) == Dec.round (CH.chests s - 1)
  /\ CH.chests s - (3 # 2) <= CH.chests (Ctx.next s t)
  /\ CH.chests (Ctx.next s t) <= CH.chests s - (1 # 2).
Proof.
  intros B.
  assert (E : CH.chests (Ctx.next s t) = Dec.round (CH.chests s - 1))
    by (destruct t; reflexivity).
  rewrite E. split; [reflexivity|].
  apply Qabs_Qle_condition in B. destruct B as [B1 B2].
  change (10 ^ 27) with 1000000000000000000000000000 in B1, B2.
  assert (H : Qabs (CH.chests s - 1) < 10 ^ 28).
  { apply Qabs_Qlt_condition.
    change (10 ^ 28) with 10000000000000000000000000000. split; lra. }
  pose proof (round_half _ H) as C. apply Qabs_Qle_condition in C.
  destruct C as [C1 C2]. split; lra.
Qed.

(** While there are chests, the count stays within the digits of the
    context. *)
Lemma ctx_next_chests_bound (s : CH.t) (t : CHType) :
  Qabs (CH.chests s) <= 10 ^ 27 -> 0 < CH.chests s ->
  Qabs (CH.chests (Ctx.next s t)) <= 10 ^ 27.
Proof.
  intros B Hpos. destruct (ctx_next_chests_near s t B) as (_ & L & U).
  apply Qabs_Qle_condition in B. destruct B as [B1 B2].
  apply Qabs_Qle_condition.
  change (10 ^ 27) with 1000000000000000000000000000 in *. split; lra.
Qed.

Lemma ctx_finishes_calculate_value (n : nat) :
  forall s, Qabs (CH.chests s) <= 10 ^ 27 ->
    2 * CH.chests s <= inject_Z (Z.of_nat n) ->
    finishes (Ctx.calculate_value (S n) s) (fun _ => True).
Proof.
  induction n as [|n IH]; intros s B Hc; cbn [Ctx.calculate_value];
    apply ctx_finishes_activation; intros Hgo t.
  - assert (H0 : CH.chests s <= 0)
      by (change (inject_Z (Z.of_nat 0)) with 0 in Hc; lra).
    rewrite (ctx_stop_default_no_chests s H0) in Hgo. discriminate.
  - apply ctx_going_chests in Hgo.
    destruct (ctx_next_chests_near s t B) as (_ & _ & U).
    apply IH.
    + apply ctx_next_chests_bound; assumption.
    + rewrite inject_Z_succ in Hc. lra.
Qed.

(** ** Runs in the context

    The run of the solver in the context, on countable hunts, for a property
    [good] of the values and a property [acc] of the running sums.  A
    running sum comes with a bound [B]: the chances added so far, and half a
    unit of the 28th digit for every rounding on the way. *)

Section CtxRun.

Variable good : CH.t -> CHValue.t -> Prop.
Variable acc : CH.t -> Q -> CHValue.t -> Prop.

Hypothesis good_eqb :
  forall a b v, CH.eqb a b = true -> good a v -> good b v.
Hypothesis good_default : forall s, good s (CH.value_default s).
Hypothesis good_saver : forall s v, good (Ctx.next s SAVER) v -> good s v.

Hypothesis acc_start : forall s, acc s 0 (CHValue.mk 0 0 0).
Hypothesis acc_add :
  forall s t B w c value v,
    acc s B value -> good (Ctx.next s t) v ->
    0 <= w -> w <= 1 -> c == Dec.round w ->
    B + w <= 1 + 7 * Dec.half_unit ->
    acc s (B + w + 2 * Dec.half_unit) (Ctx.add value (Ctx.mul v c)).
Hypothesis acc_le :
  forall s B B' value, acc s B value -> B <= B' -> acc s B' value.
Hypothesis acc_reward :
  forall s B w c value,
    acc s B value -> 0 <= w -> c == Dec.round w ->
    B <= 1 + 6 * Dec.half_unit ->
    acc s (B + Dec.half_unit) (Ctx.add value (Ctx.reward s c)).
Hypothesis acc_good : forall s B value, acc s B value -> good s value.

Section CtxBranches.

Variable self : CH.t -> M CHValue.t.
Variable s : CH.t.
Hypothesis Hs : countable s.
Hypothesis Hgo : CH.stop_default s = false.
Hypothesis children :
  forall t, explores s t = true ->
    runs countable good (self (Ctx.next s t)) (good (Ctx.next s t)).

Lemma ctx_runs_recurse (t : CHType) :
  explores s t = true ->
  runs countable good (Ctx.recurse self s t) (good (Ctx.next s t)).
Proof.
  intros Hex. unfold Ctx.recurse, Ctx.next_of.
  apply runs_bind with (R := fun s' => s' = Ctx.next s t).
  - apply runs_bind with (R := fun _ => True).
    + apply runs_log. split; assumption.
    + intros _ _. apply runs_ret. reflexivity.
  - intros s' ->. apply children. assumption.
Qed.

Lemma ctx_runs_chance_of (t : CHType) :
  runs countable good (Ctx.chance_of s t)
    (fun c => c == Dec.round (weight s t)).
Proof.
  destruct (countable_chance s t Hs Hgo) as (c & w & Ec & Hc & -> & _).
  destruct Hs as (((_ & Hm & Hsv & _) & _) & _).
  destruct (going_live s Hm Hsv Hgo) as (Hpos & Hl & _).
  unfold Ctx.chance_of.
  apply runs_bind with (R := fun _ => True).
  - apply runs_log. split; [exact Hgo|]. split; [exact Hpos|].
    rewrite <- live_chests_effective. exact Hl.
  - intros _ _. apply runs_weaken with (R := fun x => x = c).
    + apply runs_lift. exact Ec.
    + intros x ->. exact Hc.
Qed.

Lemma ctx_weight_range (t : CHType) : 0 <= weight s t /\ weight s t <= 1.
Proof.
  destruct (countable_chance s t Hs Hgo) as (c & w & _ & _ & -> & H0 & H1).
  split; assumption.
Qed.

Lemma ctx_runs_weighted (t : CHType) (B : Q) (value : CHValue.t) :
  explores s t = true -> acc s B value ->
  B + weight s t <= 1 + 7 * Dec.half_unit ->
  runs countable good (Ctx.weighted self s t value)
    (acc s (B + weight s t + 2 * Dec.half_unit)).
Proof.
  intros Hex HA HB. destruct (ctx_weight_range t) as [W0 W1].
  unfold Ctx.weighted.
  apply runs_bind with (R := fun c => c == Dec.round (weight s t)).
  { apply ctx_runs_chance_of. }
  intros c Hc.
  apply runs_bind with (R := good (Ctx.next s t)).
  { apply ctx_runs_recurse. assumption. }
  intros v Hv. apply runs_ret.
  apply acc_add with (t := t); assumption.
Qed.

Lemma ctx_weights_total :
  (if CH.ad s then 0 else weight s SAVER)
  + weight s DOUBLER + weight s MIMIC + weight s LOOT == 1.
Proof.
  destruct Hs as (((_ & Hm & Hsv & _) & _) & _).
  destruct (going_live s Hm Hsv Hgo) as (Hpos & Hl & _).
  apply weights_total; [exact Hpos|].
  rewrite <- live_chests_effective. exact Hl.
Qed.

Lemma ctx_runs_double_mimic_loot (value : CHValue.t) :
  acc s ((if CH.ad s then 0 else weight s SAVER) + 2 * Dec.half_unit) value ->
  runs countable good (Ctx.double_mimic_loot self s value) (good s).
Proof.
  intros HA. unfold Ctx.double_mimic_loot.
  pose proof ctx_weights_total as T.
  destruct (ctx_weight_range SAVER) as [S0 S1].
  destruct (ctx_weight_range DOUBLER) as [D0 D1].
  destruct (ctx_weight_range MIMIC) as [M0 M1].
  destruct (ctx_weight_range LOOT) as [L0 L1].
  set (B0 := if CH.ad s then 0 else weight s SAVER) in *.
  assert (HB0 : 0 <= B0) by (unfold B0; destruct (CH.ad s); lra).
  unfold Dec.half_unit in *.
  (* Double *)
  apply runs_bind
    with (R := acc s (B0 + 2 * Dec.half_unit + weight s DOUBLER
                      + 2 * Dec.half_unit)).
  { destruct (CH.doublers s >? 0)%Z eqn:Ed.
    - apply ctx_runs_weighted; try assumption.
      + unfold explores. rewrite Hgo, Ed. reflexivity.
      + unfold Dec.half_unit. lra.
    - apply runs_ret. apply (acc_le _ _ _ _ HA). unfold Dec.half_unit. lra. }
  intros value1 HA1.
  (* Mimic *)
  apply runs_bind
    with (R := acc s (B0 + 2 * Dec.half_unit + weight s DOUBLER
                      + 2 * Dec.half_unit + weight s MIMIC
                      + 2 * Dec.half_unit)).
  { destruct (Qgtb (CH.mimics s) 0
              && ((CH.saves s >? 0)%Z || (CH.csaves s >? 0)%Z)) eqn:Em.
    - apply ctx_runs_weighted; try assumption.
      + unfold explores. rewrite Hgo, Em. reflexivity.
      + unfold Dec.half_unit. lra.
    - apply runs_ret. apply (acc_le _ _ _ _ HA1). unfold Dec.half_unit. lra. }
  intros value2 HA2.
  (* Loot *)
  apply runs_bind with (R := fun c => c == Dec.round (weight s LOOT)).
  { apply ctx_runs_chance_of. }
  intros c Hc.
  apply runs_bind with
    (R := acc s (B0 + 2 * Dec.half_unit + weight s DOUBLER
                 + 2 * Dec.half_unit + weight s MIMIC
                 + 2 * Dec.half_unit + Dec.half_unit + weight s LOOT
                 + 2 * Dec.half_unit)).
  { apply ctx_runs_weighted.
    - unfold explores. rewrite Hgo. reflexivity.
    - apply acc_reward with (w := weight s LOOT); try assumption.
      unfold Dec.half_unit. lra.
    - unfold Dec.half_unit. lra. }
  intros value3 HA3.
  assert (HG : good s value3) by (apply (acc_good _ _ _ HA3)).
  apply runs_bind with (R := fun _ => True).
  { apply runs_set_solved; assumption. }
  intros _ _. apply runs_ret. assumption.
Qed.

End CtxBranches.

Lemma ctx_runs_body (self : CH.t -> M CHValue.t) (s : CH.t) :
  countable s ->
  (forall t, explores s t = true ->
     runs countable good (self (Ctx.next s t)) (good (Ctx.next s t))) ->
  runs countable good (Ctx.body self s) (good s).
Proof.
  intros HI Hch. unfold Ctx.body.
  apply runs_bind with (R := cache_ok countable good).
  { apply runs_get_solved. }
  intros d Hd. rewrite (ctx_stop d s HI). unfold CH.stop.
  destruct (CH.mem d s) eqn:Emem; cbn [orb].
  { apply runs_ret. unfold CH.value.
    destruct (CH.get d s) as [v|] eqn:Eget.
    - apply (Hd s v); assumption.
    - apply good_default. }
  destruct (CH.stop_default s) eqn:Hgo.
  { apply runs_ret. unfold CH.value. rewrite (mem_false_get _ _ Emem).
    apply good_default. }
  unfold CH.value. rewrite (mem_false_get _ _ Emem).
  assert (HInv : Inv s) by (apply counts_Inv; apply HI).
  rewrite (value_default_going s HInv Hgo).
  assert (Hsaver : (CH.savers s >? 0)%Z = true -> explores s SAVER = true)
    by (intros E; unfold explores; rewrite Hgo, E; reflexivity).
  assert (Hearly : (CH.savers s >? 0)%Z = true ->
                   runs countable good (Ctx.recurse self s SAVER) (good s)).
  { intros E. apply runs_weaken with (R := good (Ctx.next s SAVER)).
    - apply ctx_runs_recurse; auto.
    - apply good_saver. }
  pose proof (acc_start s) as HA0.
  destruct (ctx_weight_range s HI Hgo SAVER) as [S0 S1].
  destruct (CH.savers s >? 0)%Z eqn:Es.
  - destruct (CH.ad s) eqn:Ead.
    + destruct (CH.chase s && (CH.doubles s >? 0)%Z); [auto|].
      destruct (negb (CH.chase s) && (CH.csaves s <=? 0)%Z); [auto|].
      destruct (CH.doublers s <=? 0)%Z eqn:Edbl; [auto|].
      apply ctx_runs_double_mimic_loot; auto. rewrite Ead.
      apply (acc_le _ _ _ _ HA0). unfold Dec.half_unit. lra.
    + apply runs_bind
        with (R := acc s (0 + weight s SAVER + 2 * Dec.half_unit)).
      { apply ctx_runs_weighted; auto. unfold Dec.half_unit. lra. }
      intros value1 HA1. apply ctx_runs_double_mimic_loot; auto.
      rewrite Ead. apply (acc_le _ _ _ _ HA1). lra.
  - apply ctx_runs_double_mimic_loot; auto.
    apply (acc_le _ _ _ _ HA0).
    unfold Dec.half_unit. destruct (CH.ad s); lra.
Qed.

Lemma ctx_runs_activation (self : CH.t -> M CHValue.t) (s : CH.t) :
  countable s ->
  (forall t, explores s t = true ->
     runs countable good (self (Ctx.next s t)) (good (Ctx.next s t))) ->
  runs countable good (Ctx.activation self s) (good s).
Proof.
  intros HI Hch. unfold Ctx.activation.
  apply runs_bind with (R := fun _ => True). { apply runs_log. exact HI. }
  intros _ _. apply runs_bind with (R := good s).
  { apply ctx_runs_body; assumption. }
  intros v Hv. apply runs_bind with (R := fun _ => True).
  { apply runs_log. split; assumption. }
  intros _ _. apply runs_ret. assumption.
Qed.

(** In the context the solver returns a good value for every countable
    hunt, from every store with a good cache, within a depth of one more
    than the number of chests. *)
Lemma ctx_runs_calculate_value (n : nat) :
  forall s, countable s -> CH.chests s <= inject_Z (Z.of_nat n) ->
    runs countable good (Ctx.calculate_value (S n) s) (good s).
Proof.
  induction n as [|n IH]; intros s HI Hc; cbn [Ctx.calculate_value];
    apply ctx_runs_activation; try assumption; intros t Hex.
  - apply explores_going in Hex.
    rewrite (stop_default_no_chests s Hc) in Hex. discriminate.
  - apply IH; [apply countable_next; assumption|].
    destruct (countable_within s HI) as (W & _ & B & _).
    rewrite (ctx_next_chests_whole s t W B).
    rewrite inject_Z_succ in Hc. lra.
Qed.

End CtxRun.

(** ** The claims on the arithmetic of decimals *)

(** *** C3: the chance model *)

(** C3, as the code has it.  For a state whose [chests] and [mimics] are
    whole numbers, none of them nor [savers] above [10^27] in absolute
    value, and where no divisor is zero: every chance is the quotient of the
    claim rounded to the 28 significant digits of the decimal context (to
    nearest, ties to even).  The chance of a saver is the rounded [savers / chests] over the
    raw number of chests, also with skip priority ([ad]); the chances of a
    mimic, of a doubler and of loot are the rounded quotients of [mimics],
    [1 if doublers > 0 else 0] and
    [effectiveChests - mimics - effectiveSavers - activeDoublers] by
    [effectiveChests = chests - (savers if ad else 0)], with
    [effectiveSavers = 0 if ad else savers]. *)
Theorem C3_chance_model (s : CH.t) :
  whole (CH.chests s) -> whole (CH.mimics s) ->
  Qabs (CH.chests s) <= 10 ^ 27 -> Qabs (CH.mimics s) <= 10 ^ 27 ->
  (Z.abs (CH.savers s) <= 10 ^ 27)%Z ->
  ~ CH.chests s == 0 -> ~ effectiveChests s == 0 ->
  (exists c, Ctx.chance s SAVER = inr c
             /\ c == Dec.round (inject_Z (CH.savers s) / CH.chests s))
  /\ (exists c, Ctx.chance s MIMIC = inr c
                /\ c == Dec.round (CH.mimics s / effectiveChests s))
  /\ (exists c, Ctx.chance s DOUBLER = inr c
                /\ c == Dec.round (activeDoublers s / effectiveChests s))
  /\ (exists c, Ctx.chance s LOOT = inr c
                /\ c == Dec.round
                          ((effectiveChests s - CH.mimics s
                            - effectiveSavers s - activeDoublers s)
                           / effectiveChests s)).
Proof.
  intros Wc Wm Bc Bm Bs Hc He.
  assert (Hl : ~ CH.live_chests s == 0)
    by (rewrite live_chests_effective; assumption).
  pose proof (fun t => ctx_chance s Wc Wm Bc Bm Bs t Hc Hl) as H.
  split; [|split; [|split]].
  - destruct (H SAVER) as (c & E & Hw). exists c. split; [exact E|].
    rewrite Hw. reflexivity.
  - destruct (H MIMIC) as (c & E & Hw). exists c. split; [exact E|].
    rewrite Hw. cbn [weight]. rewrite live_chests_effective. reflexivity.
  - destruct (H DOUBLER) as (c & E & Hw). exists c. split; [exact E|].
    rewrite Hw. cbn [weight].
    rewrite live_chests_effective, doublers01_active. reflexivity.
  - destruct (H LOOT) as (c & E & Hw). exists c. split; [exact E|].
    rewrite Hw. cbn [weight].
    rewrite live_chests_effective, doublers01_active.
    unfold effectiveSavers. destruct (CH.ad s); reflexivity.
Qed.

(** Ten chests, three of them savers, with skip priority: the saver's chance
    is over ten chests, the others' over seven. *)
Lemma C3_chance_model_witness :
  (exists c, Ctx.chance (CH.init 10 2 3 0 true 0 1 0 false false true) SAVER
             = inr c /\ c == Dec.round (3 / 10))
  /\ (exists c, Ctx.chance (CH.init 10 2 3 0 true 0 1 0 false false true) MIMIC
                = inr c /\ c == Dec.round (2 / (10 - 3)))
  /\ (exists c, Ctx.chance (CH.init 10 2 3 0 true 0 1 0 false false true) DOUBLER
                = inr c /\ c == Dec.round (1 / (10 - 3)))
  /\ (exists c, Ctx.chance (CH.init 10 2 3 0 true 0 1 0 false false true) LOOT
                = inr c /\ c == Dec.round ((10 - 3 - 2 - 0 - 1) / (10 - 3))).
Proof.
  apply (C3_chance_model (CH.init 10 2 3 0 true 0 1 0 false false true)).
  - exists 10%Z. reflexivity.
  - exists 2%Z. reflexivity.
  - vm_compute. discriminate.
  - vm_compute. discriminate.
  - vm_compute. discriminate.
  - vm_compute. discriminate.
  - vm_compute. discriminate.
Defined.

(** Seven chests, two of them mimics: the chance of a mimic is
    [0.2857142857142857142857142857], which is less than [2 / 7]. *)
Lemma C3_counterexample :
  exists c,
    Ctx.chance (CH.init 7 2 0 0 false 0 0 0 false false true) MIMIC = inr c
    /\ c == 2857142857142857142857142857 # 10000000000000000000000000000
    /\ c < CH.mimics (CH.init 7 2 0 0 false 0 0 0 false false true)
           / effectiveChests (CH.init 7 2 0 0 false 0 0 0 false false true).
Proof.
  eexists. split; [vm_compute; reflexivity|]. split; reflexivity.
Qed.

(** *** C5: termination *)

Lemma round_nonpos (x : Q) : x <= 0 -> Dec.round x <= 0.
Proof.
  intros H. destruct (Qeq_dec x 0) as [Z|NZ].
  - rewrite (round_zero x Z). lra.
  - rewrite (round_nonzero x NZ). set (q := Dec.quantum x).
    pose proof (Qpower10_pos q) as P.
    assert (Hn : inject_Z (round_half_even (x / 10 ^ q)) <= 0).
    { change 0 with (inject_Z 0). rewrite <- Zle_Qle.
      apply round_half_even_upper. change (inject_Z 0) with 0.
      apply Qle_shift_div_r; [exact P | lra]. }
    setoid_replace 0 with (0 * 10 ^ q) by ring.
    apply Qmult_le_compat_r; [exact Hn | lra].
Qed.

Lemma ctx_next_chests_nonpos (s : CH.t) (t : CHType) :
  CH.chests s <= 0 -> CH.chests (Ctx.next s t) <= 0.
Proof.
  intros H.
  assert (E : CH.chests (Ctx.next s t) = Dec.sub (CH.chests s) 1)
    by (destruct t; reflexivity).
  rewrite E. apply round_nonpos. lra.
Qed.

Lemma ctx_nexts_nonpos (ts : list CHType) :
  forall s, CH.chests s <= 0 -> CH.chests (fold_left Ctx.next ts s) <= 0.
Proof.
  induction ts as [|t ts IH]; intros s H; cbn [fold_left]; [exact H|].
  apply IH, ctx_next_chests_nonpos, H.
Qed.

(** After twice as many transitions as there are chests, none is left. *)
Lemma ctx_nexts_no_chests (ts : list CHType) :
  forall s, Qabs (CH.chests s) <= 10 ^ 27 ->
    2 * CH.chests s <= inject_Z (Z.of_nat (length ts)) ->
    CH.chests (fold_left Ctx.next ts s) <= 0.
Proof.
  induction ts as [|t ts IH]; intros s B Hc; cbn [fold_left].
  - change (inject_Z (Z.of_nat (length []))) with 0 in Hc. lra.
  - destruct (Qlt_le_dec 0 (CH.chests s)) as [Hpos|Hneg].
    + destruct (ctx_next_chests_near s t B) as (_ & _ & U).
      apply IH.
      * apply ctx_next_chests_bound; assumption.
      * cbn [length] in Hc. rewrite inject_Z_succ in Hc. lra.
    + apply ctx_nexts_nonpos, ctx_next_chests_nonpos, Hneg.
Qed.

(** C5, as the code has it.  For a state with [10^27] chests at most (in
    absolute value; not only whole numbers): a transition replaces [chests]
    by [chests - 1] rounded to the 28 digits of the context, which is within
    a half of [chests - 1], and is [chests - 1] when [chests] is a whole
    number; after twice as many transitions as there are chests (or more),
    of whatever kinds, no chest is left and the stop condition holds; and
    the solver terminates, from every store: with a call depth above twice
    the number of chests it returns a value or raises, and does not recurse
    further. *)
Theorem C5_termination (s : CH.t) (st : store) (n : nat) :
  Qabs (CH.chests s) <= 10 ^ 27 ->
  2 * CH.chests s <= inject_Z (Z.of_nat n) ->
  (forall t,
     CH.chests (Ctx.next s t) == Dec.round (CH.chests s - 1)
     /\ CH.chests s - (3 # 2) <= CH.chests (Ctx.next s t)
     /\ CH.chests (Ctx.next s t) <= CH.chests s - (1 # 2))
  /\ (forall t z, CH.chests s == inject_Z z ->
        CH.chests (Ctx.next s t) == inject_Z (z - 1))
  /\ (forall d ts, length ts = n ->
        CH.chests (fold_left Ctx.next ts s) <= 0
        /\ Ctx.stop d (fold_left Ctx.next ts s) = true)
  /\ ((exists v st', Ctx.calculate_value (S n) s st = Ok (v, st'))
      \/ (exists e, Ctx.calculate_value (S n) s st = Raise e)).
Proof.
  intros B Hc. split; [intros t; apply ctx_next_chests_near; exact B|].
  split.
  { intros t z Hz.
    rewrite (ctx_next_chests_whole s t (ex_intro _ z Hz) B), Hz.
    unfold Z.sub. rewrite inject_Z_plus. reflexivity. }
  split.
  - intros d ts Hl.
    assert (H : CH.chests (fold_left Ctx.next ts s) <= 0)
      by (apply ctx_nexts_no_chests; try assumption; rewrite Hl; exact Hc).
    split; [exact H|]. unfold Ctx.stop.
    rewrite (ctx_stop_default_no_chests _ H). apply orb_true_r.
  - destruct (ctx_finishes_calculate_value n s B Hc st)
      as [(v & st' & E & _) | (e & E)]; [left | right]; eauto.
Qed.

(** Four chests, one of them a mimic, and a save: a depth of nine
    suffices. *)
Lemma C5_termination_witness :
  (forall t,
     CH.chests (Ctx.next (CH.init 4 1 0 1 false 0 0 0 false false true) t)
     == Dec.round (4 - 1)
     /\ 4 - (3 # 2)
        <= CH.chests
             (Ctx.next (CH.init 4 1 0 1 false 0 0 0 false false true) t)
     /\ CH.chests (Ctx.next (CH.init 4 1 0 1 false 0 0 0 false false true) t)
        <= 4 - (1 # 2))
  /\ (forall t z, 4 == inject_Z z ->
        CH.chests (Ctx.next (CH.init 4 1 0 1 false 0 0 0 false false true) t)
        == inject_Z (z - 1))
  /\ (forall d ts, length ts = 8%nat ->
        CH.chests
          (fold_left Ctx.next ts
             (CH.init 4 1 0 1 false 0 0 0 false false true)) <= 0
        /\ Ctx.stop d
             (fold_left Ctx.next ts
                (CH.init 4 1 0 1 false 0 0 0 false false true)) = true)
  /\ ((exists v st',
         Ctx.calculate_value 9 (CH.init 4 1 0 1 false 0 0 0 false false true)
           empty_store = Ok (v, st'))
      \/ (exists e,
            Ctx.calculate_value 9
              (CH.init 4 1 0 1 false 0 0 0 false false true) empty_store
            = Raise e)).
Proof.
  apply (C5_termination (CH.init 4 1 0 1 false 0 0 0 false false true)
           empty_store 8).
  - vm_compute. discriminate.
  - vm_compute. discriminate.
Defined.

(** With [10^29] chests the subtraction of one chest is lost in the
    rounding: the state after a loot chest is the state before it, and the
    solver calls itself on it for ever. *)
Lemma ctx_endless_activation (self : CH.t -> M CHValue.t) (st : store) :
  (forall st', solved st' = [] ->
     self (CH.init (inject_Z (10 ^ 29)) 0 0 0 false 0 0 0 false false false)
       st' = OutOfFuel) ->
  solved st = [] ->
  Ctx.activation self
    (CH.init (inject_Z (10 ^ 29)) 0 0 0 false 0 0 0 false false false) st
  = OutOfFuel.
Proof.
  intros H Hst. destruct st as [d tr]. cbn [solved] in Hst. subst d.
  assert (En : Ctx.next
                 (CH.init (inject_Z (10 ^ 29)) 0 0 0 false 0 0 0 false false
                    false) LOOT
               = CH.init (inject_Z (10 ^ 29)) 0 0 0 false 0 0 0 false false
                   false)
    by (vm_compute; reflexivity).
  set (s := CH.init (inject_Z (10 ^ 29)) 0 0 0 false 0 0 0 false false false)
    in *.
  assert (Es : Ctx.stop [] s = false) by (vm_compute; reflexivity).
  assert (Ec : exists c, Ctx.chance s LOOT = inr c)
    by (eexists; vm_compute; reflexivity).
  destruct Ec as [c Ec].
  unfold Ctx.activation, Ctx.body, get_solved, bind, log. cbn [solved trace].
  rewrite Es.
  change (CH.savers s >? 0)%Z with false.
  unfold Ctx.double_mimic_loot, bind, ret.
  change (CH.doublers s >? 0)%Z with false.
  change (Qgtb (CH.mimics s) 0
          && ((CH.saves s >? 0)%Z || (CH.csaves s >? 0)%Z)) with false.
  unfold Ctx.chance_of, bind, log, lift. cbn [solved trace]. rewrite Ec.
  unfold Ctx.weighted, Ctx.chance_of, Ctx.recurse, Ctx.next_of, bind, log,
    lift, ret.
  cbn [solved trace]. rewrite Ec. cbn [solved trace]. rewrite En.
  rewrite H by reflexivity. reflexivity.
Qed.

Lemma ctx_endless (fuel : nat) :
  forall st, solved st = [] ->
    Ctx.calculate_value fuel
      (CH.init (inject_Z (10 ^ 29)) 0 0 0 false 0 0 0 false false false) st
    = OutOfFuel.
Proof.
  induction fuel as [|fuel IH]; intros st Hst; cbn [Ctx.calculate_value].
  - reflexivity.
  - apply ctx_endless_activation; assumption.
Qed.

(** [10^29] chests and nothing else: a transition takes no chest, and at no
    depth does the solver return or raise. *)
Lemma C5_counterexample :
  CH.chests
    (Ctx.next
       (CH.init (inject_Z (10 ^ 29)) 0 0 0 false 0 0 0 false false false) LOOT)
  == CH.chests
       (CH.init (inject_Z (10 ^ 29)) 0 0 0 false 0 0 0 false false false)
  /\ (forall fuel,
        Ctx.calculate_value fuel
          (CH.init (inject_Z (10 ^ 29)) 0 0 0 false 0 0 0 false false false)
          empty_store
        = OutOfFuel).
Proof.
  split; [vm_compute; reflexivity|].
  intros fuel. apply ctx_endless. reflexivity.
Qed.

(** *** C7: the perfect-hunt field is a probability *)

Lemma representable_comp (r r' : Q) :
  r == r' -> Dec.representable r -> Dec.representable r'.
Proof.
  intros E (m & e & Er & H). exists m, e. split; [|exact H].
  rewrite <- E. exact Er.
Qed.

(** A rounded chance is a chance, half a unit above the exact one at
    most, and a number of the context. *)
Lemma rounded_chance (w c : Q) :
  0 <= w -> w <= 1 -> c == Dec.round w ->
  0 <= c /\ c <= 1 /\ c <= w + Dec.half_unit /\ Dec.representable c.
Proof.
  intros W0 W1 E.
  assert (Hu : w <= 1 + 10 * Dec.half_unit) by (unfold Dec.half_unit; lra).
  destruct (round_unit w W0 Hu) as [U1 U2].
  pose proof (round_nonneg w W0) as U0.
  split; [rewrite E; exact U0|]. split; [rewrite E; exact U1|].
  split; [rewrite E; exact U2|].
  apply (representable_comp (Dec.round w)); [symmetry; exact E|].
  apply round_representable.
Qed.

(** A probability weighted by a chance is the chance at most. *)
Lemma mul_chance (p c : Q) :
  0 <= p -> p <= 1 -> 0 <= c -> Dec.representable c ->
  0 <= Dec.mul p c /\ Dec.mul p c <= c.
Proof.
  intros P0 P1 C0 R. unfold Dec.mul.
  assert (H0 : 0 <= p * c) by (apply Qmult_le_0_compat; assumption).
  assert (H1 : p * c <= c).
  { setoid_replace c with (1 * c) at 2 by ring.
    apply Qmult_le_compat_r; assumption. }
  split; [apply round_nonneg; exact H0|].
  apply round_below; assumption.
Qed.

Lemma unit_perfect_default (s : CH.t) : unit_perfect s (CH.value_default s).
Proof.
  unfold unit_perfect, CH.value_default. cbn [CHValue.perfect].
  destruct (_ && _); split; discriminate.
Qed.

Lemma unit_sum_add (s : CH.t) (t : CHType) (B w c : Q)
    (value v : CHValue.t) :
  unit_sum s B value -> unit_perfect (Ctx.next s t) v ->
  0 <= w -> w <= 1 -> c == Dec.round w ->
  B + w <= 1 + 7 * Dec.half_unit ->
  unit_sum s (B + w + 2 * Dec.half_unit) (Ctx.add value (Ctx.mul v c)).
Proof.
  intros (A0 & A1 & AB) [P0 P1] W0 W1 E HB.
  destruct (rounded_chance w c W0 W1 E) as (C0 & C1 & Cw & R).
  destruct (mul_chance _ _ P0 P1 C0 R) as [X0 X1].
  unfold unit_sum, Ctx.add, Ctx.mul. cbn [CHValue.perfect].
  set (x := Dec.mul (CHValue.perfect v) c) in *.
  set (p := CHValue.perfect value) in *.
  unfold Dec.add. unfold Dec.half_unit in *.
  assert (Y0 : 0 <= p + x) by lra.
  assert (Y1 : p + x <= 1 + 10 * (1 # 20000000000000000000000000000))
    by lra.
  destruct (round_unit (p + x) Y0 Y1) as [U1 U2].
  pose proof (round_nonneg (p + x) Y0) as U0.
  unfold Dec.half_unit in U2. split; [exact U0|]. split; [exact U1|]. lra.
Qed.

Lemma reward_perfect (s : CH.t) (c : Q) :
  CHValue.perfect (Ctx.reward s c) = 0.
Proof.
  unfold Ctx.reward, Ctx.mul, Dec.mul. cbn [CHValue.perfect].
  apply round_zero. ring.
Qed.

Lemma unit_sum_reward (s : CH.t) (B w c : Q) (value : CHValue.t) :
  unit_sum s B value -> 0 <= w -> c == Dec.round w ->
  B <= 1 + 6 * Dec.half_unit ->
  unit_sum s (B + Dec.half_unit) (Ctx.add value (Ctx.reward s c)).
Proof.
  intros (A0 & A1 & AB) _ _ HB.
  unfold unit_sum, Ctx.add. cbn [CHValue.perfect].
  rewrite reward_perfect. set (p := CHValue.perfect value) in *.
  unfold Dec.add. unfold Dec.half_unit in *.
  assert (Y0 : 0 <= p + 0) by lra.
  assert (Y1 : p + 0 <= 1 + 10 * (1 # 20000000000000000000000000000))
    by lra.
  destruct (round_unit (p + 0) Y0 Y1) as [U1 U2].
  pose proof (round_nonneg (p + 0) Y0) as U0.
  unfold Dec.half_unit in U2. split; [exact U0|]. split; [exact U1|]. lra.
Qed.

Lemma unit_sum_start (s : CH.t) : unit_sum s 0 (CHValue.mk 0 0 0).
Proof. unfold unit_sum. cbn [CHValue.perfect]. repeat split; discriminate. Qed.

Lemma unit_sum_le (s : CH.t) (B B' : Q) (value : CHValue.t) :
  unit_sum s B value -> B <= B' -> unit_sum s B' value.
Proof. unfold unit_sum. intros (H0 & H1 & HB) L. repeat split; lra. Qed.

Lemma unit_sum_good (s : CH.t) (B : Q) (value : CHValue.t) :
  unit_sum s B value -> unit_perfect s value.
Proof. unfold unit_sum, unit_perfect. tauto. Qed.

(** In the context, from a store whose values for countable hunts have a
    probability as their perfect-hunt field, the solver returns such a
    value for a countable hunt, keeps the store so, and only adds such
    events to the trace. *)
Lemma ctx_calculate_value_unit (n : nat) (s : CH.t) (st : store) :
  countable s -> cache_ok countable unit_perfect (solved st) ->
  CH.chests s <= inject_Z (Z.of_nat n) ->
  exists v st' tr,
    Ctx.calculate_value (S n) s st = Ok (v, st')
    /\ unit_perfect s v /\ cache_ok countable unit_perfect (solved st')
    /\ trace st' = tr ++ trace st
    /\ Forall (ev_ok countable unit_perfect) tr.
Proof.
  intros HI Hst Hc.
  destruct (ctx_runs_calculate_value unit_perfect unit_sum
              (fun _ _ _ _ H => H) unit_perfect_default (fun _ _ H => H)
              unit_sum_start unit_sum_add unit_sum_le unit_sum_reward
              unit_sum_good n s HI Hc st Hst)
    as (v & st' & E & G & C & tr & Etr & F).
  exists v, st', tr. auto.
Qed.

Lemma sound_in_context_empty : sound_in_context empty_store.
Proof. intros s v H. discriminate. Qed.

(** C7, as the code has it.  For every initial state with non-negative
    fields and [chests >= mimics + savers + doublers] whose [chests] and
    [mimics] are whole numbers, with [10^27] chests at most, and from every
    store that is sound in the context: the solver returns, and the value it
    returns, like the value returned for every state it recurses into, has
    its perfect-hunt field in [[0, 1]]; the store it leaves is sound
    again. *)
Theorem C7_perfect_bounded (s : CH.t) (n : nat) (st : store) :
  valid s -> whole (CH.chests s) -> whole (CH.mimics s) ->
  CH.chests s <= 10 ^ 27 -> sound_in_context st ->
  CH.chests s <= inject_Z (Z.of_nat n) ->
  exists v st' tr,
    Ctx.calculate_value (S n) s st = Ok (v, st')
    /\ (0 <= CHValue.perfect v /\ CHValue.perfect v <= 1)
    /\ trace st' = tr ++ trace st
    /\ (forall s' v', In (Return s' v') tr ->
          0 <= CHValue.perfect v' /\ CHValue.perfect v' <= 1)
    /\ sound_in_context st'.
Proof.
  intros Hv Wc Wm Hb Hst Hn.
  pose proof (valid_countable s Hv Wc Wm Hb) as HI.
  destruct (ctx_calculate_value_unit n s st HI Hst Hn)
    as (v & st' & tr & E & G & Hst' & Etr & F).
  exists v, st', tr. split; [exact E|]. split; [exact G|].
  split; [exact Etr|]. split; [|exact Hst'].
  intros s' v' Hin. rewrite Forall_forall in F.
  exact (proj2 (F _ Hin)).
Qed.

(** Four chests, two of them mimics, and one save, from the empty cache. *)
Lemma C7_perfect_bounded_witness :
  exists v st' tr,
    Ctx.calculate_value 5 (CH.init 4 2 0 1 false 0 0 0 false false true)
      empty_store = Ok (v, st')
    /\ (0 <= CHValue.perfect v /\ CHValue.perfect v <= 1)
    /\ trace st' = tr ++ trace empty_store
    /\ (forall s' v', In (Return s' v') tr ->
          0 <= CHValue.perfect v' /\ CHValue.perfect v' <= 1)
    /\ sound_in_context st'.
Proof.
  apply (C7_perfect_bounded
           (CH.init 4 2 0 1 false 0 0 0 false false true) 4 empty_store).
  - unfold valid. vm_compute. repeat split; discriminate.
  - exists 4%Z. reflexivity.
  - exists 2%Z. reflexivity.
  - vm_compute. discriminate.
  - exact sound_in_context_empty.
  - vm_compute. discriminate.
Defined.

(** [10^30 + 4] chests, [10^30 + 2] of them mimics, a saver and a doubler,
    with skip priority and a perfect hunt wanted: the state is an initial
    state of the claim, its counts are whole numbers, and the solver returns
    a negative perfect-hunt field, [-2E-30] (and a negative loot). *)
Lemma C7_counterexample :
  exists v st',
    valid (CH.init 1000000000000000000000000000004
             1000000000000000000000000000002 1 0 true 0 1 0 false true false)
    /\ Ctx.calculate_value 3
         (CH.init 1000000000000000000000000000004
            1000000000000000000000000000002 1 0 true 0 1 0 false true false)
         empty_store = Ok (v, st')
    /\ CHValue.perfect v == - (2 # 1000000000000000000000000000000)
    /\ CHValue.perfect v < 0.
Proof.
  eexists _, _. split; [unfold valid; vm_compute; repeat split; discriminate|].
  split; [vm_compute; reflexivity|]. split; reflexivity.
Qed.

(** ** The states the solver visits, the values it returns, in the context *)

(** X7.  The chances are probabilities.  In a countable hunt that goes on
    (whole numbers of chests and mimics, no negative count, the special
    chests among the chests, [10^27] chests at most, and [stop] false by
    default), [chance] raises for no kind of chest: it returns a number
    between 0 and 1. *)
Theorem chances_are_probabilities (s : CH.t) (t : CHType) :
  countable s -> Ctx.stop_default s = false ->
  exists c, Ctx.chance s t = inr c /\ 0 <= c /\ c <= 1.
Proof.
  intros HI Hgo. rewrite (ctx_stop_default s HI) in Hgo.
  destruct (countable_chance s t HI Hgo) as (c & w & Ec & E & _ & W0 & W1).
  destruct (rounded_chance w c W0 W1 E) as (C0 & C1 & _).
  exists c. auto.
Qed.

(** Ten chests with two mimics, three savers and a doubler, with skip
    priority: the chance of loot, four in seven. *)
Lemma chances_are_probabilities_witness :
  exists c,
    Ctx.chance (CH.init 10 2 3 0 true 0 1 0 false false true) LOOT = inr c
    /\ 0 <= c /\ c <= 1.
Proof.
  apply (chances_are_probabilities
           (CH.init 10 2 3 0 true 0 1 0 false false true) LOOT).
  - apply valid_countable.
    + unfold valid. vm_compute. repeat split; discriminate.
    + exists 10%Z. reflexivity.
    + exists 2%Z. reflexivity.
    + vm_compute. discriminate.
  - vm_compute. reflexivity.
Defined.

(** In the context the solver returns for every countable hunt, whatever
    the cache holds, and is only entered in countable hunts. *)
Lemma ctx_calculate_value_any (n : nat) (s : CH.t) (st : store) :
  countable s -> CH.chests s <= inject_Z (Z.of_nat n) ->
  exists v st' tr,
    Ctx.calculate_value (S n) s st = Ok (v, st')
    /\ trace st' = tr ++ trace st
    /\ Forall (ev_ok countable any_value) tr.
Proof.
  intros HI Hc.
  assert (Hst : cache_ok countable any_value (solved st))
    by (intros ? ? ? ?; exact I).
  destruct (ctx_runs_calculate_value any_value any_sum
              (fun _ _ _ _ _ => I) (fun _ => I) (fun _ _ _ => I)
              (fun _ => I) (fun _ _ _ _ _ _ _ _ _ _ _ _ _ => I)
              (fun _ _ _ _ _ _ => I) (fun _ _ _ _ _ _ _ _ _ => I)
              (fun _ _ _ _ => I) n s HI Hc st Hst)
    as (v & st' & E & _ & _ & tr & Etr & F).
  exists v, st', tr. auto.
Qed.

(** X9.  The special chests stay among the chests.  From a state with no
    negative attribute, whole numbers of chests and mimics,
    [mimics + savers + doublers <= chests] and [10^27] chests at most, the
    solver returns, and in every state it is entered in, no count of special
    chests is negative and
    [mimics + savers + (1 if doublers > 0 else 0) <= chests]: the hunt never
    holds more special chests than chests, a second doubler counting as
    loot. *)
Theorem special_chests_fit (s : CH.t) (n : nat) (st : store) :
  valid s -> whole (CH.chests s) -> whole (CH.mimics s) ->
  CH.chests s <= 10 ^ 27 -> CH.chests s <= inject_Z (Z.of_nat n) ->
  exists v st' tr,
    Ctx.calculate_value (S n) s st = Ok (v, st')
    /\ trace st' = tr ++ trace st
    /\ forall s', In (Call s') tr ->
         (0 <= CH.mimics s' /\ (0 <= CH.savers s')%Z
          /\ (0 <= CH.doublers s')%Z)
         /\ CH.mimics s' + inject_Z (CH.savers s') + activeDoublers s'
            <= CH.chests s'.
Proof.
  intros Hv Wc Wm Hb Hn.
  pose proof (valid_countable s Hv Wc Wm Hb) as HI.
  destruct (ctx_calculate_value_any n s st HI Hn)
    as (v & st' & tr & E & Etr & F).
  exists v, st', tr. split; [exact E|]. split; [exact Etr|].
  intros s' Hin. rewrite Forall_forall in F.
  destruct (F _ Hin) as (((_ & Hm & Hsv & _ & _ & Hd & _) & _) & Hf & _).
  split; [|exact Hf]. repeat split; assumption.
Qed.

(** Five chests: a mimic, a saver and two doublers, and one save. *)
Lemma special_chests_fit_witness :
  exists v st' tr,
    Ctx.calculate_value 6 (CH.init 5 1 1 1 false 0 2 0 false false true)
      empty_store = Ok (v, st')
    /\ trace st' = tr ++ trace empty_store
    /\ forall s', In (Call s') tr ->
         (0 <= CH.mimics s' /\ (0 <= CH.savers s')%Z
          /\ (0 <= CH.doublers s')%Z)
         /\ CH.mimics s' + inject_Z (CH.savers s') + activeDoublers s'
            <= CH.chests s'.
Proof.
  apply (special_chests_fit
           (CH.init 5 1 1 1 false 0 2 0 false false true) 5 empty_store).
  - unfold valid. vm_compute. repeat split; discriminate.
  - exists 5%Z. reflexivity.
  - exists 1%Z. reflexivity.
  - vm_compute. discriminate.
  - vm_compute. discriminate.
Defined.

Lemma ctx_nonneg_add (value v : CHValue.t) (c : Q) :
  nonneg value -> nonneg v -> 0 <= c ->
  nonneg (Ctx.add value (Ctx.mul v c)).
Proof.
  intros [L0 A0] [L1 A1] C0. unfold nonneg, Ctx.add, Ctx.mul, Dec.add, Dec.mul.
  cbn [CHValue.loot CHValue.armory].
  split; apply round_nonneg;
    (apply Qle_trans with (0 + 0); [lra|]);
    (apply Qplus_le_compat; [assumption|]);
    apply round_nonneg, Qmult_le_0_compat; assumption.
Qed.

Lemma ctx_nonneg_reward (s : CH.t) (value : CHValue.t) (c : Q) :
  nonneg value -> 0 <= c -> nonneg (Ctx.add value (Ctx.reward s c)).
Proof.
  intros [L0 A0] C0. destruct (rates_nonneg s) as [R1 R2].
  pose proof (gain_pos s) as G.
  assert (X : 0 <= Dec.mul c (inject_Z (gain s)))
    by (apply round_nonneg, Qmult_le_0_compat; assumption).
  unfold nonneg, Ctx.add, Ctx.reward, Ctx.mul.
  cbn [CHValue.loot CHValue.armory]. unfold Dec.add.
  split; apply round_nonneg;
    (apply Qle_trans with (0 + 0); [lra|]);
    (apply Qplus_le_compat; [assumption|]);
    apply round_nonneg, Qmult_le_0_compat; assumption.
Qed.

Lemma ctx_nonneg_start : nonneg (CHValue.mk 0 0 0).
Proof. split; discriminate. Qed.

Lemma rounded_nonneg (w c : Q) : 0 <= w -> c == Dec.round w -> 0 <= c.
Proof. intros W E. rewrite E. apply round_nonneg. exact W. Qed.

Lemma ctx_nonneg_default (s : CH.t) : nonneg (CH.value_default s).
Proof.
  unfold nonneg, CH.value_default. cbn [CHValue.loot CHValue.armory].
  split; discriminate.
Qed.

(** X10.  No negative loot.  From a state with no negative attribute, whole
    numbers of chests and mimics, [mimics + savers + doublers <= chests] and
    [10^27] chests at most, and a cache whose values for countable hunts
    have no negative loot or armory (as the empty one), the solver returns a
    value with no negative loot or armory, and neither have the values for
    countable hunts of the cache it leaves. *)
Theorem values_not_negative (n : nat) (s : CH.t) (st : store) :
  valid s -> whole (CH.chests s) -> whole (CH.mimics s) ->
  CH.chests s <= 10 ^ 27 ->
  (forall k w, CH.get (solved st) k = Some w -> countable k ->
     0 <= CHValue.loot w /\ 0 <= CHValue.armory w) ->
  CH.chests s <= inject_Z (Z.of_nat n) ->
  exists v st',
    Ctx.calculate_value (S n) s st = Ok (v, st')
    /\ (0 <= CHValue.loot v /\ 0 <= CHValue.armory v)
    /\ (forall k w, CH.get (solved st') k = Some w -> countable k ->
          0 <= CHValue.loot w /\ 0 <= CHValue.armory w).
Proof.
  intros Hv Wc Wm Hb Hst Hn.
  pose proof (valid_countable s Hv Wc Wm Hb) as HI.
  destruct (ctx_runs_calculate_value (fun _ v => nonneg v)
              (fun _ _ v => nonneg v)
              (fun _ _ _ _ H => H) ctx_nonneg_default (fun _ _ H => H)
              (fun _ => ctx_nonneg_start)
              (fun _ _ _ w c value v HA HG W0 _ E _ =>
                 ctx_nonneg_add value v c HA HG (rounded_nonneg w c W0 E))
              (fun _ _ _ _ H _ => H)
              (fun s _ w c value HA W0 E _ =>
                 ctx_nonneg_reward s value c HA (rounded_nonneg w c W0 E))
              (fun _ _ _ H => H) n s HI Hn st Hst)
    as (v & st' & E & G & C & _).
  exists v, st'. split; [exact E|]. split; [exact G | exact C].
Qed.

(** Five chests: a mimic, a saver and a doubler, and one save, with the
    armory, from the empty cache. *)
Lemma values_not_negative_witness :
  exists v st',
    Ctx.calculate_value 6 (CH.init 5 1 1 1 false 0 1 0 false false true)
      empty_store = Ok (v, st')
    /\ (0 <= CHValue.loot v /\ 0 <= CHValue.armory v)
    /\ (forall k w, CH.get (solved st') k = Some w -> countable k ->
          0 <= CHValue.loot w /\ 0 <= CHValue.armory w).
Proof.
  apply (values_not_negative 5
           (CH.init 5 1 1 1 false 0 1 0 false false true) empty_store).
  - unfold valid. vm_compute. repeat split; discriminate.
  - exists 5%Z. reflexivity.
  - exists 1%Z. reflexivity.
  - vm_compute. discriminate.
  - intros k w Hk. discriminate.
  - vm_compute. discriminate.
Defined.

(** ** The defaults of the constructor *)

(** X17.  The defaults of the constructor, without the armory: thirty
    chests, four of them mimics, and no protection, so that the first mimic
    ends the hunt.  In the context the solver returns, from the empty cache,
    [loot = 5.200000000000000000000000001],
    [perfect = 0.00003648969166210545520890348476] and [armory = 0].  The
    loot is not the [26 / 5] of exact arithmetic, the expected number of
    loot chests before the first of four mimics: the roundings of the
    thirty levels of the recursion add up to one unit of the 28th digit. *)
Theorem unprotected_hunt :
  exists v st',
    Ctx.calculate_value 31
      (CH.init 30 4 0 0 false 0 0 0 false false false) empty_store
    = Ok (v, st')
    /\ CHValue.loot v == 5200000000000000000000000001
                         # 1000000000000000000000000000
    /\ CHValue.perfect v == 3648969166210545520890348476
                            # 100000000000000000000000000000000
    /\ CHValue.armory v == 0
    /\ 26 # 5 < CHValue.loot v.
Proof.
  eexists _, _. split; [vm_compute; reflexivity|].
  repeat split; reflexivity.
Qed.
